(** * Astro-Trek: Keplerian orbits and the three anomalies

    A shallow embedding of [script/universe/orbit.js]: the class
    [KeplerianOrbit] and the classes [TrueAnomaly], [EccentricAnomaly] and
    [MeanAnomaly] with their conversions, the last of which inverts Kepler's
    equation by a bounded Newton iteration.  The tree of the class
    [Object] of the drawing code is embedded besides, in [Scene].

    The JavaScript objects live in a store; a method is a computation over
    that store which may read objects, allocate new ones, assign fields and
    throw.  The arithmetic is kept abstract in an interface [Number], which
    has two instances: IEEE binary64 (what the engine computes with) and the
    real numbers (what the formulas mean). *)

From Stdlib Require Import List String Bool Arith Lia ZArith.
From Stdlib Require Import Floats.
From Stdlib Require Import Reals Lra.
Import ListNotations.
Abbreviation length := List.length (only parsing).

(** ** Numbers *)

(** The operations [orbit.js] applies to numbers: the arithmetic operators,
    the comparison [<], the literals that occur in the file, and the
    members of [Math] that it calls. *)
Class Number (num : Type) : Type := {
  add : num -> num -> num;
  sub : num -> num -> num;
  mul : num -> num -> num;
  div : num -> num -> num;
  neg : num -> num;
  lt : num -> num -> bool;
  lit_0 : num;
  lit_1 : num;
  lit_2 : num;
  lit_180 : num;
  lit_0_00001 : num;
  Math_PI : num;
  Math_abs : num -> num;
  Math_sqrt : num -> num;
  Math_sin : num -> num;
  Math_cos : num -> num;
  Math_atan2 : num -> num -> num;
  Math_min : num -> num -> num;
  Math_max : num -> num -> num
}.

Declare Scope js_scope.
Delimit Scope js_scope with js.
Notation "a + b" := (add a b) : js_scope.
Notation "a - b" := (sub a b) : js_scope.
Notation "a * b" := (mul a b) : js_scope.
Notation "a / b" := (div a b) : js_scope.
Notation "- a" := (neg a) : js_scope.
Notation "a <? b" := (lt a b) : js_scope.

(** ** Objects and the store *)

Definition loc := nat.

Section Store.

Context {num : Type}.

(** The fields a [KeplerianOrbit] carries. *)
Record orbit_fields : Type := {
  semimajor_axis : num;
  eccentricity : num;
  argument_of_periapsis : num;
  clockwise : bool
}.

(** An object literal [{ x: .., y: .. }].  The file builds such a point,
    hands it on and takes it apart again at once; it never assigns to one
    and never compares two, so a point is kept as a value. *)
Record Point : Type := { x : num; y : num }.

(** The instances of the four classes. *)
Inductive object : Type :=
| OKeplerianOrbit (fields : orbit_fields)
| OTrueAnomaly (angle : num)
| OEccentricAnomaly (angle : num)
| OMeanAnomaly (angle : num).

Definition heap := list object.

(** What a call can hand back to its caller. *)
Inductive value : Type :=
| VUndefined
| VNumber (n : num)
| VBoolean (b : bool)
| VPoint (p : Point)
| VObject (l : loc).

Inductive error : Type :=
| TypeError (message : string).

Inductive completion (A : Type) : Type :=
| Normal (a : A)
| Throw (e : error).

Arguments Normal {A} a.
Arguments Throw {A} e.

(** A computation: from a store to a completion and the store it leaves. *)
Definition Comp (A : Type) : Type := heap -> completion A * heap.

Definition ret {A} (a : A) : Comp A := fun h => (Normal a, h).

Definition bind {A B} (c : Comp A) (k : A -> Comp B) : Comp B :=
  fun h =>
    match c h with
    | (Normal a, h') => k a h'
    | (Throw e, h') => (Throw e, h')
    end.

Definition throw {A} (e : error) : Comp A := fun h => (Throw e, h).

(** [new C(..)]: the object is placed at the first unused address. *)
Definition new (o : object) : Comp loc := fun h => (Normal (length h), h ++ [o]).

Definition read (l : loc) : Comp object :=
  fun h =>
    match nth_error h l with
    | Some o => (Normal o, h)
    | None => (Throw (TypeError "not an object"%string), h)
    end.

Fixpoint update (h : heap) (l : loc) (o : object) : heap :=
  match h, l with
  | [], _ => []
  | _ :: t, O => o :: t
  | a :: t, S l' => a :: update t l' o
  end.

Definition write (l : loc) (o : object) : Comp unit :=
  fun h =>
    match nth_error h l with
    | Some _ => (Normal tt, update h l o)
    | None => (Throw (TypeError "not an object"%string), h)
    end.

(** Reading a field of [orbit].  The methods document their parameter
    as a [KeplerianOrbit]; a reference that does not lead to one is outside
    that domain and stops the computation. *)
Definition orbit_of (l : loc) : Comp orbit_fields :=
  bind (read l) (fun o =>
    match o with
    | OKeplerianOrbit f => ret f
    | _ => throw (TypeError "not a KeplerianOrbit"%string)
    end).

(** A default parameter value: used when the argument is left out. *)
Definition default {A} (d : A) (arg : option A) : A :=
  match arg with
  | Some a => a
  | None => d
  end.

(** [recv.name]: the property [name] of the receiver, looked up among the
    members its class declares.  A name that is not there reads as
    [undefined], written [None]. *)
Definition property {A} (members : list (string * A)) (name : string) : option A :=
  match find (fun m => String.eqb (fst m) name) members with
  | Some m => Some (snd m)
  | None => None
  end.

(** [f(arg)] with [this] bound to the receiver: calling [undefined] throws
    a [TypeError]. *)
Definition call {A} (f : option (loc -> loc -> Comp A)) (this arg : loc) : Comp A :=
  match f with
  | Some method => method this arg
  | None => throw (TypeError "not a function"%string)
  end.

End Store.

Arguments orbit_fields : clear implicits.
Arguments Point : clear implicits.
Arguments object : clear implicits.
Arguments heap : clear implicits.
Arguments value : clear implicits.
Arguments Comp : clear implicits.
Arguments Normal {A} a.
Arguments Throw {A} e.

Notation "v <- c ;; k" := (bind c (fun v => k))
  (at level 61, c at next level, right associativity).

(** ** [class KeplerianOrbit] *)

Module KeplerianOrbit.
Section Methods.

Context {num : Type} {N : Number num}.
Local Open Scope js_scope.

(** [constructor(semimajor_axis, eccentricity = 0.0,
    argument_of_periapsis = 0, clockwise = false)] *)
Definition constructor (semimajor_axis : num) (eccentricity : option num)
    (argument_of_periapsis : option num) (clockwise : option bool) : Comp num loc :=
  new (OKeplerianOrbit
         {| semimajor_axis := Math_abs semimajor_axis;
            eccentricity := Math_abs (default lit_0 eccentricity);
            argument_of_periapsis := default lit_0 argument_of_periapsis;
            clockwise := default false clockwise |}).

(** [b = a * sqrt(1 - e^2)] *)
Definition semiminor_axis (this : loc) : Comp num num :=
  o <- orbit_of this ;;
  ret (o.(semimajor_axis) *
       Math_sqrt (lit_1 - o.(eccentricity) * o.(eccentricity))).

(** [f = e * a] *)
Definition focal_point (this : loc) : Comp num num :=
  o <- orbit_of this ;;
  ret (o.(eccentricity) * o.(semimajor_axis)).

(** [periapsis = a * (1 - e)] *)
Definition periapsis (this : loc) : Comp num num :=
  o <- orbit_of this ;;
  ret ((lit_1 - o.(eccentricity)) * o.(semimajor_axis)).

(** [apoapsis = a * (1 + e)] *)
Definition apoapsis (this : loc) : Comp num num :=
  o <- orbit_of this ;;
  ret ((lit_1 + o.(eccentricity)) * o.(semimajor_axis)).

(** [rotate_point({ x, y })]: from mathematical into local coordinates. *)
Definition rotate_point (this : loc) (p : Point num) : Comp num (Point num) :=
  o <- orbit_of this ;;
  let x := p.(x) in
  let y := p.(y) in
  let y := if o.(clockwise) then - y else y in
  let cos := Math_cos o.(argument_of_periapsis) in
  let sin := Math_sin o.(argument_of_periapsis) in
  ret {| x := x * cos + y * sin;
         y := y * cos - x * sin |}.

Definition is_clockwise (this : loc) : Comp num bool :=
  o <- orbit_of this ;;
  ret o.(clockwise).

End Methods.
End KeplerianOrbit.

(** ** [class EccentricAnomaly] *)

Module EccentricAnomaly.
Section Methods.

Context {num : Type} {N : Number num}.
Local Open Scope js_scope.

(** [constructor(angle = 0)] *)
Definition constructor (angle : option num) : Comp num loc :=
  new (OEccentricAnomaly (default lit_0 angle)).

(** [this.angle] and [this.angle = a].  A method is called on an
    instance of its class: [this.point(..)] and the like below are the
    methods of this class. *)
Definition this_angle (this : loc) : Comp num num :=
  ob <- read this ;;
  match ob with
  | OEccentricAnomaly angle => ret angle
  | _ => throw (TypeError "not an EccentricAnomaly"%string)
  end.

Definition set_this_angle (this : loc) (a : num) : Comp num unit :=
  _ <- this_angle this ;;
  write this (OEccentricAnomaly a).

Definition set_degrees (this : loc) (angle : num) : Comp num loc :=
  _ <- set_this_angle this (angle * (Math_PI / lit_180)) ;;
  ret this.

Definition get_degrees (this : loc) : Comp num num :=
  angle <- this_angle this ;;
  ret (angle * (lit_180 / Math_PI)).

(** [p = (a * cos(E) - f, b * sin(E))] *)
Definition point (this orbit : loc) : Comp num (Point num) :=
  angle <- this_angle this ;;
  o <- orbit_of orbit ;;
  f <- KeplerianOrbit.focal_point orbit ;;
  b <- KeplerianOrbit.semiminor_axis orbit ;;
  ret {| x := Math_cos angle * o.(semimajor_axis) - f;
         y := Math_sin angle * b |}.

Definition point2d (this orbit : loc) : Comp num (Point num) :=
  p <- point this orbit ;;
  KeplerianOrbit.rotate_point orbit p.

(** The members of the class that take an orbit and give a point.  The
    class body declares [constructor], [set_degrees], [get_degrees],
    [radius], [point], [point2d], [true_anomaly] and [mean_anomaly], and an
    instance has the one field [angle]. *)
Definition point_members : list (string * (loc -> loc -> Comp num (Point num))) :=
  [("point"%string, point); ("point2d"%string, point2d)].

(** [r = len( p )]: the method asks for [this.position(orbit)]. *)
Definition radius (this orbit : loc) : Comp num num :=
  p <- call (property point_members "position") this orbit ;;
  let x := p.(x) in
  let y := p.(y) in
  ret (Math_sqrt (x * x + y * y)).

(** [theta = atan2( p )] *)
Definition true_anomaly (this orbit : loc) : Comp num loc :=
  p <- point this orbit ;;
  let angle := Math_atan2 p.(y) p.(x) in
  new (OTrueAnomaly angle).

(** Kepler's equation: [M = E - e * sin(E)] *)
Definition mean_anomaly (this orbit : loc) : Comp num loc :=
  angle <- this_angle this ;;
  o <- orbit_of orbit ;;
  new (OMeanAnomaly (angle - o.(eccentricity) * Math_sin angle)).

End Methods.
End EccentricAnomaly.

(** ** [class TrueAnomaly] *)

Module TrueAnomaly.
Section Methods.

Context {num : Type} {N : Number num}.
Local Open Scope js_scope.

(** [constructor(angle = 0)] *)
Definition constructor (angle : option num) : Comp num loc :=
  new (OTrueAnomaly (default lit_0 angle)).

(** [this.angle] and [this.angle = a].  A method is called on an
    instance of its class: [this.point(..)] and the like below are the
    methods of this class. *)
Definition this_angle (this : loc) : Comp num num :=
  ob <- read this ;;
  match ob with
  | OTrueAnomaly angle => ret angle
  | _ => throw (TypeError "not a TrueAnomaly"%string)
  end.

Definition set_this_angle (this : loc) (a : num) : Comp num unit :=
  _ <- this_angle this ;;
  write this (OTrueAnomaly a).

Definition set_degrees (this : loc) (angle : num) : Comp num loc :=
  _ <- set_this_angle this (angle * (Math_PI / lit_180)) ;;
  ret this.

Definition get_degrees (this : loc) : Comp num num :=
  angle <- this_angle this ;;
  ret (angle * (lit_180 / Math_PI)).

(** [r = a * (1 - e ^ 2) / (1 + e * cos(theta))] *)
Definition radius (this orbit : loc) : Comp num num :=
  o <- orbit_of orbit ;;
  angle <- this_angle this ;;
  ret ((o.(semimajor_axis) *
          (lit_1 - o.(eccentricity) * o.(eccentricity))) /
       (lit_1 + o.(eccentricity) * Math_cos angle)).

(** The point in mathematical space: the argument of periapsis is added
    to the angle. *)
Definition point (this orbit : loc) : Comp num (Point num) :=
  radius <- radius this orbit ;;
  this_angle <- this_angle this ;;
  o <- orbit_of orbit ;;
  let angle := this_angle + o.(argument_of_periapsis) in
  ret {| x := Math_cos angle * radius;
         y := Math_sin angle * radius |}.

Definition point2d (this orbit : loc) : Comp num (Point num) :=
  p <- point this orbit ;;
  KeplerianOrbit.rotate_point orbit p.

(** [atan2( (point(theta) + (f, 0)) / (a, b) )] *)
Definition eccentric_anomaly (this orbit : loc) : Comp num loc :=
  p <- point this orbit ;;
  b <- KeplerianOrbit.semiminor_axis orbit ;;
  f <- KeplerianOrbit.focal_point orbit ;;
  o <- orbit_of orbit ;;
  let angle := Math_atan2 (p.(y) / b) ((p.(x) + f) / o.(semimajor_axis)) in
  new (OEccentricAnomaly angle).

Definition mean_anomaly (this orbit : loc) : Comp num loc :=
  E <- eccentric_anomaly this orbit ;;
  EccentricAnomaly.mean_anomaly E orbit.

End Methods.
End TrueAnomaly.

(** ** [class MeanAnomaly] *)

Module MeanAnomaly.
Section Methods.

Context {num : Type} {N : Number num}.
Local Open Scope js_scope.

(** [constructor(angle = 0)] *)
Definition constructor (angle : option num) : Comp num loc :=
  new (OMeanAnomaly (default lit_0 angle)).

(** [this.angle] and [this.angle = a].  A method is called on an
    instance of its class: [this.point(..)] and the like below are the
    methods of this class. *)
Definition this_angle (this : loc) : Comp num num :=
  ob <- read this ;;
  match ob with
  | OMeanAnomaly angle => ret angle
  | _ => throw (TypeError "not a MeanAnomaly"%string)
  end.

Definition set_this_angle (this : loc) (a : num) : Comp num unit :=
  _ <- this_angle this ;;
  write this (OMeanAnomaly a).

Definition set_degrees (this : loc) (angle : num) : Comp num loc :=
  _ <- set_this_angle this (angle * (Math_PI / lit_180)) ;;
  ret this.

Definition get_degrees (this : loc) : Comp num num :=
  angle <- this_angle this ;;
  ret (angle * (lit_180 / Math_PI)).

(** [const clamp = (x, min, max) => Math.min(Math.max(x, min), max)] *)
Definition clamp (x min max : num) : num := Math_min (Math_max x min) max.

(** The passes of [for (let i = 0; i < 10; i++)] that are still to run,
    [n] of them, and the [return] after the loop. *)
Fixpoint eccentric_anomaly_loop (n : nat) (this orbit : loc)
    (tolerance eccentric_anomaly : num) : Comp num loc :=
  match n with
  | O => new (OEccentricAnomaly eccentric_anomaly)
  | S n' =>
      o <- orbit_of orbit ;;
      this_angle <- this_angle this ;;
      let f :=
        eccentric_anomaly -
        o.(eccentricity) * Math_sin eccentric_anomaly -
        this_angle in
      let eccentric_anomaly :=
        eccentric_anomaly -
        clamp (f / (lit_1 - o.(eccentricity) * Math_cos eccentric_anomaly))
              (- o.(eccentricity) / lit_2)
              (o.(eccentricity) / lit_2) in
      if Math_abs f <? tolerance
      then new (OEccentricAnomaly eccentric_anomaly)
      else eccentric_anomaly_loop n' this orbit tolerance eccentric_anomaly
  end.

(** Newton's method on Kepler's equation. *)
Definition eccentric_anomaly (this orbit : loc) : Comp num loc :=
  let tolerance := lit_0_00001 * (Math_PI / lit_180) in
  eccentric_anomaly <- this_angle this ;;
  eccentric_anomaly_loop 10 this orbit tolerance eccentric_anomaly.

Definition true_anomaly (this orbit : loc) : Comp num loc :=
  E <- eccentric_anomaly this orbit ;;
  EccentricAnomaly.true_anomaly E orbit.

(** The body is an expression statement: the radius is computed and there
    is no [return], so the call gives [undefined]. *)
Definition radius_at_mean_anomaly (this orbit : loc) : Comp num (value num) :=
  nu <- true_anomaly this orbit ;;
  _ <- TrueAnomaly.radius nu orbit ;;
  ret VUndefined.

Definition point (this orbit : loc) : Comp num (Point num) :=
  E <- eccentric_anomaly this orbit ;;
  EccentricAnomaly.point E orbit.

Definition point2d (this orbit : loc) : Comp num (Point num) :=
  E <- eccentric_anomaly this orbit ;;
  EccentricAnomaly.point2d E orbit.

End Methods.
End MeanAnomaly.

(** ** Two arithmetics *)

Section Arithmetics.

(** *** IEEE binary64

    The operators and [Math.abs], [Math.sqrt], [Math.min], [Math.max] are
    fixed by the language; [Math.sin], [Math.cos] and [Math.atan2] are left
    to the engine, which the instance takes as a parameter. *)

Record MathLibrary : Type := {
  lib_sin : float -> float;
  lib_cos : float -> float;
  lib_atan2 : float -> float -> float
}.

(** [Math.min]: [NaN] if an argument is, and [-0] counts as less than
    [+0]. *)
Definition float_min (a b : float) : float :=
  if (PrimFloat.is_nan a || PrimFloat.is_nan b)%bool then PrimFloat.nan
  else if PrimFloat.ltb a b then a
  else if PrimFloat.ltb b a then b
  else if PrimFloat.get_sign a then a else b.

Definition float_max (a b : float) : float :=
  if (PrimFloat.is_nan a || PrimFloat.is_nan b)%bool then PrimFloat.nan
  else if PrimFloat.ltb a b then b
  else if PrimFloat.ltb b a then a
  else if PrimFloat.get_sign a then b else a.

Definition binary64 (m : MathLibrary) : Number float := {|
  add := PrimFloat.add;
  sub := PrimFloat.sub;
  mul := PrimFloat.mul;
  div := PrimFloat.div;
  neg := PrimFloat.opp;
  lt := PrimFloat.ltb;
  lit_0 := 0%float;
  lit_1 := 1%float;
  lit_2 := 2%float;
  lit_180 := 180%float;
  lit_0_00001 := (0x1.4f8b588e368f1p-17)%float;
  Math_PI := (0x1.921fb54442d18p+1)%float;
  Math_abs := PrimFloat.abs;
  Math_sqrt := PrimFloat.sqrt;
  Math_sin := m.(lib_sin);
  Math_cos := m.(lib_cos);
  Math_atan2 := m.(lib_atan2);
  Math_min := float_min;
  Math_max := float_max
|}.

(** *** Real numbers

    Exact arithmetic: no rounding, no [NaN], no infinity.  Where binary64
    would give one of those (a division by zero, the square root of a
    negative number) the value below means nothing, and the results that
    follow keep away from it by their hypotheses. *)

Local Open Scope R_scope.

Definition Rltb (a b : R) : bool := if Rlt_dec a b then true else false.

(** [Math.atan2(y, x)]: the angle of the point [(x, y)], in [(-PI, PI]];
    [0] at the origin. *)
Definition Ratan2 (y x : R) : R :=
  if Rlt_dec 0 x then atan (y / x)
  else if Rlt_dec x 0 then
    if Rle_dec 0 y then atan (y / x) + PI else atan (y / x) - PI
  else if Rlt_dec 0 y then PI / 2
  else if Rlt_dec y 0 then - (PI / 2)
  else 0.

Definition real : Number R := {|
  add := Rplus;
  sub := Rminus;
  mul := Rmult;
  div := Rdiv;
  neg := Ropp;
  lt := Rltb;
  lit_0 := 0;
  lit_1 := 1;
  lit_2 := 2;
  lit_180 := 180;
  lit_0_00001 := 0.00001;
  Math_PI := PI;
  Math_abs := Rabs;
  Math_sqrt := sqrt;
  Math_sin := sin;
  Math_cos := cos;
  Math_atan2 := Ratan2;
  Math_min := Rmin;
  Math_max := Rmax
|}.

End Arithmetics.

#[global] Existing Instance real.


(** ** The vocabulary of the contracts *)

Section Vocabulary.

Context {num : Type} {N : Number num}.
Local Open Scope js_scope.


(** The rotation [rotate_point] applies, [y] already negated or not. *)
Definition rotated (omega : num) (p : Point num) : Point num :=
  {| x := p.(x) * Math_cos omega + p.(y) * Math_sin omega;
     y := p.(y) * Math_cos omega - p.(x) * Math_sin omega |}.

(** *** Newton's iteration, as a sequence *)

(** [0.00001] degrees, in radians. *)
Definition tolerance : num := lit_0_00001 * (Math_PI / lit_180).

(** The residual [f(E) = E - e sin E - M] of Kepler's equation and its
    derivative [1 - e cos E]. *)
Definition residual (e M E : num) : num := E - e * Math_sin E - M.

Definition derivative (e E : num) : num := lit_1 - e * Math_cos E.

(** One Newton step, the raw step [f(E) / f'(E)] clamped to
    [[-e/2, e/2]]. *)
Definition newton_step (e M E : num) : num :=
  E - Math_min (Math_max (residual e M E / derivative e E) (- e / lit_2))
               (e / lit_2).

(** [E_0 = E], [E_(k+1) = newton_step E_k]. *)
Fixpoint iterate (e M E : num) (k : nat) : num :=
  match k with
  | O => E
  | S k' => iterate e M (newton_step e M E) k'
  end.

(** The test a pass ends with: the residual it computed, at [E_k] that
    is, is below the tolerance. *)
Definition converged (e M E : num) (k : nat) : bool :=
  Math_abs (residual e M (iterate e M E k)) <? tolerance.

(** How many passes a budget of [n] runs from [E]. *)
Fixpoint passes (e M E : num) (n : nat) : nat :=
  match n with
  | O => O
  | S n' =>
      if Math_abs (residual e M E) <? tolerance then 1
      else S (passes e M (newton_step e M E) n')
  end.

(** *** The formulas the methods evaluate *)

Definition semiminor (o : orbit_fields num) : num :=
  o.(semimajor_axis) * Math_sqrt (lit_1 - o.(eccentricity) * o.(eccentricity)).

Definition focal (o : orbit_fields num) : num :=
  o.(eccentricity) * o.(semimajor_axis).

Definition eccentric_point (o : orbit_fields num) (E : num) : Point num :=
  {| x := Math_cos E * o.(semimajor_axis) - focal o;
     y := Math_sin E * semiminor o |}.

Definition true_radius (o : orbit_fields num) (nu : num) : num :=
  (o.(semimajor_axis) * (lit_1 - o.(eccentricity) * o.(eccentricity))) /
  (lit_1 + o.(eccentricity) * Math_cos nu).

Definition true_point (o : orbit_fields num) (nu : num) : Point num :=
  {| x := Math_cos (nu + o.(argument_of_periapsis)) * true_radius o nu;
     y := Math_sin (nu + o.(argument_of_periapsis)) * true_radius o nu |}.

Definition eccentric_to_true (o : orbit_fields num) (E : num) : num :=
  Math_atan2 (eccentric_point o E).(y) (eccentric_point o E).(x).

Definition eccentric_to_mean (o : orbit_fields num) (E : num) : num :=
  E - o.(eccentricity) * Math_sin E.

Definition true_to_eccentric (o : orbit_fields num) (nu : num) : num :=
  Math_atan2 ((true_point o nu).(y) / semiminor o)
             (((true_point o nu).(x) + focal o) / o.(semimajor_axis)).

Definition mean_to_eccentric (o : orbit_fields num) (M : num) : num :=
  iterate o.(eccentricity) M M (passes o.(eccentricity) M M 10).

(** *** What a computation leaves in the store *)

(** The store only grew: every object that was there is still there, as
    it was. *)
Definition extends (h h' : heap num) : Prop := exists ext, h' = h ++ ext.

(** A computation that assigns to no object. *)
Definition frame {A} (c : Comp num A) : Prop :=
  forall h : heap num, extends h (snd (c h)).

(** A computation whose result, if it gives one, is an object made
    during the computation. *)
Definition fresh (c : Comp num loc) : Prop :=
  forall (h : heap num) (l : loc),
    fst (c h) = Normal l -> (length h <= l < length (snd (c h)))%nat.

(** *** The conversion and geometry operations, as one family *)

(** The accessors of an orbit and, per class of anomaly, its geometry
    and its conversions. *)
Inductive operation : Type :=
| Orbit_semiminor_axis
| Orbit_focal_point
| Orbit_periapsis
| Orbit_apoapsis
| Orbit_rotate_point (p : Point num)
| Orbit_is_clockwise
| True_radius
| True_point
| True_point2d
| True_eccentric_anomaly
| True_mean_anomaly
| Eccentric_radius
| Eccentric_point
| Eccentric_point2d
| Eccentric_true_anomaly
| Eccentric_mean_anomaly
| Mean_radius_at_mean_anomaly
| Mean_point
| Mean_point2d
| Mean_true_anomaly
| Mean_eccentric_anomaly.

Definition number (c : Comp num num) : Comp num (value num) :=
  n <- c ;; ret (VNumber n).

Definition a_point (c : Comp num (Point num)) : Comp num (value num) :=
  p <- c ;; ret (VPoint p).

Definition an_object (c : Comp num loc) : Comp num (value num) :=
  l <- c ;; ret (VObject l).

(** [perform op this orbit]: the call [orbit.op(..)] of an accessor, the
    call [this.op(orbit)] of a method of an anomaly. *)
Definition perform (op : operation) (this orbit : loc) : Comp num (value num) :=
  match op with
  | Orbit_semiminor_axis => number (KeplerianOrbit.semiminor_axis orbit)
  | Orbit_focal_point => number (KeplerianOrbit.focal_point orbit)
  | Orbit_periapsis => number (KeplerianOrbit.periapsis orbit)
  | Orbit_apoapsis => number (KeplerianOrbit.apoapsis orbit)
  | Orbit_rotate_point p => a_point (KeplerianOrbit.rotate_point orbit p)
  | Orbit_is_clockwise =>
      b <- KeplerianOrbit.is_clockwise orbit ;; ret (VBoolean b)
  | True_radius => number (TrueAnomaly.radius this orbit)
  | True_point => a_point (TrueAnomaly.point this orbit)
  | True_point2d => a_point (TrueAnomaly.point2d this orbit)
  | True_eccentric_anomaly => an_object (TrueAnomaly.eccentric_anomaly this orbit)
  | True_mean_anomaly => an_object (TrueAnomaly.mean_anomaly this orbit)
  | Eccentric_radius => number (EccentricAnomaly.radius this orbit)
  | Eccentric_point => a_point (EccentricAnomaly.point this orbit)
  | Eccentric_point2d => a_point (EccentricAnomaly.point2d this orbit)
  | Eccentric_true_anomaly => an_object (EccentricAnomaly.true_anomaly this orbit)
  | Eccentric_mean_anomaly => an_object (EccentricAnomaly.mean_anomaly this orbit)
  | Mean_radius_at_mean_anomaly => MeanAnomaly.radius_at_mean_anomaly this orbit
  | Mean_point => a_point (MeanAnomaly.point this orbit)
  | Mean_point2d => a_point (MeanAnomaly.point2d this orbit)
  | Mean_true_anomaly => an_object (MeanAnomaly.true_anomaly this orbit)
  | Mean_eccentric_anomaly => an_object (MeanAnomaly.eccentric_anomaly this orbit)
  end.

(** The operations that convert one anomaly into another. *)
Definition conversion (op : operation) : bool :=
  match op with
  | True_eccentric_anomaly | True_mean_anomaly
  | Eccentric_true_anomaly | Eccentric_mean_anomaly
  | Mean_true_anomaly | Mean_eccentric_anomaly => true
  | _ => false
  end.

(** The class of anomaly an operation is a method of. *)
Definition receiver (op : operation) (ob : object num) : bool :=
  match op, ob with
  | (True_radius | True_point | True_point2d | True_eccentric_anomaly
     | True_mean_anomaly), OTrueAnomaly _ => true
  | (Eccentric_radius | Eccentric_point | Eccentric_point2d
     | Eccentric_true_anomaly | Eccentric_mean_anomaly), OEccentricAnomaly _ => true
  | (Mean_radius_at_mean_anomaly | Mean_point | Mean_point2d
     | Mean_true_anomaly | Mean_eccentric_anomaly), OMeanAnomaly _ => true
  | _, _ => false
  end.

(** The class of anomaly a conversion makes. *)
Definition converts_to (op : operation) (ob : object num) : bool :=
  match op, ob with
  | (Eccentric_true_anomaly | Mean_true_anomaly), OTrueAnomaly _ => true
  | (True_eccentric_anomaly | Mean_eccentric_anomaly), OEccentricAnomaly _ => true
  | (True_mean_anomaly | Eccentric_mean_anomaly), OMeanAnomaly _ => true
  | _, _ => false
  end.

End Vocabulary.


(** ** The stores of the examples *)

Section Examples.

Local Open Scope R_scope.

(** An orbit at address 0 and the anomalies [obs] from address 1 on. *)
Definition example_orbit (a e w : R) : orbit_fields R :=
  {| semimajor_axis := a; eccentricity := e;
     argument_of_periapsis := w; clockwise := false |}.

Definition example_store (a e w : R) (obs : list (object R)) : heap R :=
  OKeplerianOrbit (example_orbit a e w) :: obs.

(** The orbit [a = 1], [e = 1/2], [w = 0] at address 0, and from address
    1 on: a true anomaly 1, an eccentric anomaly 1, the mean anomalies 0,
    [PI] and [0 + 2 PI], and the mean anomalies 1 and [- 1]. *)
Definition example_ellipse : orbit_fields R := example_orbit 1 (1 / 2) 0.

Definition example_heap : heap R :=
  example_store 1 (1 / 2) 0
    [OTrueAnomaly 1; OEccentricAnomaly 1; OMeanAnomaly 0; OMeanAnomaly PI;
     OMeanAnomaly (0 + 2 * INR 1 * PI); OMeanAnomaly 1; OMeanAnomaly (Ropp 1)].

(** The same orbit with a mean anomaly the solver has to work on. *)
Definition example_moving : heap R :=
  example_store 1 (1 / 2) 0 [OMeanAnomaly (1 / 2)].

(** An engine for the examples in binary64: the first-order
    approximations [sin x = x], [cos x = 1] and [atan2(y, x) = y / x].  It
    stands for no real engine; it shows that what the binary64 results
    assume of one can be met. *)
Definition first_order : MathLibrary :=
  {| lib_sin := fun t => t;
     lib_cos := fun _ => 1%float;
     lib_atan2 := fun v u => PrimFloat.div v u |}.

End Examples.

(** ** Calls on a receiver of any class *)

Section Dispatch.

Context {num : Type} {N : Number num}.
Local Open Scope js_scope.

(** The field [angle] of an anomaly; an orbit has none. *)
Definition angle_of (ob : object num) : option num :=
  match ob with
  | OKeplerianOrbit _ => None
  | OTrueAnomaly angle | OEccentricAnomaly angle | OMeanAnomaly angle => Some angle
  end.

(** The object after [ob.angle = a], for an anomaly [ob]. *)
Definition with_angle (ob : object num) (a : num) : object num :=
  match ob with
  | OKeplerianOrbit f => OKeplerianOrbit f
  | OTrueAnomaly _ => OTrueAnomaly a
  | OEccentricAnomaly _ => OEccentricAnomaly a
  | OMeanAnomaly _ => OMeanAnomaly a
  end.

(** [recv.set_degrees(angle)]: the method of the class of the receiver.
    [KeplerianOrbit] declares none. *)
Definition send_set_degrees (recv : loc) (angle : num) : Comp num loc :=
  ob <- read recv ;;
  match ob with
  | OTrueAnomaly _ => TrueAnomaly.set_degrees recv angle
  | OEccentricAnomaly _ => EccentricAnomaly.set_degrees recv angle
  | OMeanAnomaly _ => MeanAnomaly.set_degrees recv angle
  | OKeplerianOrbit _ => throw (TypeError "not a function"%string)
  end.

(** [recv.get_degrees()] *)
Definition send_get_degrees (recv : loc) : Comp num num :=
  ob <- read recv ;;
  match ob with
  | OTrueAnomaly _ => TrueAnomaly.get_degrees recv
  | OEccentricAnomaly _ => EccentricAnomaly.get_degrees recv
  | OMeanAnomaly _ => MeanAnomaly.get_degrees recv
  | OKeplerianOrbit _ => throw (TypeError "not a function"%string)
  end.

(** The distance of a point from the origin, the focus of the orbit. *)
Definition norm (p : Point num) : num :=
  Math_sqrt (p.(x) * p.(x) + p.(y) * p.(y)).

End Dispatch.

(** ** The loop that tests the residual of the updated angle *)

Section TestAfterUpdate.

Context {num : Type} {N : Number num}.
Local Open Scope js_scope.

(** Newton's iteration with the test made on the angle the pass has just
    computed: the residual is evaluated anew after the update, and the
    pass returns when that one is below the tolerance.  The loop of
    [MeanAnomaly.eccentric_anomaly] tests the residual it computed
    before the update instead. *)
Fixpoint updated_residual_loop (n : nat) (e M E : num) : num :=
  match n with
  | O => E
  | S n' =>
      let f := E - e * Math_sin E - M in
      let E :=
        E - MeanAnomaly.clamp (f / (lit_1 - e * Math_cos E))
              (- e / lit_2) (e / lit_2) in
      if Math_abs (E - e * Math_sin E - M) <? lit_0_00001 * (Math_PI / lit_180)
      then E
      else updated_residual_loop n' e M E
  end.

(** Started at [E_0 = M], with 10 passes at most. *)
Definition updated_residual_solver (e M : num) : num :=
  updated_residual_loop 10 e M M.

End TestAfterUpdate.

(** ** [class Object]: the scene graph *)

(** The other source file holds the drawing code: a [Canvas] bound to
    the page and the class [Object] of what is drawn, a tree whose nodes
    know their parent and their children.  The tree is embedded here:
    the constructor of [Object] and its methods [addChild], [removeChild],
    [setParent] and [removeParent], over a store of the instances of the
    class, with binary64 coordinates. *)

Module Scene.

(** A field that is tested for truth and may hold a number or a
    boolean. *)
Inductive flag : Type :=
| FNumber (n : float)
| FBoolean (b : bool).

(** The fields of an instance.  [parent] is an object or one of [null]
    and [undefined], which the class tells apart nowhere: [None]. *)
Record Object : Type := {
  x : float;
  y : float;
  rotation : float;
  propagateRotation : flag;
  children : list loc;
  parent : option loc
}.

(** The argument [data] of the constructor; a property may be absent. *)
Record Data : Type := {
  data_x : option float;
  data_y : option float;
  data_rotation : option float;
  data_propagateRotation : option flag;
  data_parent : option loc
}.

Definition scene : Type := list Object.

Definition Run (A : Type) : Type := scene -> completion A * scene.

Definition ret {A} (a : A) : Run A := fun s => (Normal a, s).

Definition bind {A B} (c : Run A) (k : A -> Run B) : Run B :=
  fun s =>
    match c s with
    | (Normal a, s') => k a s'
    | (Throw e, s') => (Throw e, s')
    end.

Declare Scope scene_scope.
Delimit Scope scene_scope with scene.
Notation "v <- c ;; k" := (bind c (fun v => k))
  (at level 61, c at next level, right associativity) : scene_scope.
Local Open Scope scene_scope.

(** [new Object(..)]: the instance is placed at the first unused
    address. *)
Definition alloc (o : Object) : Run loc :=
  fun s => (Normal (length s), s ++ [o]).

(** Reading the fields of [l]; what is not an object has none. *)
Definition get (l : loc) : Run Object :=
  fun s =>
    match nth_error s l with
    | Some o => (Normal o, s)
    | None => (Throw (TypeError "not an object"%string), s)
    end.

Fixpoint replace (s : scene) (l : loc) (o : Object) : scene :=
  match s, l with
  | [], _ => []
  | _ :: t, O => o :: t
  | a :: t, S l' => a :: replace t l' o
  end.

Definition put (l : loc) (o : Object) : Run unit :=
  fun s =>
    match nth_error s l with
    | Some _ => (Normal tt, replace s l o)
    | None => (Throw (TypeError "not an object"%string), s)
    end.

(** [l.children = cs] and [l.parent = p] *)
Definition set_children (l : loc) (cs : list loc) : Run unit :=
  o <- get l ;;
  put l {| x := o.(x); y := o.(y); rotation := o.(rotation);
           propagateRotation := o.(propagateRotation);
           children := cs; parent := o.(parent) |}.

Definition set_parent (l : loc) (p : option loc) : Run unit :=
  o <- get l ;;
  put l {| x := o.(x); y := o.(y); rotation := o.(rotation);
           propagateRotation := o.(propagateRotation);
           children := o.(children); parent := p |}.

(** Truth of a number: all but the zeros and [NaN]. *)
Definition truthy (n : float) : bool :=
  negb (PrimFloat.is_zero n || PrimFloat.is_nan n).

(** [v || 0.0] *)
Definition or_zero (v : option float) : float :=
  match v with
  | Some n => if truthy n then n else 0%float
  | None => 0%float
  end.

Definition flag_or_zero (v : option flag) : flag :=
  match v with
  | Some (FNumber n) => if truthy n then FNumber n else FNumber 0%float
  | Some (FBoolean true) => FBoolean true
  | Some (FBoolean false) | None => FNumber 0%float
  end.

(** [removeChild(child)]: the parameter of the arrow function given to
    [filter] is named [child] too, and [child !== child] compares it with
    itself. *)
Definition removeChild (this child : loc) : Run unit :=
  o <- get this ;;
  _ <- set_children this
         (filter (fun child => negb (Nat.eqb child child)) o.(children)) ;;
  set_parent child None.

Definition removeParent (this : loc) : Run unit :=
  o <- get this ;;
  match o.(parent) with
  | Some p => removeChild p this
  | None => set_parent this None
  end.

Definition addChild (this child : loc) : Run unit :=
  _ <- removeParent child ;;
  o <- get this ;;
  _ <- set_children this (o.(children) ++ [child]) ;;
  set_parent child (Some this).

Definition setParent (this : loc) (parent : option loc) : Run unit :=
  match parent with
  | Some p => addChild p this
  | None => set_parent this None
  end.

(** [constructor(data = { x: 0.0, y: 0.0, rotation: 0.0, parent: null })];
    [data?.x] reads nothing from a [null]. *)
Definition constructor (data : option Data) : Run loc :=
  let data :=
    default {| data_x := Some 0%float; data_y := Some 0%float;
               data_rotation := Some 0%float;
               data_propagateRotation := None; data_parent := None |} data in
  this <- alloc {| x := or_zero data.(data_x);
                   y := or_zero data.(data_y);
                   rotation := or_zero data.(data_rotation);
                   propagateRotation :=
                     flag_or_zero data.(data_propagateRotation);
                   children := [];
                   parent := None |} ;;
  _ <- setParent this data.(data_parent) ;;
  ret this.

(** *** What is observed of a scene *)

Definition children_of (s : scene) (l : loc) : list loc :=
  match nth_error s l with
  | Some o => o.(children)
  | None => []
  end.

Definition parent_of (s : scene) (l : loc) : option loc :=
  match nth_error s l with
  | Some o => o.(parent)
  | None => None
  end.

(** Whether the parent of [c] is [p]. *)
Definition has_parent (s : scene) (c p : loc) : bool :=
  match parent_of s c with
  | Some q => Nat.eqb q p
  | None => false
  end.

(** Where an object is drawn: the fields the tree methods leave alone. *)
Definition placement (s : scene) (l : loc) : option (float * float * float * flag) :=
  match nth_error s l with
  | Some o => Some (o.(x), o.(y), o.(rotation), o.(propagateRotation))
  | None => None
  end.

(** Every object listed among the children of [p] has [p] as its
    parent. *)
Definition children_know_parent (s : scene) : Prop :=
  forall p c, In c (children_of s p) -> parent_of s c = Some p.

(** Every object whose parent is [p] is listed among the children of
    [p]. *)
Definition parents_list_children (s : scene) : Prop :=
  forall p c, parent_of s c = Some p -> In c (children_of s p).

End Scene.

(** The scene of the examples: a root at address 0 with the two children
    at addresses 1 and 2, all at the origin. *)
Definition example_node (cs : list loc) (p : option loc) : Scene.Object :=
  {| Scene.x := 0%float; Scene.y := 0%float; Scene.rotation := 0%float;
     Scene.propagateRotation := Scene.FNumber 0%float;
     Scene.children := cs; Scene.parent := p |}.

Definition example_scene : Scene.scene :=
  [example_node [1; 2] None; example_node [] (Some 0); example_node [] (Some 0)].

(** ** Running computations *)

Create HintDb run discriminated.

Section Running.

Context {num : Type} {N : Number num}.
Local Open Scope js_scope.

Implicit Types (h : heap num) (l this orbit : loc) (o : orbit_fields num).

Lemma bind_normal A B (c : Comp num A) (k : A -> Comp num B) h a h' :
  c h = (Normal a, h') -> bind c k h = k a h'.
Proof. intros E. unfold bind. now rewrite E. Qed.

Lemma bind_throw A B (c : Comp num A) (k : A -> Comp num B) h e h' :
  c h = (Throw e, h') -> bind c k h = (Throw e, h').
Proof. intros E. unfold bind. now rewrite E. Qed.

Lemma lookup_new h (ob : object num) :
  nth_error (h ++ [ob]) (length h) = Some ob.
Proof. rewrite nth_error_app2, Nat.sub_diag by lia. reflexivity. Qed.

Lemma lookup_second h (ob1 ob2 : object num) :
  nth_error (h ++ [ob1; ob2]) (S (length h)) = Some ob2.
Proof.
  rewrite nth_error_app2 by lia.
  replace (S (length h) - length h)%nat with 1%nat by lia. reflexivity.
Qed.

Lemma lookup_extend h (ext : heap num) l (ob : object num) :
  nth_error h l = Some ob -> nth_error (h ++ ext) l = Some ob.
Proof.
  intros E. rewrite nth_error_app1; [exact E|].
  apply nth_error_Some. congruence.
Qed.

Lemma orbit_of_run h l o :
  nth_error h l = Some (OKeplerianOrbit o) -> orbit_of l h = (Normal o, h).
Proof. intros E. unfold orbit_of, bind, read. now rewrite E. Qed.

Lemma true_angle_run h l (a : num) :
  nth_error h l = Some (OTrueAnomaly a) ->
  TrueAnomaly.this_angle l h = (Normal a, h).
Proof. intros E. unfold TrueAnomaly.this_angle, bind, read. now rewrite E. Qed.

Lemma eccentric_angle_run h l (a : num) :
  nth_error h l = Some (OEccentricAnomaly a) ->
  EccentricAnomaly.this_angle l h = (Normal a, h).
Proof. intros E. unfold EccentricAnomaly.this_angle, bind, read. now rewrite E. Qed.

Lemma mean_angle_run h l (a : num) :
  nth_error h l = Some (OMeanAnomaly a) ->
  MeanAnomaly.this_angle l h = (Normal a, h).
Proof. intros E. unfold MeanAnomaly.this_angle, bind, read. now rewrite E. Qed.

End Running.

#[global] Hint Resolve orbit_of_run true_angle_run eccentric_angle_run
  mean_angle_run lookup_new lookup_extend : run.

(** One step of a computation whose first action is known to complete. *)
Ltac step := erewrite bind_normal by eauto with run.

(** ** The accessors of an orbit *)

Section Accessors.

Context {num : Type} {N : Number num}.
Local Open Scope js_scope.

Implicit Types (h : heap num) (l this orbit : loc) (o : orbit_fields num).

Lemma semiminor_axis_run h l o :
  nth_error h l = Some (OKeplerianOrbit o) ->
  KeplerianOrbit.semiminor_axis l h =
  (Normal (o.(semimajor_axis) *
           Math_sqrt (lit_1 - o.(eccentricity) * o.(eccentricity))), h).
Proof.
  intros E. unfold KeplerianOrbit.semiminor_axis.
  now step.
Qed.

Lemma focal_point_run h l o :
  nth_error h l = Some (OKeplerianOrbit o) ->
  KeplerianOrbit.focal_point l h =
  (Normal (o.(eccentricity) * o.(semimajor_axis)), h).
Proof.
  intros E. unfold KeplerianOrbit.focal_point.
  now step.
Qed.

Lemma periapsis_run h l o :
  nth_error h l = Some (OKeplerianOrbit o) ->
  KeplerianOrbit.periapsis l h =
  (Normal ((lit_1 - o.(eccentricity)) * o.(semimajor_axis)), h).
Proof.
  intros E. unfold KeplerianOrbit.periapsis.
  now step.
Qed.

Lemma apoapsis_run h l o :
  nth_error h l = Some (OKeplerianOrbit o) ->
  KeplerianOrbit.apoapsis l h =
  (Normal ((lit_1 + o.(eccentricity)) * o.(semimajor_axis)), h).
Proof.
  intros E. unfold KeplerianOrbit.apoapsis.
  now step.
Qed.

Lemma rotate_point_run h l o (p : Point num) :
  nth_error h l = Some (OKeplerianOrbit o) ->
  KeplerianOrbit.rotate_point l p h =
  (Normal (rotated o.(argument_of_periapsis)
             {| x := p.(x);
                y := if o.(clockwise) then - p.(y) else p.(y) |}), h).
Proof.
  intros E. unfold KeplerianOrbit.rotate_point.
  now step.
Qed.

End Accessors.

#[global] Hint Resolve semiminor_axis_run focal_point_run periapsis_run
  apoapsis_run rotate_point_run : run.

(** ** The passes of the Newton loop *)

Section Newton.

Context {num : Type} {N : Number num}.
Local Open Scope js_scope.

Lemma iterate_succ e M E k :
  iterate e M E (S k) = newton_step e M (iterate e M E k).
Proof.
  revert E. induction k as [|k IH]; intros E; [reflexivity|].
  change (iterate e M (newton_step e M E) (S k) =
          newton_step e M (iterate e M (newton_step e M E) k)).
  apply IH.
Qed.

Lemma passes_succ e M E n :
  passes e M E (S n) =
  if Math_abs (residual e M E) <? tolerance then 1
  else S (passes e M (newton_step e M E) n).
Proof. reflexivity. Qed.

Lemma passes_le e M E n : passes e M E n <= n.
Proof.
  revert E. induction n as [|n IH]; intros E; simpl; [lia|].
  destruct (Math_abs (residual e M E) <? tolerance); [lia|].
  specialize (IH (newton_step e M E)). lia.
Qed.

Lemma passes_pos e M E n : 0 < n -> 0 < passes e M E n.
Proof.
  destruct n as [|n]; [lia|]. intros _. simpl.
  destruct (Math_abs (residual e M E) <? tolerance); lia.
Qed.

(** No pass before the last one met the tolerance. *)
Lemma passes_before e M E n j :
  S j < passes e M E n -> converged e M E j = false.
Proof.
  revert E j. induction n as [|n IH]; intros E j; simpl; [lia|].
  destruct (Math_abs (residual e M E) <? tolerance) eqn:T; [lia|].
  intros H. destruct j as [|j]; [exact T|].
  unfold converged. simpl. apply IH. lia.
Qed.

(** The last pass met it, unless the budget ran out. *)
Lemma passes_last e M E n :
  passes e M E n < n -> converged e M E (pred (passes e M E n)) = true.
Proof.
  revert E. induction n as [|n IH]; intros E; simpl; [lia|].
  destruct (Math_abs (residual e M E) <? tolerance) eqn:T; [intros _; exact T|].
  intros H. specialize (IH (newton_step e M E)).
  pose proof (passes_pos e M (newton_step e M E) n) as P.
  destruct (passes e M (newton_step e M E) n) as [|k] eqn:K.
  - destruct n; [lia|]. specialize (P ltac:(lia)). lia.
  - simpl. unfold converged. simpl. apply IH. lia.
Qed.

Implicit Types (h : heap num) (l this orbit : loc) (o : orbit_fields num).

Lemma eccentric_anomaly_loop_run n h this orbit o (M E : num) :
  nth_error h orbit = Some (OKeplerianOrbit o) ->
  nth_error h this = Some (OMeanAnomaly M) ->
  MeanAnomaly.eccentric_anomaly_loop n this orbit tolerance E h =
  (Normal (length h),
   h ++ [OEccentricAnomaly
           (iterate o.(eccentricity) M E (passes o.(eccentricity) M E n))]).
Proof.
  intros Ho Ht. revert E.
  induction n as [|n IH]; intros E; [reflexivity|].
  cbn [MeanAnomaly.eccentric_anomaly_loop passes].
  do 2 step.
  fold (residual o.(eccentricity) M E).
  destruct (Math_abs (residual o.(eccentricity) M E) <? tolerance).
  - reflexivity.
  - apply IH.
Qed.

Lemma eccentric_anomaly_run h this orbit o (M : num) :
  nth_error h orbit = Some (OKeplerianOrbit o) ->
  nth_error h this = Some (OMeanAnomaly M) ->
  MeanAnomaly.eccentric_anomaly this orbit h =
  (Normal (length h),
   h ++ [OEccentricAnomaly
           (iterate o.(eccentricity) M M (passes o.(eccentricity) M M 10))]).
Proof.
  intros Ho Ht. unfold MeanAnomaly.eccentric_anomaly. step.
  now apply eccentric_anomaly_loop_run.
Qed.

End Newton.

#[global] Hint Resolve eccentric_anomaly_run : run.

(** ** The conversions and the geometry, run on typed objects *)

Section Conversions.

Context {num : Type} {N : Number num}.
Local Open Scope js_scope.

Implicit Types (h : heap num) (l this orbit : loc) (o : orbit_fields num).

Section OfAnEccentricAnomaly.

Variables (h : heap num) (this orbit : loc) (o : orbit_fields num) (E : num).
Hypothesis Horbit : nth_error h orbit = Some (OKeplerianOrbit o).
Hypothesis Hthis : nth_error h this = Some (OEccentricAnomaly E).

Lemma eccentric_point_run :
  EccentricAnomaly.point this orbit h = (Normal (eccentric_point o E), h).
Proof. unfold EccentricAnomaly.point. now do 4 step. Qed.

Lemma eccentric_point2d_run :
  EccentricAnomaly.point2d this orbit h =
  (Normal (rotated o.(argument_of_periapsis)
             {| x := (eccentric_point o E).(x);
                y := if o.(clockwise) then - (eccentric_point o E).(y)
                     else (eccentric_point o E).(y) |}), h).
Proof.
  unfold EccentricAnomaly.point2d.
  rewrite (bind_normal _ _ _ _ _ _ _ eccentric_point_run).
  now apply rotate_point_run.
Qed.

Lemma eccentric_true_anomaly_run :
  EccentricAnomaly.true_anomaly this orbit h =
  (Normal (length h), h ++ [OTrueAnomaly (eccentric_to_true o E)]).
Proof.
  unfold EccentricAnomaly.true_anomaly.
  now rewrite (bind_normal _ _ _ _ _ _ _ eccentric_point_run).
Qed.

Lemma eccentric_mean_anomaly_run :
  EccentricAnomaly.mean_anomaly this orbit h =
  (Normal (length h), h ++ [OMeanAnomaly (eccentric_to_mean o E)]).
Proof. unfold EccentricAnomaly.mean_anomaly. now do 2 step. Qed.

End OfAnEccentricAnomaly.

Section OfATrueAnomaly.

Variables (h : heap num) (this orbit : loc) (o : orbit_fields num) (nu : num).
Hypothesis Horbit : nth_error h orbit = Some (OKeplerianOrbit o).
Hypothesis Hthis : nth_error h this = Some (OTrueAnomaly nu).

Lemma true_radius_run :
  TrueAnomaly.radius this orbit h = (Normal (true_radius o nu), h).
Proof. unfold TrueAnomaly.radius. now do 2 step. Qed.

Lemma true_point_run :
  TrueAnomaly.point this orbit h = (Normal (true_point o nu), h).
Proof.
  unfold TrueAnomaly.point.
  rewrite (bind_normal _ _ _ _ _ _ _ true_radius_run).
  now do 2 step.
Qed.

Lemma true_point2d_run :
  TrueAnomaly.point2d this orbit h =
  (Normal (rotated o.(argument_of_periapsis)
             {| x := (true_point o nu).(x);
                y := if o.(clockwise) then - (true_point o nu).(y)
                     else (true_point o nu).(y) |}), h).
Proof.
  unfold TrueAnomaly.point2d.
  rewrite (bind_normal _ _ _ _ _ _ _ true_point_run).
  now apply rotate_point_run.
Qed.

Lemma true_eccentric_anomaly_run :
  TrueAnomaly.eccentric_anomaly this orbit h =
  (Normal (length h), h ++ [OEccentricAnomaly (true_to_eccentric o nu)]).
Proof.
  unfold TrueAnomaly.eccentric_anomaly.
  rewrite (bind_normal _ _ _ _ _ _ _ true_point_run).
  now do 3 step.
Qed.

(** The composed conversion allocates the intermediate anomaly too. *)
Lemma true_mean_anomaly_run :
  TrueAnomaly.mean_anomaly this orbit h =
  (Normal (S (length h)),
   h ++ [OEccentricAnomaly (true_to_eccentric o nu);
         OMeanAnomaly (eccentric_to_mean o (true_to_eccentric o nu))]).
Proof.
  unfold TrueAnomaly.mean_anomaly.
  rewrite (bind_normal _ _ _ _ _ _ _ true_eccentric_anomaly_run).
  erewrite eccentric_mean_anomaly_run by eauto with run.
  rewrite <- app_assoc, length_app, Nat.add_comm. reflexivity.
Qed.

End OfATrueAnomaly.

Section OfAMeanAnomaly.

Variables (h : heap num) (this orbit : loc) (o : orbit_fields num) (M : num).
Hypothesis Horbit : nth_error h orbit = Some (OKeplerianOrbit o).
Hypothesis Hthis : nth_error h this = Some (OMeanAnomaly M).

Lemma mean_true_anomaly_run :
  MeanAnomaly.true_anomaly this orbit h =
  (Normal (S (length h)),
   h ++ [OEccentricAnomaly (mean_to_eccentric o M);
         OTrueAnomaly (eccentric_to_true o (mean_to_eccentric o M))]).
Proof.
  unfold MeanAnomaly.true_anomaly. step.
  erewrite eccentric_true_anomaly_run by eauto with run.
  rewrite <- app_assoc, length_app, Nat.add_comm. reflexivity.
Qed.

Lemma mean_point_run :
  MeanAnomaly.point this orbit h =
  (Normal (eccentric_point o (mean_to_eccentric o M)),
   h ++ [OEccentricAnomaly (mean_to_eccentric o M)]).
Proof.
  unfold MeanAnomaly.point. step.
  erewrite eccentric_point_run by eauto with run.
  reflexivity.
Qed.

End OfAMeanAnomaly.

End Conversions.

(** Unfolds the operations of [real]. *)
Ltac reals :=
  cbn [add sub mul div neg lt lit_0 lit_1 lit_2 lit_180 lit_0_00001
       Math_PI Math_abs Math_sqrt Math_sin Math_cos Math_atan2 Math_min
       Math_max real] in *.

Section RealFacts.

Local Open Scope R_scope.

Lemma Rltb_true a b : a < b -> Rltb a b = true.
Proof. intros H. unfold Rltb. destruct (Rlt_dec a b); [reflexivity|contradiction]. Qed.

Lemma Rltb_false a b : b <= a -> Rltb a b = false.
Proof. intros H. unfold Rltb. destruct (Rlt_dec a b); [lra|reflexivity]. Qed.

Lemma tolerance_pos : 0 < @tolerance R real.
Proof.
  unfold tolerance. reals. pose proof PI_RGT_0.
  apply Rmult_lt_0_compat; [lra|]. apply Rdiv_lt_0_compat; lra.
Qed.

Lemma atan_nonpos t : t <= 0 -> atan t <= 0.
Proof.
  intros [H| ->]; [|rewrite atan_0; lra].
  rewrite <- atan_0. now apply Rlt_le, atan_increasing.
Qed.

Lemma atan_pos t : 0 < t -> 0 < atan t.
Proof. intros H. rewrite <- atan_0. now apply atan_increasing. Qed.

(** [Ratan2] stays within [(-PI, PI]]. *)
Lemma Ratan2_bound y x : - PI < Ratan2 y x <= PI.
Proof.
  unfold Ratan2. pose proof PI_RGT_0 as P. pose proof (atan_bound (y / x)) as B.
  destruct (Rlt_dec 0 x); [lra|].
  destruct (Rlt_dec x 0) as [Hx|Hx].
  - destruct (Rle_dec 0 y) as [Hy|Hy].
    + assert (atan (y / x) <= 0); [|lra].
      apply atan_nonpos. unfold Rdiv.
      assert (/ x < 0) by now apply Rinv_lt_0_compat. nra.
    + assert (0 < atan (y / x)); [|lra].
      apply atan_pos. unfold Rdiv.
      assert (/ x < 0) by now apply Rinv_lt_0_compat. nra.
  - destruct (Rlt_dec 0 y); [lra|]. destruct (Rlt_dec y 0); lra.
Qed.

Lemma tan_plus_PI t : cos t <> 0 -> tan (t + PI) = tan t.
Proof. intros H. unfold tan. rewrite neg_sin, neg_cos. now field. Qed.

Lemma tan_minus_PI t : cos t <> 0 -> tan (t - PI) = tan t.
Proof.
  intros H. rewrite <- (tan_plus_PI (t - PI)).
  - f_equal. lra.
  - intros Z. apply H. replace t with (t - PI + PI) by lra.
    rewrite neg_cos, Z. lra.
Qed.

(** [Ratan2] gives the angle back on the circle of radius [r]. *)
Lemma Ratan2_polar r t :
  0 < r -> - PI < t <= PI -> Ratan2 (r * sin t) (r * cos t) = t.
Proof.
  intros Hr [Hlo Hhi]. pose proof PI_RGT_0 as P. unfold Ratan2.
  assert (Q : forall c, c <> 0 -> r * sin t / (r * c) = sin t / c)
    by (intros c Hc; field; split; lra).
  destruct (Rlt_dec 0 (r * cos t)) as [Hx|Hx].
  - (* the right half plane *)
    assert (Hc : 0 < cos t) by nra.
    rewrite Q by lra. change (sin t / cos t) with (tan t).
    apply atan_tan.
    destruct (Rle_dec t (- (PI / 2))) as [L|L].
    + assert (cos t <= 0); [|lra].
      destruct (Req_dec t (- (PI / 2))) as [->|Hne].
      * rewrite cos_neg, cos_PI2. lra.
      * rewrite <- (cos_neg t). apply Rlt_le, cos_lt_0; lra.
    + destruct (Rle_dec (PI / 2) t) as [U|U]; [|lra].
      assert (cos t <= 0); [|lra].
      destruct (Req_dec t (PI / 2)) as [->|Hne].
      * rewrite cos_PI2. lra.
      * apply Rlt_le, cos_lt_0; lra.
  - destruct (Rlt_dec (r * cos t) 0) as [Hx'|Hx'].
    + (* the left half plane *)
      assert (Hc : cos t < 0) by nra.
      rewrite Q by lra. change (sin t / cos t) with (tan t).
      assert (Ht : t < - (PI / 2) \/ PI / 2 < t).
      { destruct (Rlt_dec t (- (PI / 2))); [now left|].
        destruct (Rlt_dec (PI / 2) t); [now right|].
        assert (0 <= cos t); [|lra].
        apply cos_ge_0; lra. }
      destruct (Rle_dec 0 (r * sin t)) as [Hy|Hy].
      * assert (Hs : 0 <= sin t) by nra.
        destruct Ht as [Ht|Ht].
        { assert (sin t < 0); [|lra]. apply sin_lt_0_var; lra. }
        rewrite <- tan_minus_PI by lra. rewrite atan_tan; lra.
      * assert (Hs : sin t < 0) by nra.
        destruct Ht as [Ht|Ht].
        2:{ assert (0 <= sin t); [|lra]. apply sin_ge_0; lra. }
        rewrite <- tan_plus_PI by lra. rewrite atan_tan; lra.
    + (* the vertical axis *)
      assert (Hc : cos t = 0) by nra.
      destruct (Rlt_dec 0 (r * sin t)) as [Hy|Hy].
      * assert (Hs : 0 < sin t) by nra.
        destruct (Rtotal_order t (PI / 2)) as [L|[E|G]]; [|lra|].
        { destruct (Rle_dec t 0) as [Z|Z].
          - assert (sin t <= 0); [|lra].
            destruct (Req_dec t 0) as [->|Hne]; [rewrite sin_0; lra|].
            apply Rlt_le, sin_lt_0_var; lra.
          - assert (0 < cos t); [|lra]. apply cos_gt_0; lra. }
        { assert (cos t < 0); [|lra]. apply cos_lt_0; lra. }
      * destruct (Rlt_dec (r * sin t) 0) as [Hy'|Hy'].
        { assert (Hs : sin t < 0) by nra.
          destruct (Rtotal_order t (- (PI / 2))) as [L|[E|G]]; [|lra|].
          - assert (cos t < 0); [|lra].
            rewrite <- cos_neg. apply cos_lt_0; lra.
          - destruct (Rle_dec 0 t) as [Z|Z].
            + assert (0 <= sin t); [|lra]. apply sin_ge_0; lra.
            + assert (0 < cos t); [|lra]. apply cos_gt_0; lra. }
        { assert (Hs : sin t = 0) by nra.
          pose proof (sin2_cos2 t) as S. unfold Rsqr in S.
          rewrite Hs, Hc in S. lra. }
Qed.

End RealFacts.

(** ** Computations that assign to no object *)

Section Frame.

Context {num : Type} {N : Number num}.
Local Open Scope js_scope.

Implicit Types (h : heap num) (l this orbit : loc).

Lemma extends_refl h : extends h h.
Proof. exists []. now rewrite app_nil_r. Qed.

Lemma extends_lookup h h' l ob :
  extends h h' -> nth_error h l = Some ob -> nth_error h' l = Some ob.
Proof. intros [ext ->]. apply lookup_extend. Qed.

Lemma extends_length h h' : extends h h' -> length h <= length h'.
Proof. intros [ext ->]. rewrite length_app. lia. Qed.

Lemma frame_ret A (a : A) : frame (num := num) (ret a).
Proof. intros h. apply extends_refl. Qed.

Lemma frame_throw A e : frame (@throw num A e).
Proof. intros h. apply extends_refl. Qed.

Lemma frame_new (ob : object num) : frame (new ob).
Proof. intros h. now exists [ob]. Qed.

Lemma frame_read l : frame (num := num) (read l).
Proof. intros h. unfold read. destruct (nth_error h l); apply extends_refl. Qed.

Lemma frame_bind A B (c : Comp num A) (k : A -> Comp num B) :
  frame c -> (forall a, frame (k a)) -> frame (bind c k).
Proof.
  intros Hc Hk h. unfold bind. specialize (Hc h).
  destruct (c h) as [[a|e] h1]; simpl in *; [|exact Hc].
  destruct Hc as [ext1 ->]. destruct (Hk a (h ++ ext1)) as [ext2 E].
  exists (ext1 ++ ext2). now rewrite E, app_assoc.
Qed.

Lemma frame_orbit_of l : frame (num := num) (orbit_of l).
Proof.
  apply frame_bind; [apply frame_read|].
  intros [f|a|a|a]; first [apply frame_ret | apply frame_throw].
Qed.

Lemma frame_true_angle l : frame (num := num) (TrueAnomaly.this_angle l).
Proof.
  apply frame_bind; [apply frame_read|].
  intros [f|a|a|a]; first [apply frame_ret | apply frame_throw].
Qed.

Lemma frame_eccentric_angle l :
  frame (num := num) (EccentricAnomaly.this_angle l).
Proof.
  apply frame_bind; [apply frame_read|].
  intros [f|a|a|a]; first [apply frame_ret | apply frame_throw].
Qed.

Lemma frame_mean_angle l : frame (num := num) (MeanAnomaly.this_angle l).
Proof.
  apply frame_bind; [apply frame_read|].
  intros [f|a|a|a]; first [apply frame_ret | apply frame_throw].
Qed.

Lemma frame_call A (members : list (string * (loc -> loc -> Comp num A))) name this orbit :
  (forall m, In m members -> frame (snd m this orbit)) ->
  frame (call (property members name) this orbit).
Proof.
  intros H. unfold property.
  destruct (find _ members) as [m|] eqn:F; simpl; [|apply frame_throw].
  apply H. now apply find_some in F.
Qed.

Lemma fresh_new (ob : object num) : fresh (new ob).
Proof.
  intros h l E. simpl in *. inversion E. rewrite length_app. simpl. lia.
Qed.

Lemma fresh_bind A (c : Comp num A) (k : A -> Comp num loc) :
  frame c -> (forall a, fresh (k a)) -> fresh (bind c k).
Proof.
  intros Hc Hk h l. unfold bind. specialize (Hc h).
  destruct (c h) as [[a|e] h1]; simpl in *; [|discriminate].
  intros E. apply Hk in E. apply extends_length in Hc. lia.
Qed.

End Frame.

Create HintDb frame.

#[global] Hint Resolve frame_ret frame_throw frame_new frame_read frame_bind
  frame_orbit_of frame_true_angle frame_eccentric_angle frame_mean_angle
  fresh_new fresh_bind : frame.

(** Closes a goal [frame c] or [fresh c] for a method body [c] built from
    reads, allocations and calls already known to qualify. *)
Ltac framing := cbv zeta; intros; auto 20 with frame.

Section FrameOfMethods.

Context {num : Type} {N : Number num}.

Implicit Types (h : heap num) (l this orbit : loc).

Lemma frame_semiminor_axis l : frame (KeplerianOrbit.semiminor_axis l).
Proof. unfold KeplerianOrbit.semiminor_axis. framing. Qed.

Lemma frame_focal_point l : frame (KeplerianOrbit.focal_point l).
Proof. unfold KeplerianOrbit.focal_point. framing. Qed.

Lemma frame_periapsis l : frame (KeplerianOrbit.periapsis l).
Proof. unfold KeplerianOrbit.periapsis. framing. Qed.

Lemma frame_apoapsis l : frame (KeplerianOrbit.apoapsis l).
Proof. unfold KeplerianOrbit.apoapsis. framing. Qed.

Lemma frame_rotate_point l (p : Point num) :
  frame (KeplerianOrbit.rotate_point l p).
Proof. unfold KeplerianOrbit.rotate_point. framing. Qed.

Lemma frame_is_clockwise l :
  frame (num := num) (KeplerianOrbit.is_clockwise l).
Proof. unfold KeplerianOrbit.is_clockwise. framing. Qed.

#[local] Hint Resolve frame_semiminor_axis frame_focal_point frame_periapsis
  frame_apoapsis frame_rotate_point frame_is_clockwise : frame.

Lemma frame_eccentric_point this orbit : frame (EccentricAnomaly.point this orbit).
Proof. unfold EccentricAnomaly.point. framing. Qed.

#[local] Hint Resolve frame_eccentric_point : frame.

Lemma frame_eccentric_point2d this orbit :
  frame (EccentricAnomaly.point2d this orbit).
Proof. unfold EccentricAnomaly.point2d. framing. Qed.

#[local] Hint Resolve frame_eccentric_point2d : frame.

Lemma frame_eccentric_radius this orbit :
  frame (EccentricAnomaly.radius this orbit).
Proof.
  unfold EccentricAnomaly.radius. apply frame_bind; [|framing].
  apply frame_call. intros m [<-|[<-|[]]]; simpl; framing.
Qed.

Lemma frame_eccentric_true_anomaly this orbit :
  frame (EccentricAnomaly.true_anomaly this orbit).
Proof. unfold EccentricAnomaly.true_anomaly. framing. Qed.

Lemma fresh_eccentric_true_anomaly this orbit :
  fresh (EccentricAnomaly.true_anomaly this orbit).
Proof. unfold EccentricAnomaly.true_anomaly. framing. Qed.

Lemma frame_eccentric_mean_anomaly this orbit :
  frame (EccentricAnomaly.mean_anomaly this orbit).
Proof. unfold EccentricAnomaly.mean_anomaly. framing. Qed.

Lemma fresh_eccentric_mean_anomaly this orbit :
  fresh (EccentricAnomaly.mean_anomaly this orbit).
Proof. unfold EccentricAnomaly.mean_anomaly. framing. Qed.

#[local] Hint Resolve frame_eccentric_radius frame_eccentric_true_anomaly
  fresh_eccentric_true_anomaly frame_eccentric_mean_anomaly
  fresh_eccentric_mean_anomaly : frame.

Lemma frame_true_radius this orbit : frame (TrueAnomaly.radius this orbit).
Proof. unfold TrueAnomaly.radius. framing. Qed.

#[local] Hint Resolve frame_true_radius : frame.

Lemma frame_true_point this orbit : frame (TrueAnomaly.point this orbit).
Proof. unfold TrueAnomaly.point. framing. Qed.

#[local] Hint Resolve frame_true_point : frame.

Lemma frame_true_point2d this orbit : frame (TrueAnomaly.point2d this orbit).
Proof. unfold TrueAnomaly.point2d. framing. Qed.

Lemma frame_true_eccentric_anomaly this orbit :
  frame (TrueAnomaly.eccentric_anomaly this orbit).
Proof. unfold TrueAnomaly.eccentric_anomaly. framing. Qed.

Lemma fresh_true_eccentric_anomaly this orbit :
  fresh (TrueAnomaly.eccentric_anomaly this orbit).
Proof. unfold TrueAnomaly.eccentric_anomaly. framing. Qed.

#[local] Hint Resolve frame_true_point2d frame_true_eccentric_anomaly
  fresh_true_eccentric_anomaly : frame.

Lemma frame_true_mean_anomaly this orbit :
  frame (TrueAnomaly.mean_anomaly this orbit).
Proof. unfold TrueAnomaly.mean_anomaly. framing. Qed.

Lemma fresh_true_mean_anomaly this orbit :
  fresh (TrueAnomaly.mean_anomaly this orbit).
Proof. unfold TrueAnomaly.mean_anomaly. framing. Qed.

Lemma frame_eccentric_anomaly_loop n this orbit tol E :
  frame (MeanAnomaly.eccentric_anomaly_loop n this orbit tol E).
Proof.
  revert E. induction n as [|n IH]; intros E; simpl; [framing|].
  apply frame_bind; [framing|]. intros o.
  apply frame_bind; [framing|]. intros a.
  cbv zeta. destruct (lt _ tol); [framing|apply IH].
Qed.

Lemma fresh_eccentric_anomaly_loop n this orbit tol E :
  fresh (MeanAnomaly.eccentric_anomaly_loop n this orbit tol E).
Proof.
  revert E. induction n as [|n IH]; intros E; simpl; [framing|].
  apply fresh_bind; [framing|]. intros o.
  apply fresh_bind; [framing|]. intros a.
  cbv zeta. destruct (lt _ tol); [framing|apply IH].
Qed.

#[local] Hint Resolve frame_true_mean_anomaly fresh_true_mean_anomaly
  frame_eccentric_anomaly_loop fresh_eccentric_anomaly_loop : frame.

Lemma frame_mean_eccentric_anomaly this orbit :
  frame (MeanAnomaly.eccentric_anomaly this orbit).
Proof. unfold MeanAnomaly.eccentric_anomaly. framing. Qed.

Lemma fresh_mean_eccentric_anomaly this orbit :
  fresh (MeanAnomaly.eccentric_anomaly this orbit).
Proof. unfold MeanAnomaly.eccentric_anomaly. framing. Qed.

#[local] Hint Resolve frame_mean_eccentric_anomaly fresh_mean_eccentric_anomaly : frame.

Lemma frame_mean_true_anomaly this orbit :
  frame (MeanAnomaly.true_anomaly this orbit).
Proof. unfold MeanAnomaly.true_anomaly. framing. Qed.

Lemma fresh_mean_true_anomaly this orbit :
  fresh (MeanAnomaly.true_anomaly this orbit).
Proof. unfold MeanAnomaly.true_anomaly. framing. Qed.

#[local] Hint Resolve frame_mean_true_anomaly fresh_mean_true_anomaly : frame.

Lemma frame_radius_at_mean_anomaly this orbit :
  frame (MeanAnomaly.radius_at_mean_anomaly this orbit).
Proof. unfold MeanAnomaly.radius_at_mean_anomaly. framing. Qed.

Lemma frame_mean_point this orbit : frame (MeanAnomaly.point this orbit).
Proof. unfold MeanAnomaly.point. framing. Qed.

Lemma frame_mean_point2d this orbit : frame (MeanAnomaly.point2d this orbit).
Proof. unfold MeanAnomaly.point2d. framing. Qed.

End FrameOfMethods.

#[global] Hint Resolve frame_semiminor_axis frame_focal_point frame_periapsis
  frame_apoapsis frame_rotate_point frame_is_clockwise
  frame_eccentric_point frame_eccentric_point2d frame_eccentric_radius
  frame_eccentric_true_anomaly fresh_eccentric_true_anomaly
  frame_eccentric_mean_anomaly fresh_eccentric_mean_anomaly
  frame_true_radius frame_true_point frame_true_point2d
  frame_true_eccentric_anomaly fresh_true_eccentric_anomaly
  frame_true_mean_anomaly fresh_true_mean_anomaly
  frame_mean_eccentric_anomaly fresh_mean_eccentric_anomaly
  frame_mean_true_anomaly fresh_mean_true_anomaly
  frame_radius_at_mean_anomaly frame_mean_point frame_mean_point2d : frame.

(** ** Every operation frames the store *)

Section Operations.

Context {num : Type} {N : Number num}.

Lemma frame_number (c : Comp num num) : frame c -> frame (number c).
Proof. unfold number. framing. Qed.

Lemma frame_a_point (c : Comp num (Point num)) : frame c -> frame (a_point c).
Proof. unfold a_point. framing. Qed.

Lemma frame_an_object (c : Comp num loc) : frame c -> frame (an_object c).
Proof. unfold an_object. framing. Qed.

Lemma frame_perform op this orbit : frame (perform op this orbit).
Proof.
  destruct op; simpl;
    first [apply frame_number | apply frame_a_point | apply frame_an_object
          | idtac]; framing.
Qed.

Lemma an_object_result (c : Comp num loc) h l :
  fst (an_object c h) = Normal (VObject l) -> fst (c h) = Normal l.
Proof.
  unfold an_object, bind, ret. destruct (c h) as [[l'|e] h']; simpl.
  - now intros [= ->].
  - discriminate.
Qed.

Lemma an_object_store (c : Comp num loc) h : snd (an_object c h) = snd (c h).
Proof.
  unfold an_object, bind, ret. now destruct (c h) as [[l'|e] h'].
Qed.

Lemma number_not_object (c : Comp num num) h l :
  fst (number c h) <> Normal (VObject l).
Proof.
  unfold number, bind, ret. destruct (c h) as [[n|e] h']; simpl; discriminate.
Qed.

Lemma a_point_not_object (c : Comp num (Point num)) h l :
  fst (a_point c h) <> Normal (VObject l).
Proof.
  unfold a_point, bind, ret. destruct (c h) as [[n|e] h']; simpl; discriminate.
Qed.

Lemma an_object_fresh (c : Comp num loc) h l :
  fresh c -> fst (an_object c h) = Normal (VObject l) ->
  length h <= l < length (snd (an_object c h)).
Proof.
  intros F E. rewrite an_object_store. apply F. now apply an_object_result.
Qed.

(** An operation that hands back an object made it. *)
Lemma perform_fresh op this orbit h l :
  fst (perform op this orbit h) = Normal (VObject l) ->
  length h <= l < length (snd (perform op this orbit h)).
Proof.
  destruct op; simpl; intros E;
    first [ now apply number_not_object in E
          | now apply a_point_not_object in E
          | apply an_object_fresh; [framing|exact E]
          | discriminate E
          | idtac ].
  - revert E. unfold bind, ret.
    destruct (KeplerianOrbit.is_clockwise orbit h) as [[?|?] ?]; simpl; discriminate.
  - revert E. unfold MeanAnomaly.radius_at_mean_anomaly, bind, ret.
    destruct (MeanAnomaly.true_anomaly this orbit h) as [[nu|?] h1]; simpl;
      [|discriminate].
    destruct (TrueAnomaly.radius nu orbit h1) as [[?|?] ?]; simpl; discriminate.
Qed.

End Operations.

(** ** The contracts that hold in every arithmetic *)

Section Contracts.

Context {num : Type} {N : Number num}.
Local Open Scope js_scope.

Implicit Types (h : heap num) (l this orbit : loc) (o : orbit_fields num).

(** C1, amended. [MeanAnomaly.eccentric_anomaly] is the bounded Newton
    iteration: with [E_0 = M] and
    [E_(j+1) = E_j - clamp(f(E_j) / f'(E_j), -e/2, e/2)], where
    [f(E) = E - e sin E - M] and [f'(E) = 1 - e cos E], it runs [k]
    passes, between 1 and 10, and returns a new [EccentricAnomaly] of
    angle [E_k].  The residual a pass tests is the one it computed before
    its update: pass [j + 1] computes [f(E_j)], moves to [E_(j+1)] and
    returns [E_(j+1)] when [|f(E_j)|] is below the tolerance
    [0.00001 * (PI / 180)]; the residual of [E_(j+1)] is not looked at
    until the next pass.  No pass before the last computed a residual
    below the tolerance, and the last one did unless all 10 passes were
    run, in which case [E_10] is returned all the same, as a normal
    result. *)
Theorem newton_bounded_iteration h this orbit o (M : num) :
  nth_error h orbit = Some (OKeplerianOrbit o) ->
  nth_error h this = Some (OMeanAnomaly M) ->
  let e := o.(eccentricity) in
  let E := iterate e M M in
  let f := fun j => E j - e * Math_sin (E j) - M in
  let below := fun j => Math_abs (f j) <? lit_0_00001 * (Math_PI / lit_180) in
  E 0 = M /\
  (forall j,
     E (S j) =
     E j - Math_min (Math_max (f j / (lit_1 - e * Math_cos (E j)))
                              (- e / lit_2))
                    (e / lit_2)) /\
  exists k,
    1 <= k <= 10 /\
    (forall j, S j < k -> below j = false) /\
    (k < 10 -> below (pred k) = true) /\
    MeanAnomaly.eccentric_anomaly this orbit h =
      (Normal (length h), h ++ [OEccentricAnomaly (E k)]).
Proof.
  intros Ho Ht e E f below. split; [reflexivity|]. split.
  - intros j. apply iterate_succ.
  - exists (passes e M M 10). repeat split.
    + apply passes_pos. lia.
    + apply passes_le.
    + intros j Hj. now apply (passes_before e M M 10).
    + intros Hk. now apply (passes_last e M M 10).
    + now apply eccentric_anomaly_run.
Qed.

(** C3. [EccentricAnomaly.radius] never returns a number: the method
    calls [this.position(orbit)], the class has a [point] and a [point2d]
    but no member [position], and the call throws a [TypeError] whatever
    the receiver, the orbit and the store, which it leaves as it was. *)
Theorem eccentric_radius_throws this orbit h :
  property (@EccentricAnomaly.point_members num N) "position" = None /\
  property (@EccentricAnomaly.point_members num N) "point" =
    Some EccentricAnomaly.point /\
  EccentricAnomaly.radius this orbit h =
    (Throw (TypeError "not a function"), h).
Proof.
  assert (P : property (@EccentricAnomaly.point_members num N) "position" = None)
    by reflexivity.
  split; [exact P|]. split; [reflexivity|].
  unfold EccentricAnomaly.radius. rewrite P.
  apply bind_throw. reflexivity.
Qed.

(** C4. [MeanAnomaly.radius_at_mean_anomaly] completes normally with
    [undefined]: the radius [true_anomaly(orbit).radius(orbit)] is
    computed, a number, and then dropped. *)
Theorem radius_at_mean_anomaly_undefined h this orbit o (M : num) :
  nth_error h orbit = Some (OKeplerianOrbit o) ->
  nth_error h this = Some (OMeanAnomaly M) ->
  fst (MeanAnomaly.radius_at_mean_anomaly this orbit h) = Normal VUndefined /\
  fst ((nu <- MeanAnomaly.true_anomaly this orbit ;;
        TrueAnomaly.radius nu orbit) h) =
    Normal (true_radius o (eccentric_to_true o (mean_to_eccentric o M))).
Proof.
  intros Ho Ht.
  pose proof (mean_true_anomaly_run h this orbit o M Ho Ht) as T.
  assert (R : TrueAnomaly.radius (S (length h)) orbit
                (h ++ [OEccentricAnomaly (mean_to_eccentric o M);
                       OTrueAnomaly (eccentric_to_true o (mean_to_eccentric o M))]) =
              (Normal (true_radius o (eccentric_to_true o (mean_to_eccentric o M))),
               h ++ [OEccentricAnomaly (mean_to_eccentric o M);
                     OTrueAnomaly (eccentric_to_true o (mean_to_eccentric o M))])).
  { apply true_radius_run; [eauto with run|apply lookup_second]. }
  split.
  - unfold MeanAnomaly.radius_at_mean_anomaly.
    rewrite (bind_normal _ _ _ _ _ _ _ T), (bind_normal _ _ _ _ _ _ _ R).
    reflexivity.
  - rewrite (bind_normal _ _ _ _ _ _ _ T), R. reflexivity.
Qed.

(** A conversion called on an instance of its class, with an orbit,
    hands back an object of the class it converts to. *)
Lemma perform_conversion op this orbit h ob o :
  conversion op = true -> receiver op ob = true ->
  nth_error h this = Some ob ->
  nth_error h orbit = Some (OKeplerianOrbit o) ->
  exists l made,
    fst (perform op this orbit h) = Normal (VObject l) /\
    nth_error (snd (perform op this orbit h)) l = Some made /\
    converts_to op made = true.
Proof.
  intros C R Ht Ho.
  destruct op; try discriminate C; destruct ob as [f|a|a|a]; try discriminate R;
    simpl; unfold an_object.
  - erewrite bind_normal by (eapply true_eccentric_anomaly_run; eassumption).
    do 2 eexists. split; [reflexivity|]. split; [apply lookup_new|reflexivity].
  - erewrite bind_normal by (eapply true_mean_anomaly_run; eassumption).
    do 2 eexists. split; [reflexivity|]. split; [apply lookup_second|reflexivity].
  - erewrite bind_normal by (eapply eccentric_true_anomaly_run; eassumption).
    do 2 eexists. split; [reflexivity|]. split; [apply lookup_new|reflexivity].
  - erewrite bind_normal by (eapply eccentric_mean_anomaly_run; eassumption).
    do 2 eexists. split; [reflexivity|]. split; [apply lookup_new|reflexivity].
  - erewrite bind_normal by (eapply mean_true_anomaly_run; eassumption).
    do 2 eexists. split; [reflexivity|]. split; [apply lookup_second|reflexivity].
  - erewrite bind_normal by (eapply eccentric_anomaly_run; eassumption).
    do 2 eexists. split; [reflexivity|]. split; [apply lookup_new|reflexivity].
Qed.

(** C9. None of the conversion and geometry operations, and none of the
    accessors of an orbit, assigns to an object: whatever the operation
    does, and however it completes, every object of the store it was run
    in (the orbit and the receiver among them) is afterwards what it was;
    an object it hands back was made during the call, so it is none of the
    objects that were there; and a conversion, called on an instance of
    its class with an orbit, does hand back an object, an anomaly of the
    class it converts to. *)
Theorem operations_frame (op : operation) this orbit h :
  let r := fst (perform op this orbit h) in
  let h' := snd (perform op this orbit h) in
  (forall l ob, nth_error h l = Some ob -> nth_error h' l = Some ob) /\
  (forall l, r = Normal (VObject l) ->
     nth_error h l = None /\ nth_error h' l <> None /\
     forall l0 ob, nth_error h l0 = Some ob -> l <> l0) /\
  (conversion op = true ->
   forall ob o, receiver op ob = true ->
     nth_error h this = Some ob ->
     nth_error h orbit = Some (OKeplerianOrbit o) ->
     exists l made,
       r = Normal (VObject l) /\ nth_error h' l = Some made /\
       converts_to op made = true).
Proof.
  intros r h'. split; [|split].
  - intros l ob. apply extends_lookup, frame_perform.
  - intros l E. apply perform_fresh in E. fold h' in E.
    split; [apply nth_error_None; lia|].
    split; [apply nth_error_Some; lia|].
    intros l0 ob H0 ->.
    assert (l0 < length h) by (apply nth_error_Some; congruence). lia.
  - intros C ob o R Ht Ho. now apply perform_conversion with (ob := ob) (o := o).
Qed.

(** [set_degrees], by contrast, assigns to its receiver and hands the
    receiver itself back. *)
Lemma set_degrees_assigns (d a : num) :
  MeanAnomaly.set_degrees 0 d [OMeanAnomaly a] =
  (Normal 0, [OMeanAnomaly (d * (Math_PI / lit_180))]).
Proof. reflexivity. Qed.

End Contracts.

(** ** The contracts of the formulas, in exact arithmetic *)

Section OverTheReals.

Local Open Scope R_scope.

Implicit Types (h : heap R) (l this orbit : loc) (o : orbit_fields R).

(** *** A circular orbit *)

Lemma residual_circular (M : R) : residual 0 M M = 0.
Proof. unfold residual. reals. ring. Qed.

Lemma newton_step_circular (M : R) : newton_step 0 M M = M.
Proof.
  unfold newton_step. rewrite residual_circular. unfold derivative. reals.
  replace (0 / (1 - 0 * cos M)) with 0 by (unfold Rdiv; ring).
  replace (- 0 / 2) with 0 by lra. replace (0 / 2) with 0 by lra.
  rewrite Rmax_left, Rmin_left by lra. ring.
Qed.

Lemma passes_circular (M : R) : passes 0 M M 10 = 1%nat.
Proof.
  cbn [passes]. rewrite residual_circular. reals. rewrite Rabs_R0.
  now rewrite (Rltb_true _ _ tolerance_pos).
Qed.

Lemma mean_to_eccentric_circular o (M : R) :
  o.(eccentricity) = 0 -> mean_to_eccentric o M = M.
Proof.
  intros E. unfold mean_to_eccentric. rewrite E, passes_circular.
  apply newton_step_circular.
Qed.

Lemma semiminor_circular o : o.(eccentricity) = 0 -> semiminor o = o.(semimajor_axis).
Proof.
  intros E. unfold semiminor. rewrite E. reals.
  replace (1 - 0 * 0) with 1 by ring. rewrite sqrt_1. ring.
Qed.

Lemma focal_circular o : o.(eccentricity) = 0 -> focal o = 0.
Proof. intros E. unfold focal. rewrite E. reals. ring. Qed.

Lemma eccentric_point_circular o (E : R) :
  o.(eccentricity) = 0 ->
  eccentric_point o E =
  {| x := o.(semimajor_axis) * cos E; y := o.(semimajor_axis) * sin E |}.
Proof.
  intros H. unfold eccentric_point.
  rewrite semiminor_circular, focal_circular by exact H. reals.
  f_equal; ring.
Qed.

Lemma eccentric_to_true_circular o (E : R) :
  o.(eccentricity) = 0 -> 0 < o.(semimajor_axis) -> - PI < E <= PI ->
  eccentric_to_true o E = E.
Proof.
  intros H Ha HE. unfold eccentric_to_true.
  rewrite eccentric_point_circular by exact H. reals. simpl.
  now apply Ratan2_polar.
Qed.

Lemma eccentric_to_mean_circular o (E : R) :
  o.(eccentricity) = 0 -> eccentric_to_mean o E = E.
Proof. intros H. unfold eccentric_to_mean. rewrite H. reals. ring. Qed.

Lemma true_radius_circular o (nu : R) :
  o.(eccentricity) = 0 -> true_radius o nu = o.(semimajor_axis).
Proof. intros H. unfold true_radius. rewrite H. reals. field; lra. Qed.

(** On a circular orbit the conversion from true to eccentric anomaly
    adds the argument of periapsis to the angle. *)
Lemma true_to_eccentric_circular o (nu : R) :
  o.(eccentricity) = 0 -> 0 < o.(semimajor_axis) ->
  - PI < nu + o.(argument_of_periapsis) <= PI ->
  true_to_eccentric o nu = nu + o.(argument_of_periapsis).
Proof.
  intros H Ha Hnu. unfold true_to_eccentric, true_point.
  rewrite true_radius_circular, semiminor_circular, focal_circular by exact H.
  reals. simpl.
  set (t := nu + argument_of_periapsis o) in *.
  replace (sin t * semimajor_axis o / semimajor_axis o) with (1 * sin t)
    by (field; lra).
  replace ((cos t * semimajor_axis o + 0) / semimajor_axis o) with (1 * cos t)
    by (field; lra).
  apply Ratan2_polar; lra.
Qed.

(** On a circular orbit the round trip from a mean anomaly through the
    true anomaly comes back with the argument of periapsis added. *)
Lemma round_trip_circular h this orbit o (M : R) :
  nth_error h orbit = Some (OKeplerianOrbit o) ->
  nth_error h this = Some (OMeanAnomaly M) ->
  o.(eccentricity) = 0 -> 0 < o.(semimajor_axis) ->
  - PI < M <= PI -> - PI < M + o.(argument_of_periapsis) <= PI ->
  fst ((nu <- MeanAnomaly.true_anomaly this orbit ;;
        M' <- TrueAnomaly.mean_anomaly nu orbit ;;
        MeanAnomaly.this_angle M') h) =
  Normal (M + o.(argument_of_periapsis)).
Proof.
  intros Ho Ht He Ha HM HMw.
  rewrite (bind_normal _ _ _ _ _ _ _ (mean_true_anomaly_run h this orbit o M Ho Ht)).
  rewrite mean_to_eccentric_circular, eccentric_to_true_circular by assumption.
  erewrite bind_normal
    by (apply true_mean_anomaly_run; [eauto with run|apply lookup_second]).
  rewrite true_to_eccentric_circular, eccentric_to_mean_circular by assumption.
  erewrite mean_angle_run; [reflexivity|].
  rewrite nth_error_app2 by (rewrite length_app; simpl; lia).
  rewrite length_app. simpl length.
  now replace (S (length h + 2) - (length h + 2))%nat with 1%nat by lia.
Qed.

(** *** The clamp of the Newton step *)

Lemma clamp_interval (e t : R) :
  0 <= e ->
  - e / 2 <= MeanAnomaly.clamp t (- e / 2) (e / 2) <= e / 2 /\
  (- e / 2 <= t <= e / 2 -> MeanAnomaly.clamp t (- e / 2) (e / 2) = t).
Proof.
  intros He. unfold MeanAnomaly.clamp. reals. unfold Rmin, Rmax.
  destruct (Rle_dec t (- e / 2)), (Rle_dec _ (e / 2)); split; lra.
Qed.

End OverTheReals.

(** ** The programs in binary64 *)

Section Binary64.

Local Open Scope float_scope.

(** The shape of a finite number. *)
Lemma Prim2SF_finite x :
  is_finite x = true ->
  (exists b, Prim2SF x = S754_zero b) \/
  (exists s mx ex, Prim2SF x = S754_finite s mx ex).
Proof.
  unfold is_finite, is_nan, is_infinity.
  rewrite !FloatAxioms.eqb_spec, abs_spec.
  change (Prim2SF infinity) with (S754_infinity false).
  destruct (Prim2SF x) as [b|b| |s mx ex] eqn:E; simpl.
  - intros _. left. now exists b.
  - rewrite orb_true_r. discriminate.
  - discriminate.
  - intros _. right. now exists s, mx, ex.
Qed.

Lemma float_zero x b : Prim2SF x = S754_zero b -> x = (if b then -0 else 0).
Proof. intros E. apply Prim2SF_inj. rewrite E. now destruct b. Qed.

(** [0 * s] is a zero when [s] is finite. *)
Lemma float_mul_zero s : is_finite s = true -> 0 * s = 0 \/ 0 * s = -0.
Proof.
  intros F. pose proof (mul_spec 0 s) as S.
  change (Prim2SF 0) with (S754_zero false) in S.
  destruct (Prim2SF_finite s F) as [[b E]|(sg & mx & ex & E)];
    rewrite E in S; simpl in S; apply float_zero in S.
  - destruct b; auto.
  - destruct sg; auto.
Qed.

Lemma float_sub_zero x : x - 0 = x.
Proof.
  apply Prim2SF_inj. rewrite sub_spec.
  change (Prim2SF 0) with (S754_zero false).
  destruct (Prim2SF x) as [b|b| |s mx ex]; try reflexivity.
  now destruct b.
Qed.

(** [x - x] is [+0] when [x] is finite. *)
Lemma float_sub_diag x : is_finite x = true -> x - x = 0.
Proof.
  intros F. apply Prim2SF_inj. rewrite sub_spec.
  change (Prim2SF 0) with (S754_zero false).
  destruct (Prim2SF_finite x F) as [[b E]|(sg & mx & ex & E)]; rewrite E.
  - now destruct b.
  - unfold SF64sub, SFsub. rewrite Z.min_id. unfold shl_align.
    rewrite Z.sub_diag. reflexivity.
Qed.

Lemma float_residual_zero M z :
  is_finite M = true -> z = 0 \/ z = -0 -> M - z - M = 0.
Proof.
  intros F Hz. destruct (Prim2SF_finite M F) as [[b E]|(sg & mx & ex & E)].
  - apply float_zero in E. subst M. destruct b, Hz; subst z; reflexivity.
  - assert (S : M - z = M).
    { apply Prim2SF_inj. rewrite sub_spec, E.
      destruct Hz; subst z; reflexivity. }
    rewrite S. now apply float_sub_diag.
Qed.

Variable m : MathLibrary.

#[local] Instance engine : Number float := binary64 m.

Implicit Types (h : heap float) (this orbit : loc) (o : orbit_fields float).

(** The constructor takes the absolute values, and rejects nothing: not
    a negative axis, not an eccentricity above 1, not a [NaN]. *)
Lemma binary64_constructor :
  KeplerianOrbit.constructor (-2) (Some 1.5) (Some nan) None [] =
  (Normal 0%nat,
   [OKeplerianOrbit {| semimajor_axis := 2; eccentricity := 1.5;
                       argument_of_periapsis := nan; clockwise := false |}]).
Proof. reflexivity. Qed.

(** With a semimajor axis of 0 the periapsis and the apoapsis are 0 too,
    and neither [periapsis() < semimajor_axis] nor
    [semimajor_axis < apoapsis()] holds. *)
Lemma binary64_apsides_degenerate :
  (orbit <- KeplerianOrbit.constructor 0 (Some 0.5) None None ;;
   rp <- KeplerianOrbit.periapsis orbit ;;
   ra <- KeplerianOrbit.apoapsis orbit ;;
   ret (rp, ra, PrimFloat.ltb rp 0, PrimFloat.ltb 0 ra)) [] =
  (Normal (0, 0, false, false),
   [OKeplerianOrbit {| semimajor_axis := 0; eccentricity := 0.5;
                       argument_of_periapsis := 0; clockwise := false |}]).
Proof. reflexivity. Qed.


(** On a circular orbit whose semimajor axis is [Infinity] the focal
    distance [0 * Infinity] is [NaN]. *)
Lemma binary64_focal_point_not_finite :
  (orbit <- KeplerianOrbit.constructor infinity (Some 0) None None ;;
   KeplerianOrbit.focal_point orbit) [] =
  (Normal nan,
   [OKeplerianOrbit {| semimajor_axis := infinity; eccentricity := 0;
                       argument_of_periapsis := 0; clockwise := false |}]).
Proof. reflexivity. Qed.

(** On an engine whose [Math.cos(0)] is 1 and [Math.sin(0)] is 0, an
    orbit with [w = 0] sends [(1, 1)] to [(1, -1)] when it is clockwise
    and to [(1, 1)] when it is not. *)
Lemma binary64_rotate_point (cw : bool) :
  m.(lib_cos) 0 = 1 -> m.(lib_sin) 0 = 0 ->
  (orbit <- KeplerianOrbit.constructor 1 None None (Some cw) ;;
   KeplerianOrbit.rotate_point orbit {| x := 1; y := 1 |}) [] =
  (Normal {| x := 1; y := if cw then -1 else 1 |},
   [OKeplerianOrbit {| semimajor_axis := 1; eccentricity := 0;
                       argument_of_periapsis := 0; clockwise := cw |}]).
Proof.
  intros C S.
  erewrite bind_normal by reflexivity.
  erewrite rotate_point_run by apply (lookup_new []).
  unfold rotated. simpl. rewrite C, S. now destruct cw.
Qed.

(** The body at periapsis: on an engine whose [Math.cos(0)] is 1 and
    [Math.sin(0)] is 0, the orbit [a = 1], [e = 0.5], [w = 0] and the mean
    anomaly 0 give the eccentric anomaly 0 and the point [(0.5, 0)]. *)
Lemma binary64_periapsis :
  m.(lib_cos) 0 = 1 -> m.(lib_sin) 0 = 0 ->
  (orbit <- KeplerianOrbit.constructor 1 (Some 0.5) None None ;;
   M <- MeanAnomaly.constructor None ;;
   p <- MeanAnomaly.point M orbit ;;
   rp <- KeplerianOrbit.periapsis orbit ;;
   ret (p, rp)) [] =
  (Normal ({| x := 0.5; y := 0 |}, 0.5),
   [OKeplerianOrbit {| semimajor_axis := 1; eccentricity := 0.5;
                       argument_of_periapsis := 0; clockwise := false |};
    OMeanAnomaly 0; OEccentricAnomaly 0]).
Proof.
  intros C S.
  assert (R0 : residual 0.5 0 0 = 0).
  { unfold residual. cbn [sub mul Math_sin engine binary64]. now rewrite S. }
  assert (N0 : newton_step 0.5 0 0 = 0).
  { unfold newton_step. rewrite R0. unfold derivative.
    cbn [sub mul div neg lit_1 lit_2 Math_cos Math_min Math_max engine binary64].
    now rewrite C. }
  assert (E0 : mean_to_eccentric
                 {| semimajor_axis := 1; eccentricity := 0.5;
                    argument_of_periapsis := 0; clockwise := false |} 0 = 0).
  { unfold mean_to_eccentric. cbn [eccentricity].
    rewrite passes_succ, R0.
    replace (Math_abs 0 <? tolerance)%js with true by reflexivity.
    exact N0. }
  erewrite bind_normal by reflexivity.
  erewrite bind_normal by reflexivity.
  erewrite bind_normal by (apply mean_point_run; reflexivity).
  erewrite bind_normal by (apply periapsis_run; reflexivity).
  change (Math_abs 1) with 1.
  change (Math_abs (default lit_0 (Some 0.5))) with 0.5.
  change (default lit_0 (@None float)) with 0.
  change (default false None) with false.
  rewrite E0.
  unfold eccentric_point, semiminor, focal, ret.
  cbn [sub mul add lit_1 Math_sqrt Math_sin Math_cos engine binary64
       semimajor_axis eccentricity x y].
  rewrite C, S. reflexivity.
Qed.

(** The Newton solver on a circular orbit, for every finite [M] (at which
    the engine's sine and cosine are finite): the residual is [+0], one
    pass is run and the angle returned is [M], bit for bit.  Finite: at an
    infinite [M] the residual [M - M] is [NaN]. *)
Lemma binary64_residual_circular M :
  is_finite M = true -> is_finite (m.(lib_sin) M) = true ->
  residual 0 M M = 0.
Proof.
  intros FM Fs. unfold residual. simpl.
  apply float_residual_zero; [exact FM|]. now apply float_mul_zero.
Qed.

Lemma binary64_newton_step_circular M :
  is_finite M = true -> is_finite (m.(lib_sin) M) = true ->
  is_finite (m.(lib_cos) M) = true ->
  newton_step 0 M M = M.
Proof.
  intros FM Fs Fc. unfold newton_step.
  rewrite binary64_residual_circular by assumption.
  unfold derivative. simpl.
  destruct (float_mul_zero _ Fc) as [Z|Z]; rewrite Z;
    change (M - 0 = M); apply float_sub_zero.
Qed.

Lemma binary64_circular_newton h this orbit o M :
  nth_error h orbit = Some (OKeplerianOrbit o) ->
  nth_error h this = Some (OMeanAnomaly M) ->
  o.(eccentricity) = 0 ->
  is_finite M = true -> is_finite (m.(lib_sin) M) = true ->
  is_finite (m.(lib_cos) M) = true ->
  passes 0 M M 10 = 1%nat /\
  MeanAnomaly.eccentric_anomaly this orbit h =
    (Normal (length h), h ++ [OEccentricAnomaly M]).
Proof.
  intros Ho Ht He FM Fs Fc.
  assert (P : passes 0 M M 10 = 1%nat).
  { cbn [passes]. now rewrite binary64_residual_circular. }
  split; [exact P|].
  rewrite (eccentric_anomaly_run h this orbit o M Ho Ht).
  rewrite He, P. cbn [iterate].
  now rewrite binary64_newton_step_circular.
Qed.

End Binary64.

(** ** The claims about the formulas *)

Section Claims.

Local Open Scope R_scope.

Implicit Types (h : heap R) (l this orbit : loc) (o : orbit_fields R).

(** C8. The constructor of [KeplerianOrbit] completes normally on every
    input and every store, and makes one new object.  The object holds
    the absolute values of the semimajor axis and of the eccentricity
    given and, unchanged, the argument of periapsis and the direction
    given; an argument left out counts as [0.0], [0] and [false]; and
    these are the fields read back from the new object.  The absolute
    value is that of the arithmetic: over the reals a negative argument
    is stored negated and any other as it is, an eccentricity of 1 or
    more too; in binary64 it is the absolute value of IEEE 754.  No input
    is rejected. *)
Theorem constructor_normalizes :
  (forall (num : Type) (N : Number num) (a : num) (e w : option num)
          (cw : option bool) (h : heap num),
     let stored :=
       {| semimajor_axis := Math_abs a;
          eccentricity := Math_abs (match e with Some e' => e' | None => lit_0 end);
          argument_of_periapsis := match w with Some w' => w' | None => lit_0 end;
          clockwise := match cw with Some c => c | None => false end |} in
     KeplerianOrbit.constructor a e w cw h =
       (Normal (length h), h ++ [OKeplerianOrbit stored]) /\
     (orbit <- KeplerianOrbit.constructor a e w cw ;; orbit_of orbit) h =
       (Normal stored, h ++ [OKeplerianOrbit stored]) /\
     (orbit <- KeplerianOrbit.constructor a e w cw ;;
      KeplerianOrbit.is_clockwise orbit) h =
       (Normal (match cw with Some c => c | None => false end),
        h ++ [OKeplerianOrbit stored])) /\
  (forall (a e w : R) (cw : bool) (h : heap R),
     exists o,
       (orbit <- KeplerianOrbit.constructor a (Some e) (Some w) (Some cw) ;;
        orbit_of orbit) h = (Normal o, h ++ [OKeplerianOrbit o]) /\
       o.(argument_of_periapsis) = w /\ o.(clockwise) = cw /\
       (a < 0 -> o.(semimajor_axis) = - a) /\
       (0 <= a -> o.(semimajor_axis) = a) /\
       (e < 0 -> o.(eccentricity) = - e) /\
       (0 <= e -> o.(eccentricity) = e)) /\
  (forall (m : MathLibrary) (a e w : float) (cw : bool) (h : heap float),
     (orbit <- KeplerianOrbit.constructor (N := binary64 m) a (Some e) (Some w)
                 (Some cw) ;;
      orbit_of orbit) h =
     let o := {| semimajor_axis := PrimFloat.abs a;
                 eccentricity := PrimFloat.abs e;
                 argument_of_periapsis := w; clockwise := cw |} in
     (Normal o, h ++ [OKeplerianOrbit o])).
Proof.
  split; [|split].
  - intros num N a e w cw h stored.
    assert (C : KeplerianOrbit.constructor a e w cw h =
                (Normal (length h), h ++ [OKeplerianOrbit stored]))
      by (destruct e, w, cw; reflexivity).
    split; [exact C|]. split.
    + rewrite (bind_normal _ _ _ _ _ _ _ C). apply orbit_of_run, lookup_new.
    + rewrite (bind_normal _ _ _ _ _ _ _ C). unfold KeplerianOrbit.is_clockwise.
      erewrite bind_normal by apply orbit_of_run, lookup_new.
      reflexivity.
  - intros a e w cw h. eexists. split.
    + erewrite bind_normal by reflexivity. apply orbit_of_run, lookup_new.
    + cbn [semimajor_axis eccentricity argument_of_periapsis clockwise default].
      reals.
      split; [reflexivity|]. split; [reflexivity|].
      split; [intros H; now apply Rabs_left|].
      split; [intros H; apply Rabs_right; lra|].
      split; [intros H; now apply Rabs_left|].
      intros H. apply Rabs_right. lra.
  - intros m a e w cw h.
    erewrite bind_normal by reflexivity. apply orbit_of_run, lookup_new.
Qed.

(** C10, amended. On an orbit of eccentricity exactly 0 the Newton solver
    returns a new [EccentricAnomaly] of angle exactly [M], and leaves on
    its first pass: the residual [M - 0 sin M - M] is 0, which is below
    the tolerance, the clamped step is 0, and one pass is run.  In exact
    arithmetic for every [M]; in binary64 for every finite [M], on every
    engine whose sine and cosine of [M] are finite. *)
Theorem circular_newton_first_pass :
  (forall (h : heap R) this orbit o (M : R),
     nth_error h orbit = Some (OKeplerianOrbit o) ->
     nth_error h this = Some (OMeanAnomaly M) ->
     o.(eccentricity) = 0 ->
     M - 0 * sin M - M = 0 /\
     (Math_abs (residual 0 M M) <? tolerance)%js = true /\
     Rmin (Rmax ((M - 0 * sin M - M) / (1 - 0 * cos M)) (- 0 / 2)) (0 / 2) = 0 /\
     passes 0 M M 10 = 1%nat /\
     MeanAnomaly.eccentric_anomaly this orbit h =
       (Normal (length h), h ++ [OEccentricAnomaly M])) /\
  (forall (m : MathLibrary) (h : heap float) this orbit
          (o : orbit_fields float) (M : float),
     nth_error h orbit = Some (OKeplerianOrbit o) ->
     nth_error h this = Some (OMeanAnomaly M) ->
     o.(eccentricity) = 0%float ->
     PrimFloat.is_finite M = true ->
     PrimFloat.is_finite (m.(lib_sin) M) = true ->
     PrimFloat.is_finite (m.(lib_cos) M) = true ->
     residual (N := binary64 m) 0%float M M = 0%float /\
     newton_step (N := binary64 m) 0%float M M = M /\
     passes (N := binary64 m) 0%float M M 10 = 1%nat /\
     MeanAnomaly.eccentric_anomaly (N := binary64 m) this orbit h =
       (Normal (length h), h ++ [OEccentricAnomaly M])).
Proof.
  split.
  - intros h this orbit o M Ho Ht He.
    split; [ring|]. split.
    { rewrite residual_circular. reals. rewrite Rabs_R0.
      apply Rltb_true, tolerance_pos. }
    split.
    { pose proof (newton_step_circular M) as S.
      unfold newton_step, residual, derivative in S. reals. lra. }
    split; [apply passes_circular|].
    rewrite (eccentric_anomaly_run h this orbit o M Ho Ht).
    fold (mean_to_eccentric o M). now rewrite mean_to_eccentric_circular.
  - intros m h this orbit o M Ho Ht He FM Fs Fc.
    split; [now apply binary64_residual_circular|].
    split; [now apply binary64_newton_step_circular|].
    now apply binary64_circular_newton with (o := o).
Qed.





(** C6. [rotate_point] on a point [(x, y)]: with [y' = -y] when the
    orbit is clockwise and [y' = y] when it is not, the result is
    [(x cos w + y' sin w, y' cos w - x sin w)], [w] the argument of
    periapsis; and on an orbit constructed with [w = 0] the point [(1, 1)]
    goes to [(1, -1)] when the orbit is clockwise and to [(1, 1)] when it
    is not, in exact arithmetic and, on an engine whose [Math.cos(0)] is 1
    and [Math.sin(0)] is 0, in binary64. *)
Theorem rotate_point_orientation :
  (forall (num : Type) (N : Number num) (h : heap num) l
          (o : orbit_fields num) (p : Point num),
     nth_error h l = Some (OKeplerianOrbit o) ->
     let y' := if o.(clockwise) then (- p.(y))%js else p.(y) in
     let w := o.(argument_of_periapsis) in
     KeplerianOrbit.rotate_point l p h =
       (Normal {| x := (p.(x) * Math_cos w + y' * Math_sin w)%js;
                  y := (y' * Math_cos w - p.(x) * Math_sin w)%js |}, h)) /\
  (forall (a e : R) (cw : bool) h,
     (orbit <- KeplerianOrbit.constructor a (Some e) (Some 0) (Some cw) ;;
      KeplerianOrbit.rotate_point orbit {| x := 1; y := 1 |}) h =
       (Normal {| x := 1; y := if cw then - 1 else 1 |},
        h ++ [OKeplerianOrbit
                {| semimajor_axis := Rabs a; eccentricity := Rabs e;
                   argument_of_periapsis := 0; clockwise := cw |}])) /\
  (forall (m : MathLibrary) (cw : bool),
     m.(lib_cos) 0%float = 1%float -> m.(lib_sin) 0%float = 0%float ->
     (orbit <- KeplerianOrbit.constructor (N := binary64 m)
                 1%float None None (Some cw) ;;
      KeplerianOrbit.rotate_point (N := binary64 m) orbit
        {| x := 1%float; y := 1%float |}) [] =
       (Normal {| x := 1%float; y := if cw then (-1)%float else 1%float |},
        [OKeplerianOrbit
           {| semimajor_axis := 1%float; eccentricity := 0%float;
              argument_of_periapsis := 0%float; clockwise := cw |}])).
Proof.
  split; [|split].
  - intros num N h l o p Ho y' w. now rewrite (rotate_point_run h l o p Ho).
  - intros a e cw h.
    erewrite bind_normal by reflexivity.
    erewrite rotate_point_run by apply lookup_new.
    unfold rotated. reals. simpl. rewrite cos_0, sin_0.
    destruct cw; do 2 f_equal; f_equal; ring.
  - intros m cw. apply binary64_rotate_point.
Qed.

(** C2, at a failing input.  On the circular orbit of semimajor axis 1
    whose argument of periapsis is [PI / 2], the mean anomaly 0 converts
    to a true anomaly (of angle 0) that converts back to a mean anomaly of
    angle [PI / 2]: the round trip is off by the argument of periapsis,
    far above the tolerance. *)
Theorem round_trip_off_by_periapsis :
  fst ((orbit <- KeplerianOrbit.constructor 1 (Some 0) (Some (PI / 2)) (Some false) ;;
        M <- MeanAnomaly.constructor (Some 0) ;;
        nu <- MeanAnomaly.true_anomaly M orbit ;;
        M' <- TrueAnomaly.mean_anomaly nu orbit ;;
        MeanAnomaly.this_angle M') []) = Normal (PI / 2) /\
  @tolerance R real < Rabs (PI / 2 - 0).
Proof.
  pose proof PI_RGT_0 as P.
  set (o := {| semimajor_axis := Rabs 1; eccentricity := Rabs 0;
               argument_of_periapsis := PI / 2; clockwise := false |}).
  assert (He : o.(eccentricity) = 0) by apply Rabs_R0.
  assert (Ha : 0 < o.(semimajor_axis)) by (simpl; rewrite Rabs_R1; lra).
  split.
  - erewrite bind_normal by reflexivity.
    erewrite bind_normal by reflexivity.
    erewrite bind_normal
      by (apply (mean_true_anomaly_run _ 1%nat 0%nat o 0); reflexivity).
    rewrite mean_to_eccentric_circular by exact He.
    rewrite eccentric_to_true_circular by (assumption || lra).
    erewrite bind_normal
      by (apply (true_mean_anomaly_run _ 3%nat 0%nat o 0); reflexivity).
    rewrite true_to_eccentric_circular by (assumption || (simpl; lra)).
    rewrite eccentric_to_mean_circular by exact He.
    simpl. f_equal. lra.
  - unfold tolerance. reals. rewrite Rabs_right by lra. lra.
Qed.

End Claims.

(** ** The contracts at concrete inputs *)

Section AtConcreteInputs.

Local Open Scope R_scope.

(** C1 on the orbit [a = 1], [e = 1/2] and the mean anomaly 0. *)
Lemma newton_bounded_iteration_example :
  let h := example_store 1 (1 / 2) 0 [OMeanAnomaly 0] in
  exists k : nat,
    (1 <= k <= 10)%nat /\
    MeanAnomaly.eccentric_anomaly 1%nat 0%nat h =
      (Normal 2%nat, h ++ [OEccentricAnomaly (iterate (1 / 2) 0 0 k)]).
Proof.
  intros h.
  destruct (newton_bounded_iteration h 1%nat 0%nat
              (example_orbit 1 (1 / 2) 0) 0 eq_refl eq_refl)
    as (_ & _ & k & Hk & _ & _ & E).
  exists k. split; [exact Hk|exact E].
Defined.

(** C4 on the orbit [a = 1], [e = 1/2] and the mean anomaly 0. *)
Lemma radius_at_mean_anomaly_undefined_example :
  fst (MeanAnomaly.radius_at_mean_anomaly 1%nat 0%nat
         (example_store 1 (1 / 2) 0 [OMeanAnomaly 0])) = Normal VUndefined.
Proof.
  exact (proj1 (radius_at_mean_anomaly_undefined
                  (example_store 1 (1 / 2) 0 [OMeanAnomaly 0]) 1%nat 0%nat
                  (example_orbit 1 (1 / 2) 0) 0 eq_refl eq_refl)).
Defined.

Lemma one_in_range : - PI < 1 <= PI.
Proof. pose proof PI2_1. lra. Qed.




(** C10 on the circular orbit [a = 1] and the mean anomaly 1, in exact
    arithmetic and in binary64. *)
Lemma circular_newton_first_pass_example :
  (let h := example_store 1 0 0 [OMeanAnomaly 1] in
   passes 0 1 1 10 = 1%nat /\
   MeanAnomaly.eccentric_anomaly 1%nat 0%nat h =
     (Normal 2%nat, h ++ [OEccentricAnomaly 1])) /\
  (let h := [OKeplerianOrbit {| semimajor_axis := 1%float;
                                eccentricity := 0%float;
                                argument_of_periapsis := 0%float;
                                clockwise := false |};
             OMeanAnomaly 1%float] in
   MeanAnomaly.eccentric_anomaly (N := binary64 first_order) 1%nat 0%nat h =
     (Normal 2%nat, h ++ [OEccentricAnomaly 1%float])).
Proof.
  split.
  - intros h.
    destruct (proj1 circular_newton_first_pass h 1%nat 0%nat
                (example_orbit 1 0 0) 1 eq_refl eq_refl eq_refl)
      as (_ & _ & _ & P & E).
    split; [exact P|exact E].
  - intros h.
    exact (proj2 (proj2 (proj2
             (proj2 circular_newton_first_pass first_order h 1%nat 0%nat _
                1%float eq_refl eq_refl eq_refl eq_refl eq_refl eq_refl)))).
Defined.

End AtConcreteInputs.

(** ** Degrees *)

Section Degrees.

Context {num : Type} {N : Number num}.
Local Open Scope js_scope.

Implicit Types (h : heap num) (l this : loc) (ob : object num).

Lemma length_update h l ob : length (update h l ob) = length h.
Proof.
  revert l. induction h as [|a t IH]; intros [|l]; simpl; auto.
Qed.

Lemma lookup_update h l ob :
  l < length h -> nth_error (update h l ob) l = Some ob.
Proof.
  revert l. induction h as [|a t IH]; intros [|l] H; simpl in *;
    [lia|lia|reflexivity|]. apply IH. lia.
Qed.

Lemma lookup_update_other h l l' ob :
  l' <> l -> nth_error (update h l ob) l' = nth_error h l'.
Proof.
  revert l l'. induction h as [|a t IH]; intros [|l] [|l'] H; simpl;
    try reflexivity; [congruence|]. apply IH. congruence.
Qed.

Lemma update_same h l ob : nth_error h l = Some ob -> update h l ob = h.
Proof.
  revert l. induction h as [|a t IH]; intros [|l] H; simpl in *;
    try discriminate.
  - now inversion H.
  - f_equal. now apply IH.
Qed.

Lemma update_update h l ob ob' :
  update (update h l ob) l ob' = update h l ob'.
Proof.
  revert l. induction h as [|a t IH]; intros [|l]; simpl; try reflexivity.
  f_equal. apply IH.
Qed.

Lemma read_run h l ob : nth_error h l = Some ob -> read l h = (Normal ob, h).
Proof. intros E. unfold read. now rewrite E. Qed.

(** What [set_degrees] does to the store. *)
Lemma send_set_degrees_run h this ob (d : num) :
  nth_error h this = Some ob -> angle_of ob <> None ->
  send_set_degrees this d h =
  (Normal this, update h this (with_angle ob (d * (Math_PI / lit_180)))).
Proof.
  intros E A. unfold send_set_degrees.
  rewrite (bind_normal _ _ _ _ _ _ _ (read_run h this ob E)).
  destruct ob as [f|a|a|a]; [now destruct A| | |].
  - unfold TrueAnomaly.set_degrees, TrueAnomaly.set_this_angle.
    erewrite bind_normal; [reflexivity|].
    rewrite (bind_normal _ _ _ _ _ _ _ (true_angle_run _ _ _ E)).
    unfold write. now rewrite E.
  - unfold EccentricAnomaly.set_degrees, EccentricAnomaly.set_this_angle.
    erewrite bind_normal; [reflexivity|].
    rewrite (bind_normal _ _ _ _ _ _ _ (eccentric_angle_run _ _ _ E)).
    unfold write. now rewrite E.
  - unfold MeanAnomaly.set_degrees, MeanAnomaly.set_this_angle.
    erewrite bind_normal; [reflexivity|].
    rewrite (bind_normal _ _ _ _ _ _ _ (mean_angle_run _ _ _ E)).
    unfold write. now rewrite E.
Qed.

Lemma send_get_degrees_run h this ob (a : num) :
  nth_error h this = Some ob -> angle_of ob = Some a ->
  send_get_degrees this h = (Normal (a * (lit_180 / Math_PI)), h).
Proof.
  intros E A. unfold send_get_degrees.
  rewrite (bind_normal _ _ _ _ _ _ _ (read_run h this ob E)).
  destruct ob as [f|b|b|b]; try discriminate A; injection A as ->.
  - unfold TrueAnomaly.get_degrees.
    now rewrite (bind_normal _ _ _ _ _ _ _ (true_angle_run _ _ _ E)).
  - unfold EccentricAnomaly.get_degrees.
    now rewrite (bind_normal _ _ _ _ _ _ _ (eccentric_angle_run _ _ _ E)).
  - unfold MeanAnomaly.get_degrees.
    now rewrite (bind_normal _ _ _ _ _ _ _ (mean_angle_run _ _ _ E)).
Qed.

Lemma angle_of_with_angle ob (a : num) :
  angle_of ob <> None -> angle_of (with_angle ob a) = Some a.
Proof. destruct ob; simpl; congruence. Qed.

Lemma with_angle_twice ob (a b : num) :
  with_angle (with_angle ob a) b = with_angle ob b.
Proof. now destruct ob. Qed.

(** X1. [set_degrees] works in place.  Called on an anomaly of any of the
    three classes it completes normally and hands back its receiver; the
    store keeps its size, the receiver keeps its class and has the angle
    [d * (PI / 180)], and every other object is what it was.  Two calls in
    a chain, [a.set_degrees(d1).set_degrees(d2)], leave what the second
    alone leaves.  An orbit has no such method: the call throws. *)
Theorem set_degrees_in_place h this ob (d : num) :
  nth_error h this = Some ob ->
  match angle_of ob with
  | Some _ =>
      fst (send_set_degrees this d h) = Normal this /\
      length (snd (send_set_degrees this d h)) = length h /\
      nth_error (snd (send_set_degrees this d h)) this =
        Some (with_angle ob (d * (Math_PI / lit_180))) /\
      (forall l, l <> this ->
         nth_error (snd (send_set_degrees this d h)) l = nth_error h l) /\
      (forall d1, (a <- send_set_degrees this d1 ;; send_set_degrees a d) h =
                  send_set_degrees this d h)
  | None =>
      send_set_degrees this d h = (Throw (TypeError "not a function"), h)
  end.
Proof.
  intros E. destruct (angle_of ob) as [a|] eqn:A.
  - assert (A' : angle_of ob <> None) by congruence.
    assert (B : this < length h) by (apply nth_error_Some; congruence).
    rewrite (send_set_degrees_run h this ob d E A'). simpl.
    split; [reflexivity|]. split; [apply length_update|].
    split; [now apply lookup_update|].
    split; [intros l Hl; now apply lookup_update_other|].
    intros d1.
    rewrite (bind_normal _ _ _ _ _ _ _ (send_set_degrees_run h this ob d1 E A')).
    erewrite send_set_degrees_run.
    + now rewrite update_update, with_angle_twice.
    + now apply lookup_update.
    + rewrite angle_of_with_angle; congruence.
  - destruct ob; try discriminate A.
    unfold send_set_degrees, bind, read. now rewrite E.
Qed.

End Degrees.

Section DegreesOverTheReals.

Local Open Scope R_scope.

Implicit Types (h : heap R) (l this : loc) (ob : object R).

(** X2. In exact arithmetic degrees and radians convert back and forth
    without loss: [a.set_degrees(d).get_degrees()] is [d], and
    [a.set_degrees(a.get_degrees())] leaves the store as it was, on an
    anomaly of any of the three classes. *)
Theorem degrees_round_trip h this ob (a d : R) :
  nth_error h this = Some ob -> angle_of ob = Some a ->
  fst ((l <- send_set_degrees this d ;; send_get_degrees l) h) = Normal d /\
  (g <- send_get_degrees this ;; send_set_degrees this g) h = (Normal this, h).
Proof.
  intros E A. pose proof PI_RGT_0 as P.
  assert (A' : angle_of ob <> None) by congruence.
  assert (B : (this < length h)%nat) by (apply nth_error_Some; congruence).
  split.
  - rewrite (bind_normal _ _ _ _ _ _ _ (send_set_degrees_run h this ob d E A')).
    erewrite send_get_degrees_run;
      [|now apply lookup_update|now apply angle_of_with_angle].
    simpl. f_equal. reals. field. lra.
  - rewrite (bind_normal _ _ _ _ _ _ _ (send_get_degrees_run h this ob a E A)).
    rewrite (send_set_degrees_run h this ob _ E A'). f_equal.
    apply update_same. rewrite E. f_equal.
    replace (a * (lit_180 / Math_PI) * (Math_PI / lit_180))%js with a
      by (reals; field; lra).
    destruct ob; try discriminate A; injection A as ->; reflexivity.
Qed.

End DegreesOverTheReals.

(** ** The geometry of the ellipse, in exact arithmetic *)

Section Geometry.

Local Open Scope R_scope.

Implicit Types (h : heap R) (l this orbit : loc) (o : orbit_fields R).

(** *** The angle of a point *)

Lemma norm_factor x y :
  x <> 0 -> sqrt (x * x + y * y) = Rabs x * sqrt (1 + (y / x)²).
Proof.
  intros Hx.
  replace (x * x + y * y) with (x² * (1 + (y / x)²))
    by (unfold Rsqr; field; exact Hx).
  rewrite sqrt_mult_alt by apply Rle_0_sqr.
  now rewrite sqrt_Rsqr_abs.
Qed.

Lemma sqrt_one_plus_sqr_pos t : 0 < sqrt (1 + t²).
Proof. apply sqrt_lt_R0. pose proof (Rle_0_sqr t). lra. Qed.

(** [Ratan2 y x] is the angle of [(x, y)]: the point is at its distance
    from the origin in that direction. *)
Lemma Ratan2_direction y x :
  x <> 0 \/ y <> 0 ->
  sqrt (x * x + y * y) * cos (Ratan2 y x) = x /\
  sqrt (x * x + y * y) * sin (Ratan2 y x) = y.
Proof.
  intros H. unfold Ratan2.
  pose proof (sqrt_one_plus_sqr_pos (y / x)) as S.
  destruct (Rlt_dec 0 x) as [Hx|Hx].
  - rewrite norm_factor, Rabs_right, cos_atan, sin_atan by lra.
    split; field; lra.
  - destruct (Rlt_dec x 0) as [Hx'|Hx'].
    + rewrite norm_factor, Rabs_left by lra.
      destruct (Rle_dec 0 y).
      * rewrite neg_cos, neg_sin, cos_atan, sin_atan. split; field; lra.
      * replace (atan (y / x) - PI) with (- (PI - atan (y / x))) by ring.
        rewrite cos_neg, sin_neg, Rtrigo_facts.cos_pi_minus, sin_PI_x,
          cos_atan, sin_atan.
        split; field; lra.
    + assert (x = 0) by lra. subst x.
      replace (0 * 0 + y * y) with (y * y) by ring.
      destruct (Rlt_dec 0 y) as [Hy|Hy].
      * rewrite sqrt_square, cos_PI2, sin_PI2 by lra. split; ring.
      * destruct (Rlt_dec y 0) as [Hy'|Hy']; [|destruct H; lra].
        replace (y * y) with (- y * - y) by ring.
        rewrite sqrt_square, cos_neg, sin_neg, cos_PI2, sin_PI2 by lra.
        split; ring.
Qed.

(** On the unit circle [Ratan2] inverts cosine and sine. *)
Lemma Ratan2_unit v u :
  u * u + v * v = 1 -> cos (Ratan2 v u) = u /\ sin (Ratan2 v u) = v.
Proof.
  intros H.
  assert (N : u <> 0 \/ v <> 0).
  { destruct (Req_dec u 0) as [->|]; [right|now left]. intros ->. lra. }
  destruct (Ratan2_direction v u N) as [C S].
  rewrite H, sqrt_1 in C, S. split; lra.
Qed.


(** *** The ellipse *)

Lemma semiminor_sqr o :
  0 <= o.(eccentricity) <= 1 ->
  semiminor o * semiminor o =
  o.(semimajor_axis) * o.(semimajor_axis) *
  (1 - o.(eccentricity) * o.(eccentricity)).
Proof.
  intros He. unfold semiminor. reals.
  set (q := 1 - eccentricity o * eccentricity o).
  assert (Q : sqrt q * sqrt q = q) by (apply sqrt_sqrt; unfold q; nra).
  transitivity (semimajor_axis o * semimajor_axis o * (sqrt q * sqrt q));
    [ring|now rewrite Q].
Qed.

Lemma semiminor_bounds o :
  0 <= o.(semimajor_axis) -> 0 <= o.(eccentricity) <= 1 ->
  0 <= semiminor o <= o.(semimajor_axis).
Proof.
  intros Ha He. unfold semiminor. reals.
  set (q := 1 - eccentricity o * eccentricity o).
  assert (0 <= sqrt q) by apply sqrt_pos.
  assert (sqrt q <= 1).
  { rewrite <- sqrt_1. apply sqrt_le_1_alt. unfold q. nra. }
  split; nra.
Qed.

Lemma semiminor_pos o :
  0 < o.(semimajor_axis) -> 0 <= o.(eccentricity) < 1 -> 0 < semiminor o.
Proof.
  intros Ha He. unfold semiminor. reals.
  apply Rmult_lt_0_compat; [exact Ha|]. apply sqrt_lt_R0. nra.
Qed.

(** The distance of the point of an eccentric anomaly from the focus. *)
Lemma eccentric_norm o (E : R) :
  0 <= o.(semimajor_axis) -> 0 <= o.(eccentricity) <= 1 ->
  norm (eccentric_point o E) =
  o.(semimajor_axis) * (1 - o.(eccentricity) * cos E).
Proof.
  intros Ha He. pose proof (COS_bound E) as C.
  pose proof (semiminor_sqr o He) as B. pose proof (sin2_cos2 E) as T.
  unfold Rsqr in T.
  unfold norm, eccentric_point, focal. reals. cbn [x y].
  set (a := semimajor_axis o) in *. set (e := eccentricity o) in *.
  set (b := semiminor o) in *.
  replace ((cos E * a - e * a) * (cos E * a - e * a) +
           sin E * b * (sin E * b))
    with ((a * (1 - e * cos E)) * (a * (1 - e * cos E))).
  - apply sqrt_square. apply Rmult_le_pos; nra.
  - transitivity ((cos E * a - e * a) * (cos E * a - e * a) +
                  sin E * sin E * (b * b)); [|ring].
    rewrite B. replace (sin E * sin E) with (1 - cos E * cos E) by lra. ring.
Qed.

(** The true anomaly an eccentric anomaly converts to is the direction of
    its point. *)
Lemma eccentric_to_true_direction o (E : R) :
  0 < o.(semimajor_axis) -> 0 <= o.(eccentricity) < 1 ->
  let rho := o.(semimajor_axis) * (1 - o.(eccentricity) * cos E) in
  0 < rho /\
  rho * cos (eccentric_to_true o E) = (eccentric_point o E).(x) /\
  rho * sin (eccentric_to_true o E) = (eccentric_point o E).(y).
Proof.
  intros Ha He rho. pose proof (COS_bound E) as C.
  assert (P : 0 < rho) by (apply Rmult_lt_0_compat; nra).
  split; [exact P|].
  pose proof (eccentric_norm o E ltac:(lra) ltac:(lra)) as Nm.
  fold rho in Nm. unfold norm in Nm. reals.
  unfold eccentric_to_true. reals. rewrite <- Nm.
  apply Ratan2_direction.
  destruct (Req_dec (x (eccentric_point o E)) 0) as [Zx|]; [|now left].
  right. intros Zy. rewrite Zx, Zy in Nm.
  replace (0 * 0 + 0 * 0) with 0 in Nm by ring. rewrite sqrt_0 in Nm. lra.
Qed.

(** The closed form of the radius at that true anomaly is that
    distance. *)
Lemma true_radius_of_eccentric o (E : R) :
  0 < o.(semimajor_axis) -> 0 <= o.(eccentricity) < 1 ->
  true_radius o (eccentric_to_true o E) =
  o.(semimajor_axis) * (1 - o.(eccentricity) * cos E).
Proof.
  intros Ha He. pose proof (COS_bound E) as C.
  destruct (eccentric_to_true_direction o E Ha He) as (P & X & _).
  cbv zeta in P, X. unfold eccentric_point, focal in X. cbn [x] in X. reals.
  unfold true_radius. reals.
  set (a := semimajor_axis o) in *. set (e := eccentricity o) in *.
  set (c := cos (eccentric_to_true o E)) in *.
  assert (D : a * (1 - e * cos E) * (1 + e * c) = a * (1 - e * e)).
  { transitivity (a * (1 - e * cos E) + e * (a * (1 - e * cos E) * c));
      [ring|]. rewrite X. ring. }
  assert (Q : 0 < a * (1 - e * e)) by (apply Rmult_lt_0_compat; nra).
  assert (1 + e * c <> 0) by (intros Z; rewrite Z in D; lra).
  rewrite <- D. field. assumption.
Qed.

Lemma true_point_of_eccentric o (E : R) :
  0 < o.(semimajor_axis) -> 0 <= o.(eccentricity) < 1 ->
  o.(argument_of_periapsis) = 0 ->
  true_point o (eccentric_to_true o E) = eccentric_point o E.
Proof.
  intros Ha He Hw.
  destruct (eccentric_to_true_direction o E Ha He) as (P & X & Y).
  cbv zeta in P, X, Y.
  unfold true_point. rewrite true_radius_of_eccentric by assumption.
  rewrite Hw. reals. rewrite Rplus_0_r.
  destruct (eccentric_point o E) as [px py]. cbn [x y] in *.
  f_equal; lra.
Qed.

Lemma true_to_eccentric_of_point o (E : R) p :
  0 < o.(semimajor_axis) -> 0 <= o.(eccentricity) < 1 ->
  - PI < E <= PI -> p = eccentric_point o E ->
  Ratan2 (p.(y) / semiminor o) ((p.(x) + focal o) / o.(semimajor_axis)) = E.
Proof.
  intros Ha He HE ->. pose proof (semiminor_pos o Ha He) as B.
  unfold eccentric_point. cbn [x y].  reals.
  replace (sin E * semiminor o / semiminor o) with (1 * sin E)
    by (field; lra).
  replace ((cos E * semimajor_axis o - focal o + focal o) / semimajor_axis o)
    with (1 * cos E) by (field; lra).
  apply Ratan2_polar; lra.
Qed.

Lemma eccentric_true_eccentric o (E : R) :
  0 < o.(semimajor_axis) -> 0 <= o.(eccentricity) < 1 ->
  o.(argument_of_periapsis) = 0 -> - PI < E <= PI ->
  true_to_eccentric o (eccentric_to_true o E) = E.
Proof.
  intros Ha He Hw HE. unfold true_to_eccentric.
  rewrite true_point_of_eccentric by assumption. reals.
  now apply true_to_eccentric_of_point.
Qed.


Lemma true_radius_pos o (nu : R) :
  0 < o.(semimajor_axis) -> 0 <= o.(eccentricity) < 1 ->
  0 < true_radius o nu.
Proof.
  intros Ha He. pose proof (COS_bound nu) as C. unfold true_radius. reals.
  apply Rdiv_lt_0_compat; [apply Rmult_lt_0_compat|]; nra.
Qed.

(** The point of a true anomaly lies on the ellipse of the orbit, when the
    argument of periapsis is 0. *)
Lemma true_point_on_ellipse o (nu : R) :
  0 < o.(semimajor_axis) -> 0 <= o.(eccentricity) < 1 ->
  o.(argument_of_periapsis) = 0 ->
  let u := ((true_point o nu).(x) + focal o) / o.(semimajor_axis) in
  let v := (true_point o nu).(y) / semiminor o in
  u * u + v * v = 1.
Proof.
  intros Ha He Hw u v. pose proof (COS_bound nu) as C.
  pose proof (semiminor_pos o Ha He) as B.
  pose proof (semiminor_sqr o ltac:(lra)) as B2.
  pose proof (sin2_cos2 nu) as T. unfold Rsqr in T.
  assert (R : true_radius o nu * (1 + o.(eccentricity) * cos nu) =
              o.(semimajor_axis) * (1 - o.(eccentricity) * o.(eccentricity))).
  { unfold true_radius. reals. field. nra. }
  unfold u, v, true_point, focal. cbn [x y]. rewrite Hw. reals.
  rewrite Rplus_0_r.
  set (a := semimajor_axis o) in *. set (e := eccentricity o) in *.
  set (b := semiminor o) in *. set (r := true_radius o nu) in *.
  set (c := cos nu) in *. set (s := sin nu) in *.
  assert (K : (c * r + e * a) * (c * r + e * a) * (b * b) +
              s * r * (s * r) * (a * a) = a * a * (b * b)).
  { assert (D : 0 < 1 + e * c) by nra.
    apply Rmult_eq_reg_r with ((1 + e * c) * (1 + e * c));
      [|apply Rgt_not_eq, Rmult_lt_0_compat; exact D].
    transitivity
      ((c * (r * (1 + e * c)) + e * a * (1 + e * c)) *
       (c * (r * (1 + e * c)) + e * a * (1 + e * c)) * (b * b) +
       s * s * ((r * (1 + e * c)) * (r * (1 + e * c))) * (a * a)); [ring|].
    rewrite R, B2. replace (s * s) with (1 - c * c) by lra. ring. }
  transitivity
    (((c * r + e * a) * (c * r + e * a) * (b * b) +
      s * r * (s * r) * (a * a)) / (a * a * (b * b))); [field; lra|].
  rewrite K. field. lra.
Qed.

Lemma true_eccentric_true o (nu : R) :
  0 < o.(semimajor_axis) -> 0 <= o.(eccentricity) < 1 ->
  o.(argument_of_periapsis) = 0 -> - PI < nu <= PI ->
  eccentric_point o (true_to_eccentric o nu) = true_point o nu /\
  eccentric_to_true o (true_to_eccentric o nu) = nu.
Proof.
  intros Ha He Hw Hnu.
  pose proof (semiminor_pos o Ha He) as B.
  pose proof (true_radius_pos o nu Ha He) as P.
  assert (Pt : eccentric_point o (true_to_eccentric o nu) = true_point o nu).
  { destruct (Ratan2_unit _ _ (true_point_on_ellipse o nu Ha He Hw)) as [C S].
    unfold eccentric_point, true_to_eccentric. reals. rewrite C, S.
    destruct (true_point o nu) as [px py]. cbn [x y].
    f_equal; field; lra. }
  split; [exact Pt|].
  unfold eccentric_to_true. rewrite Pt.
  unfold true_point. cbn [x y]. rewrite Hw. reals. rewrite Rplus_0_r.
  rewrite (Rmult_comm (sin nu)), (Rmult_comm (cos nu)).
  now apply Ratan2_polar.
Qed.


Lemma div_between lo hi n d :
  0 < d -> lo * d <= n <= hi * d -> lo <= n / d <= hi.
Proof.
  intros Hd [L U].
  split; apply Rmult_le_reg_r with d; try exact Hd;
    replace (n / d * d) with n by (field; lra); assumption.
Qed.

(** *** The contracts *)

(** X3. The axes of the ellipse.  On an orbit whose eccentricity [e] lies in
    [[0, 1]] and whose semimajor axis [a] is not negative, the semiminor
    axis [b] and the focal distance [f] satisfy [b^2 + f^2 = a^2], both lie
    between 0 and [a], and the periapsis and the apoapsis are [a - f] and
    [a + f]. *)
Theorem ellipse_axes h orbit o :
  nth_error h orbit = Some (OKeplerianOrbit o) ->
  0 <= o.(semimajor_axis) -> 0 <= o.(eccentricity) <= 1 ->
  exists b f,
    KeplerianOrbit.semiminor_axis orbit h = (Normal b, h) /\
    KeplerianOrbit.focal_point orbit h = (Normal f, h) /\
    b * b + f * f = o.(semimajor_axis) * o.(semimajor_axis) /\
    0 <= b <= o.(semimajor_axis) /\ 0 <= f <= o.(semimajor_axis) /\
    KeplerianOrbit.periapsis orbit h = (Normal (o.(semimajor_axis) - f), h) /\
    KeplerianOrbit.apoapsis orbit h = (Normal (o.(semimajor_axis) + f), h).
Proof.
  intros Ho Ha He. exists (semiminor o), (focal o).
  split; [eapply semiminor_axis_run; eassumption|].
  split; [eapply focal_point_run; eassumption|].
  split.
  { rewrite semiminor_sqr by exact He. unfold focal. reals. ring. }
  split; [now apply semiminor_bounds|].
  split; [unfold focal; reals; nra|].
  rewrite (periapsis_run _ _ _ Ho), (apoapsis_run _ _ _ Ho).
  unfold focal. reals. split; do 2 f_equal; ring.
Qed.

(** X4. The radius of a true anomaly stays between the apsides.  On an orbit
    with [0 <= e < 1] and [a >= 0], [radius] is at least [periapsis()] and
    at most [apoapsis()] whatever the angle, it is [periapsis()] at the
    angle 0 and [apoapsis()] at the angle [PI]. *)
Theorem radius_between_apsides h this orbit o (nu : R) :
  nth_error h orbit = Some (OKeplerianOrbit o) ->
  nth_error h this = Some (OTrueAnomaly nu) ->
  0 <= o.(semimajor_axis) -> 0 <= o.(eccentricity) < 1 ->
  exists r rp ra,
    TrueAnomaly.radius this orbit h = (Normal r, h) /\
    KeplerianOrbit.periapsis orbit h = (Normal rp, h) /\
    KeplerianOrbit.apoapsis orbit h = (Normal ra, h) /\
    rp <= r <= ra /\
    (nu = 0 -> r = rp) /\ (nu = PI -> r = ra).
Proof.
  intros Ho Ht Ha He. pose proof (COS_bound nu) as C.
  exists (true_radius o nu). do 2 eexists.
  split; [eapply true_radius_run; eassumption|].
  split; [eapply periapsis_run; eassumption|].
  split; [eapply apoapsis_run; eassumption|].
  unfold true_radius. reals.
  set (a := semimajor_axis o) in *. set (e := eccentricity o) in *.
  assert (D : 0 < 1 + e * cos nu) by nra.
  split; [|split].
  - apply div_between; [exact D|].
    assert (0 <= a * (1 - e)) by nra. assert (0 <= a * (1 + e)) by nra.
    assert (- e <= e * cos nu <= e) by nra.
    split.
    + transitivity (a * (1 - e) * (1 + e)); [|right; ring].
      replace ((1 - e) * a * (1 + e * cos nu))
        with (a * (1 - e) * (1 + e * cos nu)) by ring.
      apply Rmult_le_compat_l; lra.
    + transitivity (a * (1 + e) * (1 - e)); [right; ring|].
      replace ((1 + e) * a * (1 + e * cos nu))
        with (a * (1 + e) * (1 + e * cos nu)) by ring.
      apply Rmult_le_compat_l; lra.
  - intros ->. rewrite cos_0. field. lra.
  - intros ->. rewrite cos_PI. field. lra.
Qed.

(** X5. The point of an eccentric anomaly lies on the ellipse of the orbit.
    With [0 <= e <= 1] and [a >= 0], the point [(x, y)] that [point] gives
    satisfies [b^2 (x + f)^2 + a^2 y^2 = a^2 b^2], and its distance from
    the focus is [a (1 - e cos E)], which lies between [periapsis()] and
    [apoapsis()]. *)
Theorem eccentric_point_on_ellipse h this orbit o (E : R) :
  nth_error h orbit = Some (OKeplerianOrbit o) ->
  nth_error h this = Some (OEccentricAnomaly E) ->
  0 <= o.(semimajor_axis) -> 0 <= o.(eccentricity) <= 1 ->
  exists p b f rp ra,
    EccentricAnomaly.point this orbit h = (Normal p, h) /\
    KeplerianOrbit.semiminor_axis orbit h = (Normal b, h) /\
    KeplerianOrbit.focal_point orbit h = (Normal f, h) /\
    KeplerianOrbit.periapsis orbit h = (Normal rp, h) /\
    KeplerianOrbit.apoapsis orbit h = (Normal ra, h) /\
    b * b * ((p.(x) + f) * (p.(x) + f)) +
      o.(semimajor_axis) * o.(semimajor_axis) * (p.(y) * p.(y)) =
      o.(semimajor_axis) * o.(semimajor_axis) * (b * b) /\
    norm p = o.(semimajor_axis) * (1 - o.(eccentricity) * cos E) /\
    rp <= norm p <= ra.
Proof.
  intros Ho Ht Ha He. pose proof (COS_bound E) as C.
  exists (eccentric_point o E), (semiminor o), (focal o). do 2 eexists.
  split; [eapply eccentric_point_run; eassumption|].
  split; [eapply semiminor_axis_run; eassumption|].
  split; [eapply focal_point_run; eassumption|].
  split; [eapply periapsis_run; eassumption|].
  split; [eapply apoapsis_run; eassumption|].
  split.
  { pose proof (sin2_cos2 E) as T. unfold Rsqr in T.
    unfold eccentric_point. cbn [x y]. reals.
    replace (cos E * semimajor_axis o - focal o + focal o)
      with (cos E * semimajor_axis o) by ring.
    transitivity (semimajor_axis o * semimajor_axis o *
                  (semiminor o * semiminor o) *
                  (sin E * sin E + cos E * cos E)); [ring|].
    rewrite T. ring. }
  rewrite eccentric_norm by assumption.
  split; [reflexivity|]. reals.
  assert (- eccentricity o <= eccentricity o * cos E <= eccentricity o) by nra.
  rewrite !(Rmult_comm _ (semimajor_axis o)).
  split; apply Rmult_le_compat_l; lra.
Qed.

(** X6. The two ways to the radius agree.  On an orbit with [0 <= e < 1] and
    [a > 0], the closed form [TrueAnomaly.radius] evaluates, at the true
    anomaly an eccentric anomaly converts to, is the distance of the point
    of that eccentric anomaly from the focus, [a (1 - e cos E)]; and when
    the argument of periapsis is 0 the two anomalies have the same
    point. *)
Theorem eccentric_true_radius_agree h this orbit o (E : R) :
  nth_error h orbit = Some (OKeplerianOrbit o) ->
  nth_error h this = Some (OEccentricAnomaly E) ->
  0 < o.(semimajor_axis) -> 0 <= o.(eccentricity) < 1 ->
  exists p,
    EccentricAnomaly.point this orbit h = (Normal p, h) /\
    fst ((nu <- EccentricAnomaly.true_anomaly this orbit ;;
          TrueAnomaly.radius nu orbit) h) = Normal (norm p) /\
    norm p = o.(semimajor_axis) * (1 - o.(eccentricity) * cos E) /\
    (o.(argument_of_periapsis) = 0 ->
     fst ((nu <- EccentricAnomaly.true_anomaly this orbit ;;
           TrueAnomaly.point nu orbit) h) = Normal p).
Proof.
  intros Ho Ht Ha He. exists (eccentric_point o E).
  pose proof (eccentric_true_anomaly_run h this orbit o E Ho Ht) as T.
  assert (Ho' : nth_error (h ++ [OTrueAnomaly (eccentric_to_true o E)]) orbit =
                Some (OKeplerianOrbit o)) by now apply lookup_extend.
  split; [eapply eccentric_point_run; eassumption|].
  rewrite eccentric_norm by lra.
  split; [|split; [reflexivity|]].
  - rewrite (bind_normal _ _ _ _ _ _ _ T).
    erewrite true_radius_run by (exact Ho' || apply lookup_new).
    simpl. f_equal. now apply true_radius_of_eccentric.
  - intros Hw. rewrite (bind_normal _ _ _ _ _ _ _ T).
    erewrite true_point_run by (exact Ho' || apply lookup_new).
    simpl. f_equal. now apply true_point_of_eccentric.
Qed.

(** X7. From an eccentric anomaly to the true anomaly and back.  On an orbit
    with [0 <= e < 1], [a > 0] and argument of periapsis 0, the round trip
    gives the angle [E] back exactly when [E] lies in [(-PI, PI]]: the
    angle that comes back always lies there. *)
Theorem eccentric_true_round_trip h this orbit o (E : R) :
  nth_error h orbit = Some (OKeplerianOrbit o) ->
  nth_error h this = Some (OEccentricAnomaly E) ->
  0 < o.(semimajor_axis) -> 0 <= o.(eccentricity) < 1 ->
  o.(argument_of_periapsis) = 0 ->
  exists E',
    fst ((nu <- EccentricAnomaly.true_anomaly this orbit ;;
          back <- TrueAnomaly.eccentric_anomaly nu orbit ;;
          EccentricAnomaly.this_angle back) h) = Normal E' /\
    - PI < E' <= PI /\
    (E' = E <-> - PI < E <= PI).
Proof.
  intros Ho Ht Ha He Hw.
  exists (true_to_eccentric o (eccentric_to_true o E)).
  pose proof (eccentric_true_anomaly_run h this orbit o E Ho Ht) as T.
  split; [|split].
  - rewrite (bind_normal _ _ _ _ _ _ _ T).
    erewrite bind_normal
      by (apply true_eccentric_anomaly_run;
          [apply lookup_extend; exact Ho|apply lookup_new]).
    erewrite eccentric_angle_run; [reflexivity|apply lookup_new].
  - apply Ratan2_bound.
  - split.
    + intros <-. apply Ratan2_bound.
    + now apply eccentric_true_eccentric.
Qed.

(** X8. From a true anomaly to the eccentric anomaly and back, under the same
    conditions: the round trip gives the angle [nu] back exactly when [nu]
    lies in [(-PI, PI]], and the eccentric anomaly in between has the
    point of the true anomaly. *)
Theorem true_eccentric_round_trip h this orbit o (nu : R) :
  nth_error h orbit = Some (OKeplerianOrbit o) ->
  nth_error h this = Some (OTrueAnomaly nu) ->
  0 < o.(semimajor_axis) -> 0 <= o.(eccentricity) < 1 ->
  o.(argument_of_periapsis) = 0 ->
  exists nu',
    fst ((E <- TrueAnomaly.eccentric_anomaly this orbit ;;
          back <- EccentricAnomaly.true_anomaly E orbit ;;
          TrueAnomaly.this_angle back) h) = Normal nu' /\
    - PI < nu' <= PI /\
    (nu' = nu <-> - PI < nu <= PI) /\
    (- PI < nu <= PI ->
     fst ((E <- TrueAnomaly.eccentric_anomaly this orbit ;;
           EccentricAnomaly.point E orbit) h) =
     fst (TrueAnomaly.point this orbit h)).
Proof.
  intros Ho Ht Ha He Hw.
  exists (eccentric_to_true o (true_to_eccentric o nu)).
  pose proof (true_eccentric_anomaly_run h this orbit o nu Ho Ht) as T.
  assert (Ho' : nth_error (h ++ [OEccentricAnomaly (true_to_eccentric o nu)])
                  orbit = Some (OKeplerianOrbit o)) by now apply lookup_extend.
  split; [|split; [|split]].
  - rewrite (bind_normal _ _ _ _ _ _ _ T).
    erewrite bind_normal
      by (apply eccentric_true_anomaly_run; [exact Ho'|apply lookup_new]).
    erewrite true_angle_run; [reflexivity|apply lookup_new].
  - apply Ratan2_bound.
  - split.
    + intros <-. apply Ratan2_bound.
    + now apply true_eccentric_true.
  - intros Hnu. rewrite (bind_normal _ _ _ _ _ _ _ T).
    erewrite eccentric_point_run by (exact Ho' || apply lookup_new).
    rewrite (true_point_run h this orbit o nu Ho Ht). simpl. f_equal.
    now apply true_eccentric_true.
Qed.

End Geometry.

(** ** Rotations, in exact arithmetic *)

Section Rotations.

Local Open Scope R_scope.

Implicit Types (h : heap R) (l this orbit : loc) (o : orbit_fields R).

(** X9. [rotate_point] keeps distances and can be undone.  The point it gives
    is as far from the origin as the point it was given; on a clockwise
    orbit the operation is its own inverse; on a counterclockwise orbit it
    is undone by [rotate_point] of a counterclockwise orbit with the
    opposite argument of periapsis. *)
Theorem rotate_point_isometry h orbit o (p : Point R) :
  nth_error h orbit = Some (OKeplerianOrbit o) ->
  exists q,
    KeplerianOrbit.rotate_point orbit p h = (Normal q, h) /\
    q.(x) * q.(x) + q.(y) * q.(y) = p.(x) * p.(x) + p.(y) * p.(y) /\
    norm q = norm p /\
    (o.(clockwise) = true ->
     KeplerianOrbit.rotate_point orbit q h = (Normal p, h)) /\
    (o.(clockwise) = false ->
     forall back o',
       nth_error h back = Some (OKeplerianOrbit o') ->
       o'.(clockwise) = false ->
       o'.(argument_of_periapsis) = - o.(argument_of_periapsis) ->
       KeplerianOrbit.rotate_point back q h = (Normal p, h)).
Proof.
  intros Ho. eexists. split; [exact (rotate_point_run _ _ _ _ Ho)|].
  pose proof (sin2_cos2 o.(argument_of_periapsis)) as T. unfold Rsqr in T.
  destruct p as [px py]. unfold rotated. cbn [x y]. reals.
  set (c := cos (argument_of_periapsis o)) in *.
  set (s := sin (argument_of_periapsis o)) in *.
  assert (K : forall u v : R,
             (u * c + v * s) * (u * c + v * s) +
             (v * c - u * s) * (v * c - u * s) = u * u + v * v).
  { intros u v.
    transitivity ((u * u + v * v) * (s * s + c * c)); [ring|].
    rewrite T. ring. }
  assert (L : forall u v : R,
             (u * c + v * s) * c - (v * c - u * s) * s = u /\
             (v * c - u * s) * c + (u * c + v * s) * s = v).
  { intros u v. split.
    - transitivity (u * (s * s + c * c)); [ring|]. rewrite T. ring.
    - transitivity (v * (s * s + c * c)); [ring|]. rewrite T. ring. }
  split; [|split; [|split]].
  - destruct (clockwise o); rewrite K; ring.
  - unfold norm. cbn [x y]. reals. f_equal.
    destruct (clockwise o); rewrite K; ring.
  - intros Hc. rewrite (rotate_point_run _ _ _ _ Ho). rewrite Hc.
    unfold rotated. cbn [x y]. reals. fold c s.
    destruct (L px (- py)) as [Lx Ly].
    do 2 f_equal; f_equal; lra.
  - intros Hc back o' Hb Hc' Hw. rewrite (rotate_point_run _ _ _ _ Hb).
    rewrite Hc, Hc', Hw. unfold rotated. cbn [x y]. reals.
    rewrite cos_neg, sin_neg. fold c s.
    destruct (L px py) as [Lx Ly].
    do 2 f_equal; f_equal; lra.
Qed.

(** X10. The argument of periapsis cancels in [TrueAnomaly.point2d].  [point]
    adds it to the angle and [rotate_point] takes it off again: on a
    counterclockwise orbit the point in local space is
    [(r cos nu, r sin nu)], whatever the argument of periapsis [w]; on a
    clockwise orbit it is [(r cos (nu + 2 w), - r sin (nu + 2 w))]. *)
Theorem true_point2d_cancels_periapsis h this orbit o (nu : R) :
  nth_error h orbit = Some (OKeplerianOrbit o) ->
  nth_error h this = Some (OTrueAnomaly nu) ->
  exists r,
    TrueAnomaly.radius this orbit h = (Normal r, h) /\
    TrueAnomaly.point2d this orbit h =
      (Normal
         (if o.(clockwise)
          then {| x := r * cos (nu + 2 * o.(argument_of_periapsis));
                  y := - (r * sin (nu + 2 * o.(argument_of_periapsis))) |}
          else {| x := r * cos nu; y := r * sin nu |}), h).
Proof.
  intros Ho Ht. exists (true_radius o nu).
  split; [now apply true_radius_run|].
  rewrite (true_point2d_run h this orbit o nu Ho Ht).
  unfold rotated, true_point. cbn [x y]. reals.
  set (w := argument_of_periapsis o). set (r := true_radius o nu).
  assert (Cm : cos nu = cos (nu + w) * cos w + sin (nu + w) * sin w).
  { rewrite <- cos_minus. f_equal. ring. }
  assert (Sm : sin nu = sin (nu + w) * cos w - cos (nu + w) * sin w).
  { rewrite <- sin_minus. f_equal. ring. }
  destruct (clockwise o); do 2 f_equal.
  - replace (nu + 2 * w) with ((nu + w) + w) by ring.
    rewrite (cos_plus (nu + w)), (sin_plus (nu + w)). f_equal; ring.
  - rewrite Cm, Sm. f_equal; ring.
Qed.

End Rotations.

(** ** The point in local space *)

Section LocalSpace.

Local Open Scope R_scope.

Implicit Types (h : heap R) (l this orbit : loc) (o : orbit_fields R).

Lemma norm_rotated (w : R) (p : Point R) (cw : bool) :
  norm (rotated w {| x := p.(x); y := if cw then - p.(y) else p.(y) |}) =
  norm p.
Proof.
  pose proof (sin2_cos2 w) as T. unfold Rsqr in T.
  unfold norm, rotated. cbn [x y]. reals. f_equal.
  set (c := cos w) in *. set (s := sin w) in *.
  destruct cw.
  - transitivity ((x p * x p + y p * y p) * (s * s + c * c)); [ring|].
    rewrite T. ring.
  - transitivity ((x p * x p + y p * y p) * (s * s + c * c)); [ring|].
    rewrite T. ring.
Qed.

Lemma mean_point2d_run h this orbit o (M : R) :
  nth_error h orbit = Some (OKeplerianOrbit o) ->
  nth_error h this = Some (OMeanAnomaly M) ->
  MeanAnomaly.point2d this orbit h =
  EccentricAnomaly.point2d (length h) orbit
    (h ++ [OEccentricAnomaly (mean_to_eccentric o M)]).
Proof.
  intros Ho Ht. unfold MeanAnomaly.point2d.
  now rewrite (bind_normal _ _ _ _ _ _ _ (eccentric_anomaly_run h this orbit o M Ho Ht)).
Qed.

(** X23. The point in local space is as far from the focus as the point
    in mathematical space.  On an orbit with [a >= 0] and [0 <= e <= 1],
    whatever its argument of periapsis and its direction:
    [EccentricAnomaly.point2d] gives a point at the distance
    [a (1 - e cos E)] from the origin, and [MeanAnomaly.point2d] gives
    the [point2d] of the eccentric anomaly the solver returns, at the
    distance [a (1 - e cos E')] for the angle [E'] of that anomaly. *)
Theorem point2d_keeps_distance h this this' orbit o (E M : R) :
  nth_error h orbit = Some (OKeplerianOrbit o) ->
  nth_error h this = Some (OEccentricAnomaly E) ->
  nth_error h this' = Some (OMeanAnomaly M) ->
  0 <= o.(semimajor_axis) -> 0 <= o.(eccentricity) <= 1 ->
  (exists p q,
     EccentricAnomaly.point this orbit h = (Normal p, h) /\
     EccentricAnomaly.point2d this orbit h = (Normal q, h) /\
     norm q = norm p /\
     norm q = o.(semimajor_axis) * (1 - o.(eccentricity) * cos E)) /\
  (exists E' q,
     MeanAnomaly.eccentric_anomaly this' orbit h =
       (Normal (length h), h ++ [OEccentricAnomaly E']) /\
     MeanAnomaly.point2d this' orbit h =
       (Normal q, h ++ [OEccentricAnomaly E']) /\
     fst (MeanAnomaly.point2d this' orbit h) =
       fst ((p <- MeanAnomaly.point this' orbit ;;
             KeplerianOrbit.rotate_point orbit p) h) /\
     norm q = o.(semimajor_axis) * (1 - o.(eccentricity) * cos E')).
Proof.
  intros Ho Ht Ht' Ha He. split.
  - do 2 eexists.
    split; [exact (eccentric_point_run _ _ _ _ _ Ho Ht)|].
    split; [exact (eccentric_point2d_run _ _ _ _ _ Ho Ht)|].
    rewrite norm_rotated.
    split; [reflexivity|now apply eccentric_norm].
  - set (E' := mean_to_eccentric o M).
    assert (Ho' : nth_error (h ++ [OEccentricAnomaly E']) orbit =
                  Some (OKeplerianOrbit o)) by now apply lookup_extend.
    exists E'. eexists.
    split; [exact (eccentric_anomaly_run _ _ _ _ _ Ho Ht')|].
    rewrite (mean_point2d_run h this' orbit o M Ho Ht'). fold E'.
    rewrite (eccentric_point2d_run _ _ _ _ _ Ho' (lookup_new _ _)).
    split; [reflexivity|]. split.
    + rewrite (bind_normal _ _ _ _ _ _ _ (mean_point_run h this' orbit o M Ho Ht')).
      fold E'. now rewrite (rotate_point_run _ _ _ _ Ho').
    + rewrite norm_rotated. now apply eccentric_norm.
Qed.

End LocalSpace.

(** ** Newton's iteration, in exact arithmetic *)

Section NewtonOverTheReals.

Local Open Scope R_scope.

Implicit Types (h : heap R) (l this orbit : loc) (o : orbit_fields R).

(** *** Each pass moves the angle by at most [e / 2] *)

Lemma newton_step_near (e M E : R) :
  0 <= e -> Rabs (newton_step e M E - E) <= e / 2.
Proof.
  intros He. unfold newton_step. reals.
  destruct (clamp_interval e (residual e M E / derivative e E) He) as [B _].
  unfold MeanAnomaly.clamp in B. reals.
  apply Rabs_le. lra.
Qed.

Lemma iterate_near (e M E : R) k :
  0 <= e -> Rabs (iterate e M E k - E) <= INR k * (e / 2).
Proof.
  intros He. revert E. induction k as [|k IH]; intros E.
  - simpl. rewrite Rminus_diag, Rabs_R0. lra.
  - cbn [iterate]. rewrite S_INR.
    replace (iterate e M (newton_step e M E) k - E)
      with ((iterate e M (newton_step e M E) k - newton_step e M E) +
            (newton_step e M E - E)) by ring.
    eapply Rle_trans; [apply Rabs_triang|].
    specialize (IH (newton_step e M E)).
    pose proof (newton_step_near e M E He). lra.
Qed.

(** X11. The eccentric anomaly the solver returns is within [5 e] of the mean
    anomaly it was given: every pass moves the angle by at most [e / 2],
    the clamp sees to that, and there are at most 10 passes.  For every
    orbit with [0 <= e < 1], where the derivative [1 - e cos E] the raw
    step is divided by is at least [1 - e], converged or not. *)
Theorem newton_stays_near_mean h this orbit o (M : R) :
  nth_error h orbit = Some (OKeplerianOrbit o) ->
  nth_error h this = Some (OMeanAnomaly M) ->
  0 <= o.(eccentricity) < 1 ->
  exists E,
    MeanAnomaly.eccentric_anomaly this orbit h =
      (Normal (length h), h ++ [OEccentricAnomaly E]) /\
    Rabs (E - M) <= 5 * o.(eccentricity).
Proof.
  intros Ho Ht He. eexists. split; [exact (eccentric_anomaly_run _ _ _ _ _ Ho Ht)|].
  set (e := eccentricity o) in *.
  pose proof (iterate_near e M M (passes e M M 10) (proj1 He)) as B.
  pose proof (passes_le e M M 10) as L.
  apply le_INR in L. replace (INR 10) with 10 in L by (simpl; lra).
  assert (0 <= e / 2) by lra.
  eapply Rle_trans; [exact B|]. nra.
Qed.

(** *** Whole turns *)

Section Turns.

Variables (e M : R) (k : nat).

Let T := 2 * INR k * PI.

Lemma residual_turns E : residual e (M + T) (E + T) = residual e M E.
Proof. unfold residual, T. reals. rewrite sin_period. ring. Qed.

Lemma newton_step_turns E :
  newton_step e (M + T) (E + T) = newton_step e M E + T.
Proof.
  unfold newton_step. rewrite residual_turns.
  unfold derivative, T. reals. rewrite cos_period. ring.
Qed.

Lemma passes_turns E n : passes e (M + T) (E + T) n = passes e M E n.
Proof.
  revert E. induction n as [|n IH]; intros E; [reflexivity|].
  rewrite !passes_succ, residual_turns, newton_step_turns.
  now rewrite IH.
Qed.

Lemma iterate_turns E n :
  iterate e (M + T) (E + T) n = iterate e M E n + T.
Proof.
  revert E. induction n as [|n IH]; intros E; [reflexivity|].
  cbn [iterate]. now rewrite newton_step_turns, IH.
Qed.

End Turns.

(** X12. The solver does not reduce its angle.  A mean anomaly [k] whole turns
    further converts to an eccentric anomaly [k] whole turns further, in
    the same number of passes. *)
Theorem newton_whole_turns h this this' orbit o (M : R) (k : nat) :
  nth_error h orbit = Some (OKeplerianOrbit o) ->
  nth_error h this = Some (OMeanAnomaly M) ->
  nth_error h this' = Some (OMeanAnomaly (M + 2 * INR k * PI)) ->
  exists E,
    MeanAnomaly.eccentric_anomaly this orbit h =
      (Normal (length h), h ++ [OEccentricAnomaly E]) /\
    MeanAnomaly.eccentric_anomaly this' orbit h =
      (Normal (length h), h ++ [OEccentricAnomaly (E + 2 * INR k * PI)]) /\
    passes o.(eccentricity) (M + 2 * INR k * PI) (M + 2 * INR k * PI) 10 =
    passes o.(eccentricity) M M 10.
Proof.
  intros Ho Ht Ht'. eexists.
  split; [exact (eccentric_anomaly_run _ _ _ _ _ Ho Ht)|].
  rewrite (eccentric_anomaly_run h this' orbit o _ Ho Ht').
  now rewrite passes_turns, iterate_turns.
Qed.

(** *** The mirror image *)

Lemma clamp_odd (e t : R) :
  0 <= e ->
  Rmin (Rmax (- t) (- e / 2)) (e / 2) = - Rmin (Rmax t (- e / 2)) (e / 2).
Proof.
  intros He. unfold Rmin, Rmax.
  destruct (Rle_dec (- t) (- e / 2)), (Rle_dec t (- e / 2));
    repeat match goal with
           | |- context [Rle_dec ?a ?b] => destruct (Rle_dec a b)
           end;
    lra.
Qed.

Lemma residual_odd (e M E : R) : residual e (- M) (- E) = - residual e M E.
Proof. unfold residual. reals. rewrite sin_neg. ring. Qed.

Lemma newton_step_odd (e M E : R) :
  0 <= e -> newton_step e (- M) (- E) = - newton_step e M E.
Proof.
  intros He. unfold newton_step. rewrite residual_odd.
  unfold derivative. reals. rewrite cos_neg.
  replace (- residual e M E / (1 - e * cos E))
    with (- (residual e M E / (1 - e * cos E))) by (unfold Rdiv; ring).
  rewrite clamp_odd by exact He. ring.
Qed.

Lemma passes_odd (e M E : R) n :
  0 <= e -> passes e (- M) (- E) n = passes e M E n.
Proof.
  intros He. revert E. induction n as [|n IH]; intros E; [reflexivity|].
  rewrite !passes_succ, residual_odd, newton_step_odd by exact He.
  reals. rewrite Rabs_Ropp. now rewrite IH.
Qed.

Lemma iterate_odd (e M E : R) n :
  0 <= e -> iterate e (- M) (- E) n = - iterate e M E n.
Proof.
  intros He. revert E. induction n as [|n IH]; intros E; [reflexivity|].
  cbn [iterate]. now rewrite newton_step_odd, IH.
Qed.

(** X13. The solver is odd.  On an orbit whose eccentricity is not negative
    the mean anomaly [- M] converts to the opposite of the eccentric
    anomaly [M] converts to, in the same number of passes. *)
Theorem newton_odd h this this' orbit o (M : R) :
  nth_error h orbit = Some (OKeplerianOrbit o) ->
  nth_error h this = Some (OMeanAnomaly M) ->
  nth_error h this' = Some (OMeanAnomaly (- M)) ->
  0 <= o.(eccentricity) ->
  exists E,
    MeanAnomaly.eccentric_anomaly this orbit h =
      (Normal (length h), h ++ [OEccentricAnomaly E]) /\
    MeanAnomaly.eccentric_anomaly this' orbit h =
      (Normal (length h), h ++ [OEccentricAnomaly (- E)]) /\
    passes o.(eccentricity) (- M) (- M) 10 = passes o.(eccentricity) M M 10.
Proof.
  intros Ho Ht Ht' He. eexists.
  split; [exact (eccentric_anomaly_run _ _ _ _ _ Ho Ht)|].
  rewrite (eccentric_anomaly_run h this' orbit o _ Ho Ht').
  now rewrite passes_odd, iterate_odd.
Qed.

(** *** The apsides *)

Lemma newton_at_apsis (e M : R) :
  0 <= e -> sin M = 0 ->
  iterate e M M (passes e M M 10) = M.
Proof.
  intros He S.
  assert (Z : residual e M M = 0) by (unfold residual; reals; rewrite S; ring).
  rewrite passes_succ, Z. reals. rewrite Rabs_R0.
  rewrite (Rltb_true _ _ tolerance_pos). cbn [iterate].
  unfold newton_step. rewrite Z. reals.
  replace (0 / derivative e M) with 0 by (unfold Rdiv; ring).
  rewrite Rmax_left, Rmin_left by lra. ring.
Qed.

(** X14. The mean anomalies 0 and [PI] are the periapsis and the apoapsis.  On
    an orbit with [0 <= e < 1] and [a > 0], [MeanAnomaly(0)] has the
    point [(periapsis(), 0)] and the true anomaly 0, and
    [MeanAnomaly(PI)] has the point [(- apoapsis(), 0)] and the true
    anomaly [PI]. *)
Theorem mean_anomaly_at_apsides h peri apo orbit o :
  nth_error h orbit = Some (OKeplerianOrbit o) ->
  nth_error h peri = Some (OMeanAnomaly 0) ->
  nth_error h apo = Some (OMeanAnomaly PI) ->
  0 < o.(semimajor_axis) -> 0 <= o.(eccentricity) < 1 ->
  exists rp ra,
    KeplerianOrbit.periapsis orbit h = (Normal rp, h) /\
    KeplerianOrbit.apoapsis orbit h = (Normal ra, h) /\
    fst (MeanAnomaly.point peri orbit h) = Normal {| x := rp; y := 0 |} /\
    fst (MeanAnomaly.point apo orbit h) = Normal {| x := - ra; y := 0 |} /\
    fst ((nu <- MeanAnomaly.true_anomaly peri orbit ;;
          TrueAnomaly.this_angle nu) h) = Normal 0 /\
    fst ((nu <- MeanAnomaly.true_anomaly apo orbit ;;
          TrueAnomaly.this_angle nu) h) = Normal PI.
Proof.
  intros Ho Hp Ha Hpos He. do 2 eexists.
  split; [exact (periapsis_run _ _ _ Ho)|].
  split; [exact (apoapsis_run _ _ _ Ho)|].
  assert (E0 : mean_to_eccentric o 0 = 0)
    by (apply newton_at_apsis; [lra|apply sin_0]).
  assert (E1 : mean_to_eccentric o PI = PI)
    by (apply newton_at_apsis; [lra|apply sin_PI]).
  assert (P0 : eccentric_point o 0 =
               {| x := (1 - o.(eccentricity)) * o.(semimajor_axis); y := 0 |}).
  { unfold eccentric_point, focal. reals. rewrite cos_0, sin_0.
    f_equal; ring. }
  assert (P1 : eccentric_point o PI =
               {| x := - ((1 + o.(eccentricity)) * o.(semimajor_axis)); y := 0 |}).
  { unfold eccentric_point, focal. reals. rewrite cos_PI, sin_PI.
    f_equal; ring. }
  assert (X0 : 0 < (1 - o.(eccentricity)) * o.(semimajor_axis))
    by (apply Rmult_lt_0_compat; lra).
  assert (X1 : 0 < (1 + o.(eccentricity)) * o.(semimajor_axis))
    by (apply Rmult_lt_0_compat; lra).
  split; [|split; [|split]].
  - rewrite (mean_point_run h peri orbit o 0 Ho Hp), E0, P0. reflexivity.
  - rewrite (mean_point_run h apo orbit o PI Ho Ha), E1, P1. reflexivity.
  - rewrite (bind_normal _ _ _ _ _ _ _ (mean_true_anomaly_run h peri orbit o 0 Ho Hp)).
    erewrite true_angle_run by apply lookup_second.
    cbn [fst]. f_equal. rewrite E0. unfold eccentric_to_true. rewrite P0.
    cbn [x y]. reals. unfold Ratan2.
    destruct (Rlt_dec 0 _) as [_|C]; [|contradiction].
    unfold Rdiv. rewrite Rmult_0_l. apply atan_0.
  - rewrite (bind_normal _ _ _ _ _ _ _ (mean_true_anomaly_run h apo orbit o PI Ho Ha)).
    erewrite true_angle_run by apply lookup_second.
    cbn [fst]. f_equal. rewrite E1. unfold eccentric_to_true. rewrite P1.
    cbn [x y]. reals. unfold Ratan2.
    destruct (Rlt_dec 0 _) as [C|_]; [lra|].
    destruct (Rlt_dec _ 0) as [_|C]; [|lra].
    destruct (Rle_dec 0 0) as [_|C]; [|lra].
    unfold Rdiv. rewrite Rmult_0_l, atan_0. ring.
Qed.

End NewtonOverTheReals.

(** ** What the solver returns solves Kepler's equation *)

Section Residual.

Local Open Scope R_scope.

Implicit Types (h : heap R) (l this orbit : loc) (o : orbit_fields R).

Lemma sin_abs_le t : Rabs (sin t) <= Rabs t.
Proof.
  pose proof (SIN_bound t) as B.
  destruct (Rtotal_order t 0) as [N|[->|P]].
  - rewrite (Rabs_left t N).
    pose proof (sin_gt_x t N).
    destruct (Rle_dec t (-1)) as [L|L]; [apply Rabs_le; lra|].
    assert (sin t < 0) by (apply sin_lt_0_var; pose proof PI2_1; lra).
    rewrite Rabs_left by assumption. lra.
  - rewrite sin_0, Rabs_R0. lra.
  - rewrite (Rabs_right t) by lra.
    pose proof (sin_lt_x t P).
    destruct (Rle_dec 1 t) as [L|L]; [apply Rabs_le; lra|].
    assert (0 < sin t) by (apply sin_pos_tech; lra).
    rewrite Rabs_right; lra.
Qed.

Lemma cos_lipschitz p q : Rabs (cos p - cos q) <= Rabs (p - q).
Proof.
  rewrite form2.
  replace (-2 * sin ((p - q) / 2) * sin ((p + q) / 2))
    with (sin ((p + q) / 2) * (-2 * sin ((p - q) / 2))) by ring.
  rewrite Rabs_mult.
  pose proof (SIN_bound ((p + q) / 2)) as B.
  assert (B' : Rabs (sin ((p + q) / 2)) <= 1) by (apply Rabs_le; lra).
  assert (S : Rabs (-2 * sin ((p - q) / 2)) <= Rabs (p - q)).
  { rewrite Rabs_mult. replace (Rabs (-2)) with 2
      by (rewrite Rabs_left; lra).
    pose proof (sin_abs_le ((p - q) / 2)) as A.
    replace (Rabs ((p - q) / 2)) with (Rabs (p - q) / 2) in A; [lra|].
    unfold Rdiv. rewrite Rabs_mult, (Rabs_right (/ 2)); lra. }
  pose proof (Rabs_pos (sin ((p + q) / 2))).
  pose proof (Rabs_pos (-2 * sin ((p - q) / 2))). nra.
Qed.

(** The sine to first order, with its remainder. *)
Lemma sin_first_order a d :
  Rabs (sin (a - d) - sin a + d * cos a) <= d * d.
Proof.
  assert (M : forall u v, u < v ->
            exists c, sin v - sin u = cos c * (v - u) /\ u < c < v).
  { intros u v L. apply (MVT_cor2 sin cos u v L).
    intros c _. apply derivable_pt_lim_sin. }
  destruct (Rtotal_order d 0) as [N|[->|P]].
  - destruct (M a (a - d) ltac:(lra)) as (c & E & C).
    replace (sin (a - d) - sin a + d * cos a) with (d * (cos a - cos c))
      by (rewrite E; ring).
    rewrite Rabs_mult, (Rabs_left d N).
    pose proof (cos_lipschitz a c) as L.
    rewrite (Rabs_left (a - c)) in L by lra.
    pose proof (Rabs_pos (cos a - cos c)). nra.
  - replace (a - 0) with a by ring. rewrite Rmult_0_l.
    replace (sin a - sin a + 0) with 0 by ring. rewrite Rabs_R0. lra.
  - destruct (M (a - d) a ltac:(lra)) as (c & E & C).
    replace (sin (a - d) - sin a + d * cos a) with (d * (cos a - cos c))
      by (assert (sin (a - d) = sin a - cos c * d) by lra; lra).
    rewrite Rabs_mult, (Rabs_right d) by lra.
    pose proof (cos_lipschitz a c) as L.
    rewrite (Rabs_right (a - c)) in L by lra.
    pose proof (Rabs_pos (cos a - cos c)). nra.
Qed.


(** The clamped step lies between 0 and the raw step. *)
Lemma clamp_between (e t : R) :
  0 <= e ->
  let d := Rmin (Rmax t (- e / 2)) (e / 2) in
  (0 <= d <= t \/ t <= d <= 0) /\ Rabs d <= e / 2.
Proof.
  intros He d. unfold d, Rmin, Rmax.
  destruct (Rle_dec t (- e / 2)); destruct (Rle_dec _ (e / 2));
    split; try apply Rabs_le; lra.
Qed.

(** After a pass that found the residual [f], the residual is at most
    [|f|] and a second-order term. *)
Lemma residual_after_step (e M E : R) :
  0 <= e < 1 ->
  Rabs (residual e M (newton_step e M E)) <=
  Rabs (residual e M E) +
  e * (Rabs (residual e M E) / (1 - e)) * (Rabs (residual e M E) / (1 - e)).
Proof.
  intros He. pose proof (COS_bound E) as C.
  set (f := residual e M E).
  assert (Hd : 1 - e <= derivative e E) by (unfold derivative; reals; nra).
  set (dv := derivative e E) in *.
  set (t := f / dv).
  destruct (clamp_between e t ltac:(lra)) as [Sd Bd]. cbv zeta in Sd, Bd.
  assert (Ns : newton_step e M E = E - Rmin (Rmax t (- e / 2)) (e / 2))
    by reflexivity.
  set (d := Rmin (Rmax t (- e / 2)) (e / 2)) in *.
  assert (Ft : f = t * dv) by (unfold t; field; lra).
  assert (R : residual e M (E - d) =
              (f - d * dv) - e * (sin (E - d) - sin E + d * cos E)).
  { unfold f, dv, residual, derivative. reals. ring. }
  rewrite Ns, R.
  pose proof (sin_first_order E d) as T.
  set (T0 := sin (E - d) - sin E + d * cos E) in *.
  (* the first-order part *)
  assert (A : Rabs (f - d * dv) <= Rabs f).
  { rewrite Ft. replace (t * dv - d * dv) with ((t - d) * dv) by ring.
    rewrite !Rabs_mult. apply Rmult_le_compat_r; [apply Rabs_pos|].
    apply Rabs_le. destruct Sd as [Sd|Sd].
    - rewrite (Rabs_right t) by lra. lra.
    - rewrite (Rabs_left1 t) by lra. lra. }
  (* the step is no longer than the raw step *)
  assert (B : Rabs d <= Rabs f / (1 - e)).
  { assert (Rabs d <= Rabs t).
    { destruct Sd as [Sd|Sd].
      - rewrite (Rabs_right d), (Rabs_right t); lra.
      - rewrite (Rabs_left1 d), (Rabs_left1 t); lra. }
    assert (Rabs t <= Rabs f / (1 - e)); [|lra].
    unfold t, Rdiv. rewrite Rabs_mult, (Rabs_right (/ dv)).
    - apply Rmult_le_compat_l; [apply Rabs_pos|].
      apply Rinv_le_contravar; lra.
    - apply Rle_ge, Rlt_le, Rinv_0_lt_compat. lra. }
  assert (D : d * d <= Rabs f / (1 - e) * (Rabs f / (1 - e))).
  { replace (d * d) with (Rabs d * Rabs d).
    - pose proof (Rabs_pos d). nra.
    - rewrite <- Rabs_mult. apply Rabs_right. nra. }
  eapply Rle_trans; [apply Rabs_triang|].
  rewrite Rabs_Ropp, Rabs_mult, (Rabs_right e) by lra.
  assert (e * Rabs T0 <= e * (Rabs f / (1 - e) * (Rabs f / (1 - e)))).
  { apply Rmult_le_compat_l; lra. }
  lra.
Qed.

Lemma tolerance_small : @tolerance R real < 1 / 1000000.
Proof.
  unfold tolerance. reals. pose proof PI_4. pose proof PI_RGT_0. lra.
Qed.

(** The solver, when it stopped before its tenth pass. *)
Lemma mean_to_eccentric_residual o (M : R) :
  0 <= o.(eccentricity) < 1 ->
  (passes o.(eccentricity) M M 10 < 10)%nat ->
  let e := o.(eccentricity) in
  Rabs (residual e M (mean_to_eccentric o M)) <
  tolerance + e * (tolerance / (1 - e)) * (tolerance / (1 - e)).
Proof.
  intros He Hk e. fold e in He, Hk. unfold mean_to_eccentric. fold e.
  pose proof (passes_pos e M M 10 ltac:(lia)) as Pk.
  pose proof (passes_last e M M 10 Hk) as L. unfold converged in L.
  destruct (passes e M M 10) as [|k]; [lia|].
  cbn [pred] in L. rewrite iterate_succ.
  set (E := iterate e M M k) in *.
  assert (F : Rabs (residual e M E) < tolerance).
  { reals. unfold Rltb in L.
    destruct (Rlt_dec (Rabs (residual e M E)) tolerance); [assumption|discriminate]. }
  eapply Rle_lt_trans; [apply residual_after_step; exact He|].
  pose proof (Rabs_pos (residual e M E)) as P.
  assert (I : 0 < / (1 - e)) by (apply Rinv_0_lt_compat; lra).
  set (f := Rabs (residual e M E)) in *. set (tol := tolerance) in *.
  assert (f / (1 - e) <= tol / (1 - e))
    by (unfold Rdiv; apply Rmult_le_compat_r; lra).
  assert (0 <= f / (1 - e)) by (unfold Rdiv; apply Rmult_le_pos; lra).
  assert (f / (1 - e) * (f / (1 - e)) <= tol / (1 - e) * (tol / (1 - e)))
    by (apply Rmult_le_compat; lra).
  assert (e * (f / (1 - e) * (f / (1 - e))) <=
          e * (tol / (1 - e) * (tol / (1 - e))))
    by (apply Rmult_le_compat_l; lra).
  lra.
Qed.

Lemma second_order_small (e : R) :
  0 <= e <= 9 / 10 ->
  e * (tolerance / (1 - e)) * (tolerance / (1 - e)) <= @tolerance R real.
Proof.
  intros He. pose proof tolerance_small as S. pose proof tolerance_pos as P.
  set (tol := tolerance) in *.
  assert (I : / (1 - e) <= 10).
  { replace 10 with (/ (1 / 10)) by field.
    apply Rinv_le_contravar; lra. }
  assert (I0 : 0 < / (1 - e)) by (apply Rinv_0_lt_compat; lra).
  unfold Rdiv.
  assert (Q : tol * / (1 - e) <= tol * 10)
    by (apply Rmult_le_compat_l; lra).
  assert (Q0 : 0 <= tol * / (1 - e)) by (apply Rmult_le_pos; lra).
  assert (tol * / (1 - e) * (tol * / (1 - e)) <= tol * 10 * (tol * 10))
    by (apply Rmult_le_compat; lra).
  assert (e * (tol * / (1 - e) * (tol * / (1 - e))) <=
          9 / 10 * (tol * 10 * (tol * 10))).
  { apply Rmult_le_compat; try lra. apply Rmult_le_pos; lra. }
  assert (9 / 10 * (tol * 10 * (tol * 10)) <= tol) by nra.
  lra.
Qed.

(** *** The solver converges at moderate eccentricities *)

(** The three cases of the clamp. *)
Lemma clamp_cases (e t : R) :
  0 <= e ->
  let d := Rmin (Rmax t (- e / 2)) (e / 2) in
  (- e / 2 <= t <= e / 2 /\ d = t) \/
  (e / 2 < t /\ d = e / 2) \/
  (t < - e / 2 /\ d = - e / 2).
Proof.
  intros He d. unfold d, Rmin, Rmax.
  destruct (Rle_dec t (- e / 2)); destruct (Rle_dec _ (e / 2)); lra.
Qed.

(** How a pass changes the size of the residual, for [e <= 1/2]: it
    falls below [e / 16] or by [3 e / 16] at least, and once it is below
    [e / 4] it is squared. *)
Lemma residual_step_bound (e M E : R) :
  0 <= e <= 1 / 2 ->
  let r := Rabs (residual e M E) in
  let r' := Rabs (residual e M (newton_step e M E)) in
  (r' <= e / 16 \/ r' <= r - 3 / 16 * e) /\
  (r <= e / 4 -> r' <= 4 * e * (r * r)).
Proof.
  intros He r r'. pose proof (COS_bound E) as C.
  set (f := residual e M E) in *.
  assert (Hd : 1 / 2 <= derivative e E /\ 1 - e <= derivative e E)
    by (unfold derivative; reals; nra).
  set (dv := derivative e E) in *.
  set (t := f / dv).
  assert (Ft : f = t * dv) by (unfold t; field; lra).
  assert (Ns : newton_step e M E = E - Rmin (Rmax t (- e / 2)) (e / 2))
    by reflexivity.
  pose proof (clamp_cases e t ltac:(lra)) as K. cbv zeta in K.
  set (d := Rmin (Rmax t (- e / 2)) (e / 2)) in *.
  assert (R : residual e M (E - d) =
              (f - d * dv) - e * (sin (E - d) - sin E + d * cos E)).
  { unfold f, dv, residual, derivative. reals. ring. }
  pose proof (sin_first_order E d) as T.
  set (T0 := sin (E - d) - sin E + d * cos E) in *.
  assert (Q : r' <= Rabs (f - d * dv) + e * (d * d)).
  { unfold r'. rewrite Ns, R.
    eapply Rle_trans; [apply Rabs_triang|].
    rewrite Rabs_Ropp, Rabs_mult, (Rabs_right e) by lra.
    assert (e * Rabs T0 <= e * (d * d)) by (apply Rmult_le_compat_l; lra).
    lra. }
  assert (Rt : r = Rabs t * dv).
  { unfold r. rewrite Ft, Rabs_mult, (Rabs_right dv); lra. }
  pose proof (Rabs_pos t) as Pt.
  assert (E3 : e * (e / 2 * (e / 2)) <= e / 16) by nra.
  destruct K as [[Ht Hdt]|[[Ht Hdt]|[Ht Hdt]]].
  - (* the raw step is taken *)
    assert (Z : f - d * dv = 0) by (rewrite Hdt, Ft; ring).
    rewrite Z, Rabs_R0, Hdt in Q.
    assert (At : Rabs t <= e / 2) by (apply Rabs_le; lra).
    assert (Tt : t * t = Rabs t * Rabs t).
    { rewrite <- Rabs_mult. symmetry. apply Rabs_right. nra. }
    split.
    + left. assert (t * t <= e / 2 * (e / 2)) by (rewrite Tt; nra).
      assert (e * (t * t) <= e * (e / 2 * (e / 2)))
        by (apply Rmult_le_compat_l; lra).
      lra.
    + intros _.
      assert (Rabs t <= 2 * r) by (rewrite Rt; nra).
      assert (t * t <= 2 * r * (2 * r)).
      { rewrite Tt. apply Rmult_le_compat; lra. }
      assert (e * (t * t) <= e * (2 * r * (2 * r)))
        by (apply Rmult_le_compat_l; lra).
      lra.
  - (* the step is cut at [e / 2] *)
    rewrite Hdt in Q.
    assert (A : Rabs (f - e / 2 * dv) = r - e / 2 * dv).
    { rewrite Rt, (Rabs_right t) by lra. rewrite Ft.
      replace (t * dv - e / 2 * dv) with ((t - e / 2) * dv) by ring.
      rewrite Rabs_right; [ring|]. apply Rle_ge, Rmult_le_pos; lra. }
    rewrite A in Q.
    assert (e / 2 * (1 - e) <= e / 2 * dv)
      by (apply Rmult_le_compat_l; lra).
    split.
    + right. nra.
    + intros Hr. exfalso. rewrite Rt, (Rabs_right t) in Hr by lra. nra.
  - (* the step is cut at [- e / 2] *)
    rewrite Hdt in Q.
    assert (A : Rabs (f - - e / 2 * dv) = r - e / 2 * dv).
    { rewrite Rt, (Rabs_left t) by lra. rewrite Ft.
      replace (t * dv - - e / 2 * dv) with (- ((- t - e / 2) * dv)) by lra.
      rewrite Rabs_Ropp, Rabs_right; [ring|].
      apply Rle_ge, Rmult_le_pos; lra. }
    rewrite A in Q.
    replace (- e / 2 * (- e / 2)) with (e / 2 * (e / 2)) in Q by lra.
    assert (e / 2 * (1 - e) <= e / 2 * dv)
      by (apply Rmult_le_compat_l; lra).
    split.
    + right. nra.
    + intros Hr. exfalso. rewrite Rt, (Rabs_left t) in Hr by lra. nra.
Qed.

(** A bound [e * b] on the residual, through one pass. *)
Lemma residual_falls (e M E b : R) :
  0 <= e <= 1 / 2 -> 1 / 4 <= b ->
  Rabs (residual e M E) <= e * b ->
  Rabs (residual e M (newton_step e M E)) <= e * Rmax (b - 3 / 16) (1 / 16).
Proof.
  intros He Hb Hr.
  destruct (residual_step_bound e M E He) as [[A|A] _].
  - pose proof (Rmax_r (b - 3 / 16) (1 / 16)).
    assert (e * (1 / 16) <= e * Rmax (b - 3 / 16) (1 / 16))
      by (apply Rmult_le_compat_l; lra).
    lra.
  - pose proof (Rmax_l (b - 3 / 16) (1 / 16)).
    assert (e * (b - 3 / 16) <= e * Rmax (b - 3 / 16) (1 / 16))
      by (apply Rmult_le_compat_l; lra).
    lra.
Qed.

Lemma residual_squares (e M E b : R) :
  0 <= e <= 1 / 2 -> 0 <= b <= 1 / 4 ->
  Rabs (residual e M E) <= e * b ->
  Rabs (residual e M (newton_step e M E)) <= e * (b * b).
Proof.
  intros He Hb Hr. pose proof (Rabs_pos (residual e M E)) as P.
  destruct (residual_step_bound e M E He) as [_ B].
  assert (Hr' : Rabs (residual e M E) <= e / 4).
  { assert (e * b <= e * (1 / 4)) by (apply Rmult_le_compat_l; lra). lra. }
  specialize (B Hr').
  set (r := Rabs (residual e M E)) in *.
  assert (r * r <= e * b * (e * b)) by (apply Rmult_le_compat; lra).
  assert (4 * e * (r * r) <= 4 * e * (e * b * (e * b)))
    by (apply Rmult_le_compat_l; lra).
  assert (0 <= b * b) by nra.
  assert (4 * e * (e * b * (e * b)) = e * (b * b) * (4 * (e * e))) by ring.
  assert (4 * (e * e) <= 1) by nra.
  assert (0 <= e * (b * b)) by (apply Rmult_le_pos; lra).
  nra.
Qed.

Lemma tolerance_large : 1 / 10000000 < @tolerance R real.
Proof. unfold tolerance. reals. pose proof PI2_3_2. lra. Qed.

(** A pass that meets the tolerance ends the loop. *)
Lemma passes_upper (e M E : R) n j :
  (j < n)%nat -> converged e M E j = true -> (passes e M E n <= S j)%nat.
Proof.
  revert E n. induction j as [|j IH]; intros E n Hn Hc.
  - destruct n as [|n]; [lia|]. rewrite passes_succ.
    unfold converged in Hc. cbn [iterate] in Hc. rewrite Hc. lia.
  - destruct n as [|n]; [lia|]. rewrite passes_succ.
    destruct (Math_abs (residual e M E) <? tolerance)%js; [lia|].
    apply le_n_S, IH; [lia|exact Hc].
Qed.

(** For [e <= 1/2] the residual is below the tolerance after 8 passes at
    the latest, so the loop leaves in its ninth pass at the latest. *)
Lemma newton_converges (e M : R) :
  0 <= e <= 1 / 2 -> (passes e M M 10 <= 9)%nat.
Proof.
  intros He. apply passes_upper; [lia|].
  assert (R0 : Rabs (residual e M (iterate e M M 0)) <= e * 1).
  { cbn [iterate]. unfold residual. reals.
    replace (M - e * sin M - M) with (- (e * sin M)) by ring.
    rewrite Rabs_Ropp, Rabs_mult, (Rabs_right e) by lra.
    pose proof (SIN_bound M). apply Rmult_le_compat_l; [lra|].
    apply Rabs_le. lra. }
  assert (M1 : Rmax (1 - 3 / 16) (1 / 16) = 13 / 16)
    by (rewrite Rmax_left; lra).
  assert (M2 : Rmax (13 / 16 - 3 / 16) (1 / 16) = 10 / 16)
    by (rewrite Rmax_left; lra).
  assert (M3 : Rmax (10 / 16 - 3 / 16) (1 / 16) = 7 / 16)
    by (rewrite Rmax_left; lra).
  assert (M4 : Rmax (7 / 16 - 3 / 16) (1 / 16) = 1 / 4)
    by (rewrite Rmax_left; lra).
  pose proof (residual_falls e M _ 1 He ltac:(lra) R0) as R1.
  rewrite <- iterate_succ, M1 in R1.
  pose proof (residual_falls e M _ (13 / 16) He ltac:(lra) R1) as R2.
  rewrite <- iterate_succ, M2 in R2.
  pose proof (residual_falls e M _ (10 / 16) He ltac:(lra) R2) as R3.
  rewrite <- iterate_succ, M3 in R3.
  pose proof (residual_falls e M _ (7 / 16) He ltac:(lra) R3) as R4.
  rewrite <- iterate_succ, M4 in R4.
  pose proof (residual_squares e M _ (1 / 4) He ltac:(lra) R4) as R5.
  rewrite <- iterate_succ in R5.
  pose proof (residual_squares e M _ (1 / 4 * (1 / 4)) He ltac:(lra) R5) as R6.
  rewrite <- iterate_succ in R6.
  pose proof (residual_squares e M _ (1 / 4 * (1 / 4) * (1 / 4 * (1 / 4))) He ltac:(lra) R6) as R7.
  rewrite <- iterate_succ in R7.
  pose proof (residual_squares e M _ (1 / 4 * (1 / 4) * (1 / 4 * (1 / 4)) * (1 / 4 * (1 / 4) * (1 / 4 * (1 / 4)))) He ltac:(lra) R7) as R8.
  rewrite <- iterate_succ in R8.
  unfold converged. reals. apply Rltb_true.
  pose proof tolerance_large as L.
  set (b := 1 / 4 * (1 / 4) * (1 / 4 * (1 / 4)) *
            (1 / 4 * (1 / 4) * (1 / 4 * (1 / 4))) *
            (1 / 4 * (1 / 4) * (1 / 4 * (1 / 4)) *
             (1 / 4 * (1 / 4) * (1 / 4 * (1 / 4))))) in *.
  assert (B : 0 <= b <= 1 / 10000000) by (unfold b; lra).
  assert (e * b <= 1 / 2 * b) by (apply Rmult_le_compat_r; lra).
  lra.
Qed.

(** A pass that finds the residual at or above the tolerance is not the
    last. *)
Lemma passes_lower (e M E : R) n :
  @tolerance R real <= Rabs (residual e M E) ->
  (1 < S (S n))%nat -> (1 < passes e M E (S (S n)))%nat.
Proof.
  intros H _. rewrite passes_succ. reals. rewrite (Rltb_false _ _ H).
  pose proof (passes_pos e M (newton_step e M E) (S n) ltac:(lia)). lia.
Qed.

Lemma sin_half : 1 / 4 <= sin (1 / 2).
Proof.
  pose proof (sin_first_order 0 (- (1 / 2))) as T.
  rewrite sin_0, cos_0 in T.
  replace (0 - - (1 / 2)) with (1 / 2) in T by lra.
  unfold Rabs in T. destruct (Rcase_abs _) in T; lra.
Qed.

(** *** The contracts *)

(** X15. From a mean anomaly to the eccentric anomaly and back.  On an orbit
    with [0 <= e < 1] the eccentric anomaly the solver returns converts to
    a mean anomaly [M'].  When the solver stopped before its tenth pass,
    [M'] is off the given [M] by less than the tolerance and a
    second-order term, [tolerance + e (tolerance / (1 - e))^2]: by less
    than twice the tolerance when [e <= 0.9].  And when [e <= 1/2] the
    solver does stop before its tenth pass, whatever [M], so that [M'] is
    within twice the tolerance of [M]. *)
Theorem mean_eccentric_round_trip h this orbit o (M : R) :
  nth_error h orbit = Some (OKeplerianOrbit o) ->
  nth_error h this = Some (OMeanAnomaly M) ->
  0 <= o.(eccentricity) < 1 ->
  let e := o.(eccentricity) in
  exists M',
    fst ((E <- MeanAnomaly.eccentric_anomaly this orbit ;;
          back <- EccentricAnomaly.mean_anomaly E orbit ;;
          MeanAnomaly.this_angle back) h) = Normal M' /\
    ((passes e M M 10 < 10)%nat ->
     Rabs (M' - M) <
       tolerance + e * (tolerance / (1 - e)) * (tolerance / (1 - e))) /\
    ((passes e M M 10 < 10)%nat -> e <= 9 / 10 ->
     Rabs (M' - M) < 2 * tolerance) /\
    (e <= 1 / 2 ->
     (passes e M M 10 <= 9)%nat /\ Rabs (M' - M) < 2 * tolerance).
Proof.
  intros Ho Ht He e.
  exists (eccentric_to_mean o (mean_to_eccentric o M)).
  assert (R : eccentric_to_mean o (mean_to_eccentric o M) - M =
              residual e M (mean_to_eccentric o M))
    by (unfold eccentric_to_mean, residual; reflexivity).
  assert (B : (passes e M M 10 < 10)%nat ->
              Rabs (residual e M (mean_to_eccentric o M)) <
              tolerance + e * (tolerance / (1 - e)) * (tolerance / (1 - e))).
  { intros Hk. exact (mean_to_eccentric_residual o M He Hk). }
  assert (B' : (passes e M M 10 < 10)%nat -> e <= 9 / 10 ->
               Rabs (residual e M (mean_to_eccentric o M)) < 2 * tolerance).
  { intros Hk He'. specialize (B Hk).
    pose proof (second_order_small e ltac:(fold e in He; lra)). lra. }
  split; [|split; [|split]].
  - rewrite (bind_normal _ _ _ _ _ _ _ (eccentric_anomaly_run h this orbit o M Ho Ht)).
    fold (mean_to_eccentric o M).
    erewrite bind_normal
      by (apply eccentric_mean_anomaly_run;
          [apply lookup_extend; exact Ho|apply lookup_new]).
    erewrite mean_angle_run; [reflexivity|apply lookup_new].
  - rewrite R. exact B.
  - rewrite R. exact B'.
  - intros He'.
    pose proof (newton_converges e M ltac:(fold e in He; lra)) as K.
    split; [exact K|]. rewrite R. apply B'; [lia|lra].
Qed.

(** X16. From a mean anomaly to the true anomaly and back.  On an orbit
    with [a > 0], [0 <= e <= 0.9] and argument of periapsis 0, when the
    eccentric anomaly the solver returns lies in [(-PI, PI]], a mean
    anomaly [M] converted to a true anomaly and back comes back within
    twice the tolerance of [M] if the solver stopped before its tenth
    pass, which it does when [e <= 1/2]. *)
Theorem mean_true_round_trip h this orbit o (M : R) :
  nth_error h orbit = Some (OKeplerianOrbit o) ->
  nth_error h this = Some (OMeanAnomaly M) ->
  0 < o.(semimajor_axis) -> 0 <= o.(eccentricity) <= 9 / 10 ->
  o.(argument_of_periapsis) = 0 ->
  - PI < mean_to_eccentric o M <= PI ->
  exists M',
    fst ((nu <- MeanAnomaly.true_anomaly this orbit ;;
          back <- TrueAnomaly.mean_anomaly nu orbit ;;
          MeanAnomaly.this_angle back) h) = Normal M' /\
    ((passes o.(eccentricity) M M 10 < 10)%nat ->
     Rabs (M' - M) < 2 * tolerance) /\
    (o.(eccentricity) <= 1 / 2 -> Rabs (M' - M) < 2 * tolerance).
Proof.
  intros Ho Ht Ha He Hw HE.
  set (E := mean_to_eccentric o M) in *.
  exists (eccentric_to_mean o E).
  assert (He' : 0 <= o.(eccentricity) < 1) by lra.
  assert (B : (passes o.(eccentricity) M M 10 < 10)%nat ->
              Rabs (eccentric_to_mean o E - M) < 2 * tolerance).
  { intros Hk.
    pose proof (mean_to_eccentric_residual o M He' Hk) as B. cbv zeta in B.
    fold E in B.
    replace (eccentric_to_mean o E - M) with (residual o.(eccentricity) M E)
      by (unfold eccentric_to_mean, residual; reflexivity).
    pose proof (second_order_small o.(eccentricity) He). lra. }
  split; [|split; [exact B|]].
  - rewrite (bind_normal _ _ _ _ _ _ _ (mean_true_anomaly_run h this orbit o M Ho Ht)).
    fold E.
    erewrite bind_normal
      by (apply true_mean_anomaly_run;
          [apply lookup_extend; exact Ho|apply lookup_second]).
    rewrite eccentric_true_eccentric by assumption.
    erewrite mean_angle_run; [reflexivity|].
    rewrite nth_error_app2 by (rewrite length_app; simpl; lia).
    rewrite length_app. simpl length.
    now replace (S (length h + 2) - (length h + 2))%nat with 1%nat by lia.
  - intros Hh. apply B.
    pose proof (newton_converges o.(eccentricity) M ltac:(lra)). lia.
Qed.

End Residual.

(** ** The residual the loop tests *)

Section StaleResidual.

Local Open Scope R_scope.

(** The eccentricity of the example is one and a half times the
    tolerance; the mean anomaly is a quarter turn, where [sin] is 1 and
    [cos] is 0. *)
Lemma stale_eccentricity :
  let e := 3 / 2 * @tolerance R real in
  0 < e < 1 / 100000 /\ tolerance < e /\ e / 2 < tolerance.
Proof.
  intros e. pose proof tolerance_pos. pose proof tolerance_small.
  unfold e. lra.
Qed.

Lemma stale_first_pass :
  let e := 3 / 2 * @tolerance R real in
  residual e (PI / 2) (PI / 2) = - e /\
  newton_step e (PI / 2) (PI / 2) = PI / 2 + e / 2.
Proof.
  intros e. destruct stale_eccentricity as [P _]. fold e in P.
  assert (R : residual e (PI / 2) (PI / 2) = - e)
    by (unfold residual; reals; rewrite sin_PI2; ring).
  split; [exact R|].
  unfold newton_step. rewrite R. unfold derivative. reals. rewrite cos_PI2.
  replace (- e / (1 - e * 0)) with (- e) by (field; lra).
  rewrite Rmax_right, Rmin_left by lra. lra.
Qed.

Lemma stale_second_residual :
  let e := 3 / 2 * @tolerance R real in
  - e / 2 <= residual e (PI / 2) (PI / 2 + e / 2) < 0.
Proof.
  intros e. destruct stale_eccentricity as [P _]. fold e in P.
  unfold residual. reals. rewrite <- cos_sin.
  pose proof (COS_bound (e / 2)) as C.
  pose proof (cos_lipschitz (e / 2) 0) as L.
  rewrite cos_0, Rminus_0_r, (Rabs_right (e / 2)) in L by lra.
  assert (1 - e / 2 <= cos (e / 2)).
  { unfold Rabs in L. destruct (Rcase_abs _) in L; lra. }
  nra.
Qed.

Lemma stale_second_pass :
  let e := 3 / 2 * @tolerance R real in
  PI / 2 + e / 2 < newton_step e (PI / 2) (PI / 2 + e / 2).
Proof.
  intros e. destruct stale_eccentricity as [P _]. fold e in P.
  destruct stale_second_residual as [Lo Hi]. fold e in Lo, Hi.
  unfold newton_step.
  set (f := residual e (PI / 2) (PI / 2 + e / 2)) in *.
  pose proof (COS_bound (PI / 2 + e / 2)) as C.
  assert (D : 0 < derivative e (PI / 2 + e / 2))
    by (unfold derivative; reals; nra).
  set (d := derivative e (PI / 2 + e / 2)) in *.
  assert (T : f / d < 0).
  { unfold Rdiv. assert (0 < / d) by now apply Rinv_0_lt_compat. nra. }
  reals. unfold Rmin, Rmax.
  destruct (Rle_dec (f / d) (- e / 2)); destruct (Rle_dec _ (e / 2)); lra.
Qed.

Lemma updated_residual_loop_succ n (e M E : R) :
  updated_residual_loop (S n) e M E =
  if (Math_abs (residual e M (newton_step e M E)) <? tolerance)%js
  then newton_step e M E
  else updated_residual_loop n e M (newton_step e M E).
Proof. reflexivity. Qed.

(** C1 as stated fails.  On the orbit [a = 1] whose eccentricity [e] is
    one and a half times the tolerance, from the mean anomaly [PI / 2]:
    the first pass finds the residual [- e], one and a half times the
    tolerance in size, and moves by the clamped step to [PI / 2 + e / 2],
    where the residual is at most [e / 2] in size, three quarters of the
    tolerance.  A loop that tests the residual of the angle it has just
    computed returns that angle, in its first pass;
    [eccentric_anomaly], which tests the residual it computed before the
    update, completes normally after a second pass and returns an angle
    that is larger.  (The divisor [1 - e cos E] is 1 in the first pass
    and above 1 in the second.) *)
Lemma newton_tests_stale_residual :
  let e := 3 / 2 * @tolerance R real in
  let h := [OKeplerianOrbit (example_orbit 1 e 0); OMeanAnomaly (PI / 2)] in
  exists E2,
    tolerance <= Rabs (residual e (PI / 2) (PI / 2)) /\
    Rabs (residual e (PI / 2) (PI / 2 + e / 2)) < tolerance /\
    1 <= derivative e (PI / 2) /\ 1 <= derivative e (PI / 2 + e / 2) /\
    updated_residual_solver e (PI / 2) = PI / 2 + e / 2 /\
    passes e (PI / 2) (PI / 2) 10 = 2%nat /\
    MeanAnomaly.eccentric_anomaly 1%nat 0%nat h =
      (Normal 2%nat, h ++ [OEccentricAnomaly E2]) /\
    E2 = newton_step e (PI / 2) (PI / 2 + e / 2) /\
    PI / 2 + e / 2 < E2.
Proof.
  intros e h. destruct stale_eccentricity as (P & Q & Q'). fold e in P, Q, Q'.
  destruct stale_first_pass as [R1 N1]. fold e in R1, N1.
  destruct stale_second_residual as [Lo Hi]. fold e in Lo, Hi.
  pose proof stale_second_pass as N2. cbv zeta in N2. fold e in N2.
  assert (A2 : Rabs (residual e (PI / 2) (PI / 2 + e / 2)) < tolerance)
    by (rewrite Rabs_left by exact Hi; lra).
  assert (T2 : (Math_abs (residual e (PI / 2) (PI / 2 + e / 2)) <? tolerance)%js
               = true)
    by (reals; apply Rltb_true; exact A2).
  assert (A1 : tolerance <= Rabs (residual e (PI / 2) (PI / 2)))
    by (rewrite R1, Rabs_Ropp, Rabs_right; lra).
  assert (Pk : passes e (PI / 2) (PI / 2) 10 = 2%nat).
  { rewrite passes_succ. reals. rewrite (Rltb_false _ _ A1).
    rewrite N1, passes_succ. reals. now rewrite T2. }
  exists (newton_step e (PI / 2) (PI / 2 + e / 2)).
  split; [exact A1|]. split; [exact A2|].
  split; [unfold derivative; reals; rewrite cos_PI2; lra|].
  split.
  { unfold derivative. reals.
    rewrite cos_plus, cos_PI2, sin_PI2.
    assert (0 <= sin (e / 2)) by (apply sin_ge_0; pose proof PI2_3_2; lra).
    nra. }
  split; [|split; [exact Pk|split; [|split; [reflexivity|exact N2]]]].
  - unfold updated_residual_solver.
    rewrite updated_residual_loop_succ, N1. reals. now rewrite T2.
  - rewrite (eccentric_anomaly_run h 1%nat 0%nat (example_orbit 1 e 0) (PI / 2))
      by reflexivity.
    cbn [eccentricity example_orbit]. rewrite Pk. cbn [iterate].
    now rewrite N1.
Qed.

End StaleResidual.

(** ** The edges of binary64 *)

Section Binary64Edges.

Local Open Scope float_scope.

Lemma float_nan x : Prim2SF x = S754_nan -> x = nan.
Proof. intros E. apply Prim2SF_inj. now rewrite E. Qed.

Lemma SFeqb_finite s mx ex :
  SFeqb (S754_finite s mx ex) (S754_finite s mx ex) = true.
Proof.
  unfold SFeqb, SFcompare.
  change IntDef.Z.compare with Z.compare.
  change PosDef.Pos.compare_cont with Pos.compare_cont.
  rewrite Z.compare_refl. fold (Pos.compare mx mx).
  rewrite Pos.compare_refl. now destruct s.
Qed.

(** What is not finite is an infinity or [NaN]. *)
Lemma Prim2SF_not_finite x :
  is_finite x = false ->
  Prim2SF x = S754_nan \/ exists s, Prim2SF x = S754_infinity s.
Proof.
  unfold is_finite, is_nan, is_infinity.
  rewrite !FloatAxioms.eqb_spec, abs_spec.
  change (Prim2SF infinity) with (S754_infinity false).
  destruct (Prim2SF x) as [b|b| |s mx ex] eqn:E.
  - now destruct b.
  - intros _. right. now exists b.
  - intros _. now left.
  - rewrite SFeqb_finite. discriminate.
Qed.

Lemma sub_nan_l x : nan - x = nan.
Proof. apply float_nan. now rewrite sub_spec. Qed.

Lemma sub_nan_r x : x - nan = nan.
Proof.
  apply float_nan. rewrite sub_spec.
  change (Prim2SF nan) with S754_nan. now destruct (Prim2SF x).
Qed.

Lemma div_nan_l x : nan / x = nan.
Proof. apply float_nan. now rewrite div_spec. Qed.

(** [M - t - M] is [NaN] when [M] is not finite, whatever [t]. *)
Lemma sub_sub_not_finite M t : is_finite M = false -> M - t - M = nan.
Proof.
  intros F. apply float_nan. rewrite !sub_spec.
  destruct (Prim2SF_not_finite M F) as [E|[s E]]; rewrite E; [reflexivity|].
  destruct (Prim2SF t) as [b|b| |st mt et]; destruct s; try destruct b;
    reflexivity.
Qed.

Lemma abs_opp x : abs (- x) = abs x.
Proof.
  apply Prim2SF_inj. rewrite !abs_spec, opp_spec.
  now destruct (Prim2SF x).
Qed.

Lemma abs_abs x : abs (abs x) = abs x.
Proof.
  apply Prim2SF_inj. rewrite !abs_spec. now destruct (Prim2SF x).
Qed.

Lemma abs_not_below_zero x : (abs x <? 0) = false.
Proof.
  rewrite ltb_spec, abs_spec. change (Prim2SF 0) with (S754_zero false).
  now destruct (Prim2SF x).
Qed.

Variable m : MathLibrary.

#[local] Instance arithmetic : Number float := binary64 m.

Implicit Types (h : heap float) (this orbit : loc) (o : orbit_fields float).

Lemma residual_not_finite (e M E : float) :
  is_finite M = false -> E = M \/ E = nan -> residual e M E = nan.
Proof.
  intros F [->| ->]; unfold residual; cbn [sub mul Math_sin arithmetic binary64].
  - now apply sub_sub_not_finite.
  - now rewrite !sub_nan_l.
Qed.

Lemma newton_step_nan (e M E : float) :
  residual e M E = nan -> newton_step e M E = nan.
Proof.
  intros R. unfold newton_step. rewrite R.
  cbn [sub div neg lit_2 Math_min Math_max arithmetic binary64].
  rewrite div_nan_l.
  replace (float_max nan (- e / 2)) with nan by reflexivity.
  replace (float_min nan (e / 2)) with nan by reflexivity.
  apply sub_nan_r.
Qed.

Lemma nan_not_below_tolerance : (Math_abs nan <? tolerance)%js = false.
Proof. reflexivity. Qed.

Lemma passes_not_finite (e M E : float) n :
  is_finite M = false -> E = M \/ E = nan ->
  passes e M E n = n /\ (0 < n -> iterate e M E n = nan)%nat.
Proof.
  intros F. revert E. induction n as [|n IH]; intros E HE.
  - split; [reflexivity|lia].
  - pose proof (residual_not_finite e M E F HE) as R.
    pose proof (newton_step_nan e M E R) as S.
    destruct (IH (newton_step e M E) (or_intror S)) as [P I].
    rewrite passes_succ, R, nan_not_below_tolerance, P.
    split; [reflexivity|]. intros _. cbn [iterate].
    destruct n as [|n]; [exact S|]. apply I. lia.
Qed.

(** X17. A mean anomaly that is not finite.  On [NaN] and on the two
    infinities the solver never meets its tolerance: the residual is
    [NaN] in every pass, all 10 passes are run, and the eccentric anomaly
    returned, as a normal result, has the angle [NaN].  For every orbit
    and every engine. *)
Theorem newton_not_finite h this orbit o (M : float) :
  nth_error h orbit = Some (OKeplerianOrbit o) ->
  nth_error h this = Some (OMeanAnomaly M) ->
  is_finite M = false ->
  residual o.(eccentricity) M M = nan /\
  passes o.(eccentricity) M M 10 = 10%nat /\
  MeanAnomaly.eccentric_anomaly this orbit h =
    (Normal (length h), h ++ [OEccentricAnomaly nan]).
Proof.
  intros Ho Ht F.
  destruct (passes_not_finite o.(eccentricity) M M 10 F (or_introl eq_refl))
    as [P I].
  split; [apply residual_not_finite; auto|]. split; [exact P|].
  rewrite (eccentric_anomaly_run h this orbit o M Ho Ht), P, I by lia.
  reflexivity.
Qed.

End Binary64Edges.

(** ** Where the contract of a circular orbit ends *)

Section Limits.

(** C10 as stated fails at a mean anomaly that is not finite.  In
    binary64, on a circular orbit and on every engine, the mean anomalies
    [Infinity] and [NaN] make the residual [NaN], not 0: all 10 passes are
    run and the angle returned is [NaN]. *)
Lemma circular_newton_not_finite :
  (forall m : MathLibrary,
     let h := [OKeplerianOrbit {| semimajor_axis := 1%float;
                                  eccentricity := 0%float;
                                  argument_of_periapsis := 0%float;
                                  clockwise := false |};
               OMeanAnomaly infinity] in
     residual (N := binary64 m) 0%float infinity infinity = nan /\
     passes (N := binary64 m) 0%float infinity infinity 10 = 10%nat /\
     MeanAnomaly.eccentric_anomaly (N := binary64 m) 1%nat 0%nat h =
       (Normal 2%nat, h ++ [OEccentricAnomaly nan])) /\
  (forall m : MathLibrary,
     let h := [OKeplerianOrbit {| semimajor_axis := 1%float;
                                  eccentricity := 0%float;
                                  argument_of_periapsis := 0%float;
                                  clockwise := false |};
               OMeanAnomaly nan] in
     passes (N := binary64 m) 0%float nan nan 10 = 10%nat /\
     MeanAnomaly.eccentric_anomaly (N := binary64 m) 1%nat 0%nat h =
       (Normal 2%nat, h ++ [OEccentricAnomaly nan])).
Proof.
  split; intros m h.
  - destruct (passes_not_finite m 0%float infinity infinity 10 eq_refl
                (or_introl eq_refl)) as [P I].
    unfold arithmetic in P, I.
    split; [exact (residual_not_finite m 0%float infinity infinity eq_refl
                     (or_introl eq_refl))|].
    split; [exact P|].
    rewrite (eccentric_anomaly_run (N := binary64 m) h 1%nat 0%nat _ infinity
               eq_refl eq_refl).
    cbn [eccentricity]. rewrite P, I by lia. reflexivity.
  - destruct (passes_not_finite m 0%float nan nan 10 eq_refl
                (or_introl eq_refl)) as [P I].
    unfold arithmetic in P, I.
    split; [exact P|].
    rewrite (eccentric_anomaly_run (N := binary64 m) h 1%nat 0%nat _ nan
               eq_refl eq_refl).
    cbn [eccentricity]. rewrite P, I by lia. reflexivity.
Qed.

End Limits.

(** ** The constructor, in both arithmetics *)

Section Normalization.

(** X18. The constructor forgets the signs of the semimajor axis and of the
    eccentricity, and normalizes once and for all: the arguments [- a]
    and [- e] build the orbit that [a] and [e] build, an orbit built from
    the fields of a constructed orbit has the same fields, and the
    semimajor axis and the eccentricity stored are never below 0.  In
    exact arithmetic and in binary64. *)
Theorem constructor_forgets_sign :
  (forall (a e : R) (w : option R) (cw : option bool) (h : heap R),
     KeplerianOrbit.constructor (- a)%R (Some (- e)%R) w cw h =
     KeplerianOrbit.constructor a (Some e) w cw h /\
     (exists o,
        (orbit <- KeplerianOrbit.constructor a (Some e) w cw ;; orbit_of orbit) h =
          (Normal o, h ++ [OKeplerianOrbit o]) /\
        (0 <= o.(semimajor_axis))%R /\ (0 <= o.(eccentricity))%R /\
        forall h',
          KeplerianOrbit.constructor o.(semimajor_axis) (Some o.(eccentricity))
            (Some o.(argument_of_periapsis)) (Some o.(clockwise)) h' =
          (Normal (length h'), h' ++ [OKeplerianOrbit o]))) /\
  (forall (m : MathLibrary) (a e : float) (w : option float)
          (cw : option bool) (h : heap float),
     KeplerianOrbit.constructor (N := binary64 m) (- a)%float (Some (- e)%float)
       w cw h =
     KeplerianOrbit.constructor (N := binary64 m) a (Some e) w cw h /\
     (exists o,
        (orbit <- KeplerianOrbit.constructor (N := binary64 m) a (Some e) w cw ;;
         orbit_of orbit) h = (Normal o, h ++ [OKeplerianOrbit o]) /\
        PrimFloat.ltb o.(semimajor_axis) 0 = false /\
        PrimFloat.ltb o.(eccentricity) 0 = false /\
        forall h',
          KeplerianOrbit.constructor (N := binary64 m)
            o.(semimajor_axis) (Some o.(eccentricity))
            (Some o.(argument_of_periapsis)) (Some o.(clockwise)) h' =
          (Normal (length h'), h' ++ [OKeplerianOrbit o]))).
Proof.
  split.
  - intros a e w cw h. split.
    + unfold KeplerianOrbit.constructor. reals. cbn [default].
      now rewrite !Rabs_Ropp.
    + eexists. split; [|split; [|split]].
      * erewrite bind_normal by reflexivity.
        apply orbit_of_run, lookup_new.
      * apply Rabs_pos.
      * apply Rabs_pos.
      * intros h'. unfold KeplerianOrbit.constructor, new.
        cbn [default semimajor_axis eccentricity argument_of_periapsis clockwise].
        reals. now rewrite !Rabs_Rabsolu.
  - intros m a e w cw h. split.
    + unfold KeplerianOrbit.constructor.
      cbn [Math_abs binary64 default]. now rewrite !abs_opp.
    + eexists. split; [|split; [|split]].
      * erewrite bind_normal by reflexivity.
        apply orbit_of_run, lookup_new.
      * apply abs_not_below_zero.
      * apply abs_not_below_zero.
      * intros h'. unfold KeplerianOrbit.constructor, new.
        cbn [default semimajor_axis eccentricity argument_of_periapsis clockwise].
        cbn [Math_abs binary64]. now rewrite !abs_abs.
Qed.

End Normalization.

(** ** The scene graph *)

Section SceneGraph.

Import Scene.
Local Open Scope scene_scope.

Implicit Types (s : scene) (l this child : loc) (o : Object).

(** *** The store *)

Lemma length_replace s l o : length (replace s l o) = length s.
Proof. revert l. induction s as [|a t IH]; intros [|l]; simpl; auto. Qed.

Lemma lookup_replace s l o :
  l < length s -> nth_error (replace s l o) l = Some o.
Proof.
  revert l. induction s as [|a t IH]; intros [|l] H; simpl in *;
    [lia|lia|reflexivity|]. apply IH. lia.
Qed.

Lemma lookup_replace_other s l l' o :
  l' <> l -> nth_error (replace s l o) l' = nth_error s l'.
Proof.
  revert l l'. induction s as [|a t IH]; intros [|l] [|l'] H; simpl;
    try reflexivity; [congruence|]. apply IH. congruence.
Qed.

Lemma lookup_valid s l : l < length s -> exists o, nth_error s l = Some o.
Proof.
  intros H. destruct (nth_error s l) as [o|] eqn:E; [now exists o|].
  apply nth_error_None in E. lia.
Qed.

Lemma valid_lookup s l o : nth_error s l = Some o -> l < length s.
Proof. intros E. apply nth_error_Some. congruence. Qed.

Lemma bind_run A B (c : Run A) (k : A -> Run B) s a s' :
  c s = (Normal a, s') -> bind c k s = k a s'.
Proof. intros E. unfold bind. now rewrite E. Qed.

Lemma get_run s l o : nth_error s l = Some o -> get l s = (Normal o, s).
Proof. intros E. unfold get. now rewrite E. Qed.

Lemma get_fails s l A (k : Object -> Run A) :
  length s <= l ->
  bind (get l) k s = (Throw (TypeError "not an object"), s).
Proof.
  intros H. apply nth_error_None in H. unfold bind, get. now rewrite H.
Qed.

(** *** The two assignments *)

Lemma set_children_effect s l cs :
  l < length s ->
  exists s',
    set_children l cs s = (Normal tt, s') /\
    length s' = length s /\
    children_of s' l = cs /\
    (forall l', l' <> l -> children_of s' l' = children_of s l') /\
    (forall l', parent_of s' l' = parent_of s l') /\
    (forall l', placement s' l' = placement s l').
Proof.
  intros V. destruct (lookup_valid s l V) as [o E].
  eexists. split.
  { unfold set_children. rewrite (bind_run _ _ _ _ _ _ _ (get_run s l o E)).
    unfold put. rewrite E. reflexivity. }
  split; [apply length_replace|].
  unfold children_of, parent_of, placement.
  split; [now rewrite lookup_replace|].
  split; [intros l' N; now rewrite lookup_replace_other|].
  split; intros l'; destruct (Nat.eq_dec l' l) as [->|N];
    rewrite ?lookup_replace, ?lookup_replace_other, ?E by assumption;
    reflexivity.
Qed.

Lemma set_parent_effect s l p :
  l < length s ->
  exists s',
    set_parent l p s = (Normal tt, s') /\
    length s' = length s /\
    parent_of s' l = p /\
    (forall l', l' <> l -> parent_of s' l' = parent_of s l') /\
    (forall l', children_of s' l' = children_of s l') /\
    (forall l', placement s' l' = placement s l').
Proof.
  intros V. destruct (lookup_valid s l V) as [o E].
  eexists. split.
  { unfold set_parent. rewrite (bind_run _ _ _ _ _ _ _ (get_run s l o E)).
    unfold put. rewrite E. reflexivity. }
  split; [apply length_replace|].
  unfold children_of, parent_of, placement.
  split; [now rewrite lookup_replace|].
  split; [intros l' N; now rewrite lookup_replace_other|].
  split; intros l'; destruct (Nat.eq_dec l' l) as [->|N];
    rewrite ?lookup_replace, ?lookup_replace_other, ?E by assumption;
    reflexivity.
Qed.

(** No reference differs from itself: the filter keeps nothing. *)
Lemma filter_not_itself (cs : list loc) :
  filter (fun child => negb (Nat.eqb child child)) cs = [].
Proof.
  induction cs as [|c cs IH]; [reflexivity|].
  simpl. now rewrite Nat.eqb_refl.
Qed.

(** *** The methods *)

Lemma removeChild_effect s this child :
  this < length s -> child < length s ->
  exists s',
    removeChild this child s = (Normal tt, s') /\
    length s' = length s /\
    children_of s' this = [] /\
    parent_of s' child = None /\
    (forall l, l <> this -> children_of s' l = children_of s l) /\
    (forall l, l <> child -> parent_of s' l = parent_of s l) /\
    (forall l, placement s' l = placement s l).
Proof.
  intros Vt Vc. destruct (lookup_valid s this Vt) as [o E].
  destruct (set_children_effect s this [] Vt) as (s1 & R1 & L1 & C1 & C1' & P1 & D1).
  destruct (set_parent_effect s1 child None ltac:(lia))
    as (s2 & R2 & L2 & P2 & P2' & C2 & D2).
  exists s2. split.
  { unfold removeChild. rewrite (bind_run _ _ _ _ _ _ _ (get_run s this o E)).
    rewrite filter_not_itself. now rewrite (bind_run _ _ _ _ _ _ _ R1). }
  split; [lia|]. split; [now rewrite C2|]. split; [exact P2|].
  split; [intros l N; now rewrite C2, C1'|].
  split; [intros l N; now rewrite P2', P1|].
  intros l. now rewrite D2, D1.
Qed.

Lemma has_parent_spec s c p :
  Bool.reflect (parent_of s c = Some p) (has_parent s c p).
Proof.
  unfold has_parent. destruct (parent_of s c) as [q|].
  - destruct (Nat.eqb_spec q p) as [->|N]; constructor; congruence.
  - constructor. discriminate.
Qed.

Lemma removeParent_effect s this :
  this < length s ->
  (forall q, parent_of s this = Some q -> q < length s) ->
  exists s',
    removeParent this s = (Normal tt, s') /\
    length s' = length s /\
    parent_of s' this = None /\
    (forall l, l <> this -> parent_of s' l = parent_of s l) /\
    (forall q, parent_of s this = Some q -> children_of s' q = []) /\
    (forall l, parent_of s this <> Some l -> children_of s' l = children_of s l) /\
    (forall l, placement s' l = placement s l).
Proof.
  intros V Vq. destruct (lookup_valid s this V) as [o E].
  assert (Po : parent_of s this = o.(parent)) by (unfold parent_of; now rewrite E).
  unfold removeParent. rewrite (bind_run _ _ _ _ _ _ _ (get_run s this o E)).
  destruct (parent o) as [q|] eqn:Q.
  - destruct (removeChild_effect s q this (Vq q Po) V)
      as (s' & R & L & C & P & C' & P' & D).
    exists s'. split; [exact R|]. split; [exact L|]. split; [exact P|].
    split; [exact P'|].
    split; [intros q' Hq; rewrite Po in Hq; now injection Hq as <-|].
    split; [intros l N; apply C'; rewrite Po in N; congruence|exact D].
  - destruct (set_parent_effect s this None V) as (s' & R & L & P & P' & C & D).
    exists s'. split; [exact R|]. split; [exact L|]. split; [exact P|].
    split; [exact P'|].
    split; [intros q Hq; rewrite Po in Hq; discriminate|].
    split; [intros l _; apply C|exact D].
Qed.

Lemma addChild_effect s this child :
  this < length s -> child < length s ->
  (forall q, parent_of s child = Some q -> q < length s) ->
  exists s',
    addChild this child s = (Normal tt, s') /\
    length s' = length s /\
    parent_of s' child = Some this /\
    children_of s' this =
      (if has_parent s child this then [] else children_of s this) ++ [child] /\
    (forall q, parent_of s child = Some q -> q <> this ->
       children_of s' q = []) /\
    (forall l, l <> this -> parent_of s child <> Some l ->
       children_of s' l = children_of s l) /\
    (forall l, l <> child -> parent_of s' l = parent_of s l) /\
    (forall l, placement s' l = placement s l).
Proof.
  intros Vt Vc Vq.
  destruct (removeParent_effect s child Vc Vq)
    as (s1 & R1 & L1 & P1 & P1' & C1 & C1' & D1).
  destruct (lookup_valid s1 this ltac:(lia)) as [o E].
  assert (Co : children_of s1 this = o.(children))
    by (unfold children_of; now rewrite E).
  destruct (set_children_effect s1 this (o.(children) ++ [child]) ltac:(lia))
    as (s2 & R2 & L2 & C2 & C2' & P2 & D2).
  destruct (set_parent_effect s2 child (Some this) ltac:(lia))
    as (s3 & R3 & L3 & P3 & P3' & C3 & D3).
  exists s3. split.
  { unfold addChild. rewrite (bind_run _ _ _ _ _ _ _ R1).
    rewrite (bind_run _ _ _ _ _ _ _ (get_run s1 this o E)).
    now rewrite (bind_run _ _ _ _ _ _ _ R2). }
  split; [lia|]. split; [exact P3|].
  split.
  { rewrite C3, C2, <- Co. f_equal.
    destruct (has_parent_spec s child this) as [Y|N].
    - now apply C1.
    - now apply C1'. }
  split; [intros q Hq N; rewrite C3, C2' by exact N; now apply C1|].
  split; [intros l N N'; rewrite C3, C2' by exact N; now apply C1'|].
  split; [intros l N; rewrite P3', P2 by exact N; now apply P1'|].
  intros l. now rewrite D3, D2, D1.
Qed.

(** What [addChild] leaves keeps the children listed under their
    parent. *)
Lemma addChild_keeps s s' this child :
  parent_of s' child = Some this ->
  children_of s' this =
    (if has_parent s child this then [] else children_of s this) ++ [child] ->
  (forall q, parent_of s child = Some q -> q <> this -> children_of s' q = []) ->
  (forall l, l <> this -> parent_of s child <> Some l ->
     children_of s' l = children_of s l) ->
  (forall l, l <> child -> parent_of s' l = parent_of s l) ->
  children_know_parent s -> children_know_parent s'.
Proof.
  intros P3 Ct Cq Cl Pl Inv p c Hc.
  destruct (Nat.eq_dec c child) as [->|Nc].
  - (* the child itself: it is listed by the receiver alone *)
    destruct (Nat.eq_dec p this) as [->|Np]; [exact P3|].
    exfalso.
    destruct (has_parent_spec s child p) as [Y|N].
    + rewrite (Cq p Y Np) in Hc. exact Hc.
    + rewrite (Cl p Np N) in Hc. apply Inv in Hc. congruence.
  - rewrite (Pl c Nc). apply Inv.
    destruct (Nat.eq_dec p this) as [->|Np].
    + rewrite Ct in Hc. apply in_app_or in Hc.
      destruct Hc as [Hc|[Hc|[]]]; [|congruence].
      destruct (has_parent s child this); [destruct Hc|exact Hc].
    + destruct (has_parent_spec s child p) as [Y|N].
      * rewrite (Cq p Y Np) in Hc. destruct Hc.
      * now rewrite (Cl p Np N) in Hc.
Qed.

(** *** The contracts *)

(** X19. [removeChild] removes every child.  Called on an object with any
    object as argument, a child or not, it completes normally, empties
    the list of children of the receiver and clears the parent of the
    argument; no other link changes and nothing is moved.  So an object
    that was a child besides the argument keeps the receiver as its
    parent and is no longer listed among its children. *)
Theorem removeChild_removes_every_child s this child :
  this < length s -> child < length s ->
  exists s',
    removeChild this child s = (Normal tt, s') /\
    length s' = length s /\
    children_of s' this = [] /\
    parent_of s' child = None /\
    (forall l, l <> this -> children_of s' l = children_of s l) /\
    (forall l, l <> child -> parent_of s' l = parent_of s l) /\
    (forall l, placement s' l = placement s l) /\
    (forall sibling,
       sibling <> child -> parent_of s sibling = Some this ->
       parent_of s' sibling = Some this /\ ~ In sibling (children_of s' this)).
Proof.
  intros Vt Vc.
  destruct (removeChild_effect s this child Vt Vc)
    as (s' & R & L & C & P & C' & P' & D).
  exists s'. repeat (split; [assumption|]).
  intros sibling N Hp. split; [now rewrite P'|].
  rewrite C. intros [].
Qed.

(** X20. [addChild] moves the child under the receiver.  The child is taken
    from the parent it had, whose list of children is emptied (of the
    child and of every other object), it is put last among the children
    of the receiver and the receiver becomes its parent; no other link
    changes and nothing is moved.  If every object listed as a child
    had the lister as its parent before, so it is after. *)
Theorem addChild_adopts s this child :
  this < length s -> child < length s ->
  (forall q, parent_of s child = Some q -> q < length s) ->
  exists s',
    addChild this child s = (Normal tt, s') /\
    length s' = length s /\
    parent_of s' child = Some this /\
    children_of s' this =
      (if has_parent s child this then [] else children_of s this) ++ [child] /\
    (forall q, parent_of s child = Some q -> q <> this ->
       children_of s' q = []) /\
    (forall l, l <> this -> parent_of s child <> Some l ->
       children_of s' l = children_of s l) /\
    (forall l, l <> child -> parent_of s' l = parent_of s l) /\
    (forall l, placement s' l = placement s l) /\
    (children_know_parent s -> children_know_parent s').
Proof.
  intros Vt Vc Vq.
  destruct (addChild_effect s this child Vt Vc Vq)
    as (s' & R & L & P & Ct & Cq & Cl & Pl & D).
  exists s'. repeat (split; [assumption|]).
  now apply (addChild_keeps s s' this child).
Qed.

(** X21. Detaching.  [removeParent] clears the parent of the receiver and
    empties the list of children of that parent, and what is listed as a
    child still has the lister as its parent.  [setParent(null)] clears
    the parent of the receiver and nothing else: the object stays listed
    among the children of the parent it had. *)
Theorem setParent_null_keeps_listing s this p :
  this < length s -> p < length s ->
  parent_of s this = Some p -> In this (children_of s p) ->
  (exists s',
     setParent this None s = (Normal tt, s') /\
     parent_of s' this = None /\
     In this (children_of s' p) /\
     (forall l, children_of s' l = children_of s l) /\
     (forall l, l <> this -> parent_of s' l = parent_of s l) /\
     ~ children_know_parent s') /\
  (exists s',
     removeParent this s = (Normal tt, s') /\
     parent_of s' this = None /\
     children_of s' p = [] /\
     (forall l, l <> p -> children_of s' l = children_of s l) /\
     (forall l, l <> this -> parent_of s' l = parent_of s l) /\
     (children_know_parent s -> children_know_parent s')).
Proof.
  intros Vt Vp Hp Hc. split.
  - destruct (set_parent_effect s this None Vt) as (s' & R & L & P & P' & C & D).
    exists s'. split; [exact R|]. split; [exact P|].
    split; [now rewrite C|]. split; [exact C|]. split; [exact P'|].
    intros Inv. specialize (Inv p this). rewrite C, P in Inv.
    now specialize (Inv Hc).
  - destruct (removeParent_effect s this Vt)
      as (s' & R & L & P & P' & C & C' & D).
    { intros q Hq. congruence. }
    exists s'. split; [exact R|]. split; [exact P|].
    split; [now apply C|].
    split; [intros l N; apply C'; congruence|]. split; [exact P'|].
    intros Inv q c Hq.
    destruct (Nat.eq_dec q p) as [->|Nq]; [rewrite (C p Hp) in Hq; destruct Hq|].
    rewrite C' in Hq by congruence.
    destruct (Nat.eq_dec c this) as [->|Nc].
    + apply Inv in Hq. congruence.
    + rewrite P' by exact Nc. now apply Inv.
Qed.

(** *** The constructor *)

Lemma or_zero_not_nan v : PrimFloat.is_nan (or_zero v) = false.
Proof.
  destruct v as [n|]; [|reflexivity]. unfold or_zero, truthy.
  destruct (PrimFloat.is_zero n); [reflexivity|].
  destruct (PrimFloat.is_nan n) eqn:E; [reflexivity|exact E].
Qed.

Lemma or_zero_cases v :
  match v with
  | Some n =>
      if (PrimFloat.eqb n 0 || PrimFloat.is_nan n)%bool
      then or_zero v = 0%float else or_zero v = n
  | None => or_zero v = 0%float
  end.
Proof.
  destruct v as [n|]; [|reflexivity].
  unfold or_zero, truthy, PrimFloat.is_zero, PrimFloat.zero.
  now destruct (PrimFloat.eqb n 0 || PrimFloat.is_nan n)%bool.
Qed.

Lemma flag_or_zero_cases v :
  match v with
  | Some (FNumber n) =>
      if (PrimFloat.eqb n 0 || PrimFloat.is_nan n)%bool
      then flag_or_zero v = FNumber 0%float else flag_or_zero v = FNumber n
  | Some (FBoolean true) => flag_or_zero v = FBoolean true
  | Some (FBoolean false) | None => flag_or_zero v = FNumber 0%float
  end.
Proof.
  destruct v as [[n|[|]]|]; try reflexivity.
  unfold flag_or_zero, truthy, PrimFloat.is_zero, PrimFloat.zero.
  now destruct (PrimFloat.eqb n 0 || PrimFloat.is_nan n)%bool.
Qed.

Section Alloc.

Variables (s : scene) (o : Object).

Lemma children_of_alloc l :
  children_of (s ++ [o]) l =
  if Nat.eqb l (length s) then o.(children) else children_of s l.
Proof.
  unfold children_of. destruct (Nat.eqb_spec l (length s)) as [->|N].
  - now rewrite nth_error_app2, Nat.sub_diag by lia.
  - destruct (Nat.lt_ge_cases l (length s)) as [V|V].
    + now rewrite nth_error_app1.
    + assert (E : nth_error (s ++ [o]) l = None)
        by (apply nth_error_None; rewrite length_app; simpl; lia).
      assert (E' : nth_error s l = None) by (apply nth_error_None; lia).
      now rewrite E, E'.
Qed.

Lemma parent_of_alloc l :
  parent_of (s ++ [o]) l =
  if Nat.eqb l (length s) then o.(parent) else parent_of s l.
Proof.
  unfold parent_of. destruct (Nat.eqb_spec l (length s)) as [->|N].
  - now rewrite nth_error_app2, Nat.sub_diag by lia.
  - destruct (Nat.lt_ge_cases l (length s)) as [V|V].
    + now rewrite nth_error_app1.
    + assert (E : nth_error (s ++ [o]) l = None)
        by (apply nth_error_None; rewrite length_app; simpl; lia).
      assert (E' : nth_error s l = None) by (apply nth_error_None; lia).
      now rewrite E, E'.
Qed.

Lemma placement_alloc l :
  l <> length s -> placement (s ++ [o]) l = placement s l.
Proof.
  intros N. unfold placement.
  destruct (Nat.lt_ge_cases l (length s)) as [V|V].
  - now rewrite nth_error_app1.
  - assert (E : nth_error (s ++ [o]) l = None)
      by (apply nth_error_None; rewrite length_app; simpl; lia).
    assert (E' : nth_error s l = None) by (apply nth_error_None; lia).
    now rewrite E, E'.
Qed.

End Alloc.

Lemma parent_of_valid s c p : parent_of s c = Some p -> c < length s.
Proof.
  unfold parent_of. destruct (nth_error s c) eqn:E; [|discriminate].
  intros _. now apply valid_lookup in E.
Qed.

(** X22. [new Object(data)] hangs the new object under [data.parent].  The
    constructor completes normally with a new object that has no
    children.  Each of its [x], [y] and [rotation] is the number [data]
    has there when that number is neither a zero nor [NaN], and [+0]
    otherwise: when the number is [+0], [-0] or [NaN], when [data] has
    nothing there, and when there is no [data]; so none of them is [NaN].
    Its [propagateRotation] is that of [data] when it is [true] or a
    number that is neither a zero nor [NaN], and the number [+0]
    otherwise.  With a parent given, the new object is put last among the
    children of that parent and has it as its parent, and without one it
    has none.  No other link changes and nothing is moved.  Both
    directions of the link between parents and children are kept: what is
    listed as a child has the lister as its parent, and what has a parent
    is listed among its children. *)
Theorem constructor_links s data :
  let given := match data with Some d => d.(data_parent) | None => None end in
  (forall p, given = Some p -> p < length s) ->
  exists s',
    constructor data s = (Normal (length s), s') /\
    length s' = S (length s) /\
    parent_of s' (length s) = given /\
    children_of s' (length s) = [] /\
    (exists x y r f,
       placement s' (length s) = Some (x, y, r, f) /\
       PrimFloat.is_nan x = false /\ PrimFloat.is_nan y = false /\
       PrimFloat.is_nan r = false /\
       let stored (v : option float) (c : float) :=
         match v with
         | Some n =>
             if (PrimFloat.eqb n 0 || PrimFloat.is_nan n)%bool
             then c = 0%float else c = n
         | None => c = 0%float
         end in
       match data with
       | Some d =>
           stored d.(data_x) x /\ stored d.(data_y) y /\
           stored d.(data_rotation) r /\
           match d.(data_propagateRotation) with
           | Some (FNumber n) =>
               if (PrimFloat.eqb n 0 || PrimFloat.is_nan n)%bool
               then f = FNumber 0%float else f = FNumber n
           | Some (FBoolean true) => f = FBoolean true
           | Some (FBoolean false) | None => f = FNumber 0%float
           end
       | None =>
           x = 0%float /\ y = 0%float /\ r = 0%float /\ f = FNumber 0%float
       end) /\
    (forall p, given = Some p ->
       children_of s' p = children_of s p ++ [length s]) /\
    (forall l, given <> Some l -> l <> length s ->
       children_of s' l = children_of s l) /\
    (forall l, l <> length s ->
       parent_of s' l = parent_of s l /\ placement s' l = placement s l) /\
    (children_know_parent s -> children_know_parent s') /\
    (parents_list_children s -> parents_list_children s').
Proof.
  intros given Vp. unfold constructor.
  set (d := default _ data).
  assert (G : d.(data_parent) = given) by (unfold d, given; now destruct data).
  set (o := {| x := or_zero d.(data_x); y := or_zero d.(data_y);
               rotation := or_zero d.(data_rotation);
               propagateRotation := flag_or_zero d.(data_propagateRotation);
               children := []; parent := None |}).
  set (n := length s). set (s0 := s ++ [o]).
  assert (L0 : length s0 = S n) by (unfold s0; rewrite length_app; simpl; lia).
  assert (A : alloc o s = (Normal n, s0)) by reflexivity.
  assert (C0 : forall l, children_of s0 l = children_of s l).
  { intros l. unfold s0. rewrite children_of_alloc. fold n.
    destruct (Nat.eqb_spec l n) as [->|N]; [|reflexivity].
    unfold children_of. assert (E : nth_error s n = None)
      by (apply nth_error_None; unfold n; lia). now rewrite E. }
  assert (P0 : forall l, parent_of s0 l = parent_of s l).
  { intros l. unfold s0. rewrite parent_of_alloc. fold n.
    destruct (Nat.eqb_spec l n) as [->|N]; [|reflexivity].
    unfold parent_of. assert (E : nth_error s n = None)
      by (apply nth_error_None; unfold n; lia). now rewrite E. }
  assert (D0 : placement s0 n =
               Some (or_zero d.(data_x), or_zero d.(data_y),
                     or_zero d.(data_rotation),
                     flag_or_zero d.(data_propagateRotation))).
  { unfold placement, s0, n. now rewrite nth_error_app2, Nat.sub_diag by lia. }
  assert (Nn : parent_of s n = None).
  { unfold parent_of. assert (E : nth_error s n = None)
      by (apply nth_error_None; unfold n; lia). now rewrite E. }
  assert (Cn : children_of s n = []).
  { unfold children_of. assert (E : nth_error s n = None)
      by (apply nth_error_None; unfold n; lia). now rewrite E. }
  assert (exists s',
            setParent n given s0 = (Normal tt, s') /\
            length s' = S n /\
            parent_of s' n = given /\
            children_of s' n = [] /\
            (forall p, given = Some p -> children_of s' p = children_of s p ++ [n]) /\
            (forall l, given <> Some l -> l <> n ->
               children_of s' l = children_of s l) /\
            (forall l, l <> n -> parent_of s' l = parent_of s l) /\
            (forall l, placement s' l = placement s0 l))
    as (s' & R & L & P & Cself & Cp & Cl & Pl & D).
  { destruct given as [p|] eqn:Given.
    - assert (Vp' : p < n) by now apply Vp.
      destruct (addChild_effect s0 p n ltac:(lia) ltac:(lia))
        as (s' & R & L & P & Ct & Cq & Cl & Pl & D).
      { intros q Hq. rewrite P0, Nn in Hq. discriminate. }
      assert (H0 : has_parent s0 n p = false)
        by (unfold has_parent; now rewrite P0, Nn).
      rewrite H0, C0 in Ct.
      exists s'. split; [exact R|]. split; [lia|]. split; [exact P|].
      split.
      { rewrite Cl, C0 by (rewrite ?P0, ?Nn; congruence || lia). exact Cn. }
      split; [now intros p' [= <-]|].
      split.
      { intros l N N'. rewrite Cl, C0; [reflexivity|congruence|].
        rewrite P0, Nn. discriminate. }
      split; [intros l N; now rewrite Pl, P0|exact D].
    - destruct (set_parent_effect s0 n None ltac:(lia))
        as (s' & R & L & P & P' & C & D).
      exists s'. split; [exact R|]. split; [lia|]. split; [exact P|].
      split; [now rewrite C, C0|]. split; [discriminate|].
      split; [intros l _ _; now rewrite C, C0|].
      split; [intros l N; now rewrite P', P0|exact D]. }
  exists s'. split.
  { rewrite (bind_run _ _ _ _ _ _ _ A). rewrite G.
    now rewrite (bind_run _ _ _ _ _ _ _ R). }
  split; [exact L|]. split; [exact P|]. split; [exact Cself|].
  split.
  { do 4 eexists. split; [rewrite D; exact D0|].
    split; [apply or_zero_not_nan|]. split; [apply or_zero_not_nan|].
    split; [apply or_zero_not_nan|].
    cbv zeta. unfold d. destruct data as [d'|]; cbn [default].
    - split; [exact (or_zero_cases _)|]. split; [exact (or_zero_cases _)|].
      split; [exact (or_zero_cases _)|exact (flag_or_zero_cases _)].
    - repeat split. }
  split; [exact Cp|]. split; [exact Cl|].
  split.
  { intros l N. split; [now apply Pl|].
    rewrite D. unfold s0. now apply placement_alloc. }
  split.
  - (* what is listed as a child has the lister as its parent *)
    intros Inv p c Hc.
    destruct (Nat.eq_dec p n) as [->|Np]; [rewrite Cself in Hc; destruct Hc|].
    destruct given as [g|] eqn:Given.
    + destruct (Nat.eq_dec p g) as [->|Ng].
      * rewrite (Cp g eq_refl) in Hc. apply in_app_or in Hc.
        destruct Hc as [Hc|[<-|[]]]; [|exact P].
        assert (c <> n).
        { apply Inv, parent_of_valid in Hc. unfold n. lia. }
        rewrite Pl by assumption. now apply Inv.
      * rewrite Cl in Hc by congruence.
        assert (c <> n).
        { apply Inv, parent_of_valid in Hc. unfold n. lia. }
        rewrite Pl by assumption. now apply Inv.
    + rewrite Cl in Hc by (discriminate || assumption).
      assert (c <> n).
      { apply Inv, parent_of_valid in Hc. unfold n. lia. }
      rewrite Pl by assumption. now apply Inv.
  - (* what has a parent is listed among its children *)
    intros Inv p c Hp.
    destruct (Nat.eq_dec c n) as [->|Nc].
    + rewrite P in Hp. rewrite (Cp p Hp). apply in_or_app. right. now left.
    + rewrite Pl in Hp by exact Nc. apply Inv in Hp.
      assert (p <> n).
      { intros ->. rewrite Cn in Hp. destruct Hp. }
      destruct given as [g|] eqn:Given.
      * destruct (Nat.eq_dec p g) as [->|Ng].
        -- rewrite (Cp g eq_refl). apply in_or_app. now left.
        -- rewrite Cl by congruence. exact Hp.
      * rewrite Cl by (discriminate || assumption). exact Hp.
Qed.

End SceneGraph.

(** ** The further contracts at concrete inputs *)

Section FurtherExamples.

Local Open Scope R_scope.

Local Abbreviation o := example_ellipse.
Local Abbreviation h := example_heap.

Lemma example_axis : 0 < o.(semimajor_axis).
Proof. simpl. lra. Qed.

Lemma example_axis_le : 0 <= o.(semimajor_axis).
Proof. simpl. lra. Qed.

Lemma example_eccentricity : 0 <= o.(eccentricity) < 1.
Proof. simpl. lra. Qed.

Lemma example_eccentricity_le : 0 <= o.(eccentricity) <= 1.
Proof. simpl. lra. Qed.

Lemma example_eccentricity_moderate : 0 <= o.(eccentricity) <= 9 / 10.
Proof. simpl. lra. Qed.

Lemma example_eccentricity_pos : 0 <= o.(eccentricity).
Proof. simpl. lra. Qed.

Lemma set_degrees_in_place_example :
  fst (send_set_degrees 1%nat 90 h) = Normal 1%nat /\
  nth_error (snd (send_set_degrees 1%nat 90 h)) 1%nat =
    Some (OTrueAnomaly (90 * (PI / 180))).
Proof.
  destruct (set_degrees_in_place h 1%nat (OTrueAnomaly 1) 90 eq_refl)
    as (A & _ & B & _).
  split; [exact A|exact B].
Defined.

Lemma degrees_round_trip_example :
  fst ((l <- send_set_degrees 2%nat 90 ;; send_get_degrees l) h) = Normal 90.
Proof.
  exact (proj1 (degrees_round_trip h 2%nat (OEccentricAnomaly 1) 1 90
                  eq_refl eq_refl)).
Defined.

Lemma ellipse_axes_example :
  exists b f,
    KeplerianOrbit.semiminor_axis 0%nat h = (Normal b, h) /\
    KeplerianOrbit.focal_point 0%nat h = (Normal f, h) /\
    b * b + f * f = o.(semimajor_axis) * o.(semimajor_axis).
Proof.
  destruct (ellipse_axes h 0%nat o eq_refl example_axis_le
              example_eccentricity_le) as (b & f & B & F & E & _).
  exists b, f. split; [exact B|]. split; [exact F|exact E].
Defined.

Lemma radius_between_apsides_example :
  exists r rp ra,
    TrueAnomaly.radius 1%nat 0%nat h = (Normal r, h) /\
    KeplerianOrbit.periapsis 0%nat h = (Normal rp, h) /\
    KeplerianOrbit.apoapsis 0%nat h = (Normal ra, h) /\
    rp <= r <= ra.
Proof.
  destruct (radius_between_apsides h 1%nat 0%nat o 1 eq_refl eq_refl
              example_axis_le example_eccentricity)
    as (r & rp & ra & A & B & C & D & _).
  exists r, rp, ra. split; [exact A|]. split; [exact B|].
  split; [exact C|exact D].
Defined.

Lemma eccentric_point_on_ellipse_example :
  exists p,
    EccentricAnomaly.point 2%nat 0%nat h = (Normal p, h) /\
    norm p = o.(semimajor_axis) * (1 - o.(eccentricity) * cos 1).
Proof.
  destruct (eccentric_point_on_ellipse h 2%nat 0%nat o 1 eq_refl eq_refl
              example_axis_le example_eccentricity_le)
    as (p & b & f & rp & ra & A & _ & _ & _ & _ & _ & B & _).
  exists p. split; [exact A|exact B].
Defined.

Lemma eccentric_true_radius_agree_example :
  exists p,
    EccentricAnomaly.point 2%nat 0%nat h = (Normal p, h) /\
    fst ((nu <- EccentricAnomaly.true_anomaly 2%nat 0%nat ;;
          TrueAnomaly.radius nu 0%nat) h) = Normal (norm p).
Proof.
  destruct (eccentric_true_radius_agree h 2%nat 0%nat o 1 eq_refl eq_refl
              example_axis example_eccentricity) as (p & A & B & _).
  exists p. split; [exact A|exact B].
Defined.

Lemma eccentric_true_round_trip_example :
  fst ((nu <- EccentricAnomaly.true_anomaly 2%nat 0%nat ;;
        back <- TrueAnomaly.eccentric_anomaly nu 0%nat ;;
        EccentricAnomaly.this_angle back) h) = Normal 1.
Proof.
  destruct (eccentric_true_round_trip h 2%nat 0%nat o 1 eq_refl eq_refl
              example_axis example_eccentricity eq_refl)
    as (E' & A & _ & B).
  rewrite A. f_equal. apply B, one_in_range.
Defined.

Lemma true_eccentric_round_trip_example :
  fst ((E <- TrueAnomaly.eccentric_anomaly 1%nat 0%nat ;;
        back <- EccentricAnomaly.true_anomaly E 0%nat ;;
        TrueAnomaly.this_angle back) h) = Normal 1.
Proof.
  destruct (true_eccentric_round_trip h 1%nat 0%nat o 1 eq_refl eq_refl
              example_axis example_eccentricity eq_refl)
    as (nu' & A & _ & B & _).
  rewrite A. f_equal. apply B, one_in_range.
Defined.

Lemma rotate_point_isometry_example :
  exists q,
    KeplerianOrbit.rotate_point 0%nat {| x := 3; y := 4 |} h =
      (Normal q, h) /\
    q.(x) * q.(x) + q.(y) * q.(y) = 3 * 3 + 4 * 4.
Proof.
  destruct (rotate_point_isometry h 0%nat o {| x := 3; y := 4 |} eq_refl)
    as (q & A & B & _).
  exists q. split; [exact A|exact B].
Defined.

Lemma true_point2d_cancels_periapsis_example :
  exists r,
    TrueAnomaly.radius 1%nat 0%nat h = (Normal r, h) /\
    TrueAnomaly.point2d 1%nat 0%nat h =
      (Normal {| x := r * cos 1; y := r * sin 1 |}, h).
Proof.
  exact (true_point2d_cancels_periapsis h 1%nat 0%nat o 1 eq_refl eq_refl).
Defined.

Lemma newton_stays_near_mean_example :
  exists E,
    MeanAnomaly.eccentric_anomaly 6%nat 0%nat h =
      (Normal (length h), h ++ [OEccentricAnomaly E]) /\
    Rabs (E - 1) <= 5 * o.(eccentricity).
Proof.
  exact (newton_stays_near_mean h 6%nat 0%nat o 1 eq_refl eq_refl
           example_eccentricity).
Defined.

Lemma newton_whole_turns_example :
  exists E,
    MeanAnomaly.eccentric_anomaly 3%nat 0%nat h =
      (Normal (length h), h ++ [OEccentricAnomaly E]) /\
    MeanAnomaly.eccentric_anomaly 5%nat 0%nat h =
      (Normal (length h), h ++ [OEccentricAnomaly (E + 2 * INR 1 * PI)]).
Proof.
  destruct (newton_whole_turns h 3%nat 5%nat 0%nat o
              0 1 eq_refl eq_refl eq_refl)
    as (E & A & B & _).
  exists E. split; [exact A|exact B].
Defined.

Lemma newton_odd_example :
  exists E,
    MeanAnomaly.eccentric_anomaly 6%nat 0%nat h =
      (Normal (length h), h ++ [OEccentricAnomaly E]) /\
    MeanAnomaly.eccentric_anomaly 7%nat 0%nat h =
      (Normal (length h), h ++ [OEccentricAnomaly (- E)]).
Proof.
  destruct (newton_odd h 6%nat 7%nat 0%nat o 1 eq_refl eq_refl eq_refl
              example_eccentricity_pos) as (E & A & B & _).
  exists E. split; [exact A|exact B].
Defined.

Lemma mean_anomaly_at_apsides_example :
  exists rp ra,
    KeplerianOrbit.periapsis 0%nat h = (Normal rp, h) /\
    KeplerianOrbit.apoapsis 0%nat h = (Normal ra, h) /\
    fst (MeanAnomaly.point 3%nat 0%nat h) = Normal {| x := rp; y := 0 |} /\
    fst (MeanAnomaly.point 4%nat 0%nat h) = Normal {| x := - ra; y := 0 |}.
Proof.
  destruct (mean_anomaly_at_apsides h 3%nat 4%nat 0%nat o eq_refl eq_refl
              eq_refl example_axis example_eccentricity)
    as (rp & ra & A & B & C & D & _).
  exists rp, ra. split; [exact A|]. split; [exact B|].
  split; [exact C|exact D].
Defined.

Lemma example_eccentricity_half : o.(eccentricity) <= 1 / 2.
Proof. simpl. lra. Qed.

(** At the mean anomaly [1/2] the first pass finds a residual above the
    tolerance: the solver has to move. *)
Lemma example_moves :
  (1 < passes o.(eccentricity) (1 / 2)%R (1 / 2)%R 10)%nat.
Proof.
  apply passes_lower; [|lia].
  pose proof tolerance_small as S. pose proof sin_half as H.
  unfold residual. reals. cbn [eccentricity example_ellipse example_orbit].
  replace (1 / 2 - 1 / 2 * sin (1 / 2) - 1 / 2)
    with (- (1 / 2 * sin (1 / 2))) by ring.
  rewrite Rabs_Ropp, Rabs_right; lra.
Qed.

Lemma example_moving_solution : - PI < mean_to_eccentric o (1 / 2) <= PI.
Proof.
  unfold mean_to_eccentric.
  pose proof (iterate_near o.(eccentricity) (1 / 2) (1 / 2)
                (passes o.(eccentricity) (1 / 2) (1 / 2) 10)
                example_eccentricity_pos) as B.
  pose proof (passes_le o.(eccentricity) (1 / 2) (1 / 2) 10) as L.
  apply le_INR in L. replace (INR 10) with 10 in L by (simpl; lra).
  pose proof (pos_INR (passes o.(eccentricity) (1 / 2) (1 / 2) 10)) as P.
  cbn [eccentricity example_ellipse example_orbit] in *.
  pose proof PI2_3_2.
  unfold Rabs in B. destruct (Rcase_abs _) in B; lra.
Qed.

(** X15 at the mean anomaly [1/2] on the orbit [e = 1/2], where the solver
    runs more than one pass. *)
Lemma mean_eccentric_round_trip_example :
  (1 < passes o.(eccentricity) (1 / 2)%R (1 / 2)%R 10 <= 9)%nat /\
  exists M',
    fst ((E <- MeanAnomaly.eccentric_anomaly 1%nat 0%nat ;;
          back <- EccentricAnomaly.mean_anomaly E 0%nat ;;
          MeanAnomaly.this_angle back) example_moving) = Normal M' /\
    Rabs (M' - 1 / 2) < 2 * tolerance.
Proof.
  destruct (mean_eccentric_round_trip example_moving 1%nat 0%nat o (1 / 2)
              eq_refl eq_refl example_eccentricity) as (M' & A & _ & _ & B).
  destruct (B example_eccentricity_half) as [K C].
  split; [split; [exact example_moves|exact K]|].
  exists M'. split; [exact A|exact C].
Defined.

(** X16 at the same input. *)
Lemma mean_true_round_trip_example :
  exists M',
    fst ((nu <- MeanAnomaly.true_anomaly 1%nat 0%nat ;;
          back <- TrueAnomaly.mean_anomaly nu 0%nat ;;
          MeanAnomaly.this_angle back) example_moving) = Normal M' /\
    Rabs (M' - 1 / 2) < 2 * tolerance.
Proof.
  destruct (mean_true_round_trip example_moving 1%nat 0%nat o (1 / 2)
              eq_refl eq_refl example_axis example_eccentricity_moderate
              eq_refl example_moving_solution) as (M' & A & _ & B).
  exists M'. split; [exact A|exact (B example_eccentricity_half)].
Defined.

(** The mean anomaly [Infinity] on the orbit [a = 1], [e = 0.5], in
    binary64. *)
Lemma newton_not_finite_example :
  let h64 := [OKeplerianOrbit {| semimajor_axis := 1%float;
                                 eccentricity := 0.5%float;
                                 argument_of_periapsis := 0%float;
                                 clockwise := false |};
              OMeanAnomaly infinity] in
  MeanAnomaly.eccentric_anomaly (N := binary64 first_order) 1%nat 0%nat h64 =
    (Normal 2%nat, h64 ++ [OEccentricAnomaly nan]).
Proof.
  intros h64.
  exact (proj2 (proj2 (newton_not_finite first_order h64 1%nat 0%nat _
                         infinity eq_refl eq_refl eq_refl))).
Defined.

(** The scene of a root and its two children. *)
Lemma removeChild_removes_every_child_example :
  exists s',
    Scene.removeChild 0%nat 1%nat example_scene = (Normal tt, s') /\
    Scene.children_of s' 0%nat = [] /\
    Scene.parent_of s' 2%nat = Some 0%nat.
Proof.
  destruct (removeChild_removes_every_child example_scene 0%nat 1%nat
              ltac:(simpl; lia) ltac:(simpl; lia))
    as (s' & A & _ & B & _ & _ & _ & _ & C).
  exists s'. split; [exact A|]. split; [exact B|].
  apply (C 2%nat); [discriminate|reflexivity].
Defined.

Lemma addChild_adopts_example :
  exists s',
    Scene.addChild 1%nat 2%nat example_scene = (Normal tt, s') /\
    Scene.parent_of s' 2%nat = Some 1%nat /\
    Scene.children_of s' 1%nat = [2%nat] /\
    Scene.children_of s' 0%nat = [].
Proof.
  destruct (addChild_adopts example_scene 1%nat 2%nat
              ltac:(simpl; lia) ltac:(simpl; lia))
    as (s' & A & _ & B & C & D & _).
  { intros q [= <-]. simpl. lia. }
  exists s'. split; [exact A|]. split; [exact B|]. split; [exact C|].
  apply D; [reflexivity|discriminate].
Defined.

Lemma setParent_null_keeps_listing_example :
  exists s',
    Scene.setParent 1%nat None example_scene = (Normal tt, s') /\
    Scene.parent_of s' 1%nat = None /\
    In 1%nat (Scene.children_of s' 0%nat).
Proof.
  destruct (proj1 (setParent_null_keeps_listing example_scene 1%nat 0%nat
                     ltac:(simpl; lia) ltac:(simpl; lia) eq_refl
                     (or_introl eq_refl)))
    as (s' & A & B & C & _).
  exists s'. split; [exact A|]. split; [exact B|exact C].
Defined.

Lemma constructor_links_example :
  exists s',
    Scene.constructor
      (Some {| Scene.data_x := Some 2%float; Scene.data_y := None;
               Scene.data_rotation := Some nan;
               Scene.data_propagateRotation := None;
               Scene.data_parent := Some 1%nat |}) example_scene =
      (Normal 3%nat, s') /\
    Scene.parent_of s' 3%nat = Some 1%nat /\
    Scene.children_of s' 1%nat = [3%nat] /\
    Scene.placement s' 3%nat =
      Some (2%float, 0%float, 0%float, Scene.FNumber 0%float).
Proof.
  destruct (constructor_links example_scene
              (Some {| Scene.data_x := Some 2%float; Scene.data_y := None;
                       Scene.data_rotation := Some nan;
                       Scene.data_propagateRotation := None;
                       Scene.data_parent := Some 1%nat |}))
    as (s' & A & _ & B & _ & (x & y & r & f & D & _ & _ & _ & V) & C & _).
  { intros q [= <-]. simpl. lia. }
  exists s'. split; [exact A|]. split; [exact B|].
  split; [apply (C 1%nat eq_refl)|].
  cbv in V. destruct V as (-> & -> & -> & ->). exact D.
Defined.

Lemma point2d_keeps_distance_example :
  exists p q,
    EccentricAnomaly.point 2%nat 0%nat h = (Normal p, h) /\
    EccentricAnomaly.point2d 2%nat 0%nat h = (Normal q, h) /\
    norm q = norm p.
Proof.
  destruct (proj1 (point2d_keeps_distance h 2%nat 3%nat 0%nat o 1 0
                     eq_refl eq_refl eq_refl example_axis_le
                     example_eccentricity_le)) as (p & q & A & B & C & _).
  exists p, q. split; [exact A|]. split; [exact B|exact C].
Defined.

End FurtherExamples.
